(** * github-globe: the interaction core, embedded and verified

    A shallow embedding of the event emitter, the data manager's coordinate
    lookup, the scene's frame clock, the orbit controls and the globe's
    encoding and picking routines (Part I), the vocabulary in which their
    properties are stated (Part II), and the properties themselves
    (Part III).

    Conventions.
    - JavaScript numbers that carry times, pixels, weights and coordinates
      are rationals ([Q]); arithmetic is exact, so rounding of IEEE doubles
      is outside the model.  Values that may be [NaN] or infinite (the
      results of [parseFloat]) use [jsnum].
    - A component's [emit(name, payload)] is recorded in an event log, oldest
      first; what subscribers do with it is outside the component.
    - Objects compared with [===]/[!==] carry an allocation address. *)

From Stdlib Require Import ZArith QArith Qminmax Qround Qabs Lia Lqa List Bool
  Ascii String Sorted.
From stdpp Require Import gmap strings.
Import ListNotations.
Local Open Scope string_scope.
Local Open Scope Z_scope.
Local Open Scope list_scope.

(* ===================================================================== *)
(** * Part I: the embedding *)
(* ===================================================================== *)

(** ** Numbers *)

Definition Qleb (x y : Q) : bool := Qle_bool x y.
Definition Qltb (x y : Q) : bool := negb (Qle_bool y x).

(** The value of a JavaScript number expression that may fail to be finite. *)
Inductive jsnum : Type :=
| NaN : jsnum
| PosInf : jsnum
| NegInf : jsnum
| Fin : Q -> jsnum.

Definition isNaN (n : jsnum) : bool :=
  match n with NaN => true | _ => false end.

(** [a >= b] where [b] is a finite literal. *)
Definition js_ge (a : jsnum) (b : Q) : bool :=
  match a with
  | NaN => false
  | PosInf => true
  | NegInf => false
  | Fin q => Qleb b q
  end.

(** [a <= b] where [b] is a finite literal. *)
Definition js_le (a : jsnum) (b : Q) : bool :=
  match a with
  | NaN => false
  | PosInf => false
  | NegInf => true
  | Fin q => Qleb q b
  end.

(** ** utils/EventEmitter.js *)

Module EventEmitter.

(** Callbacks are opaque to the emitter: a callback is named by a number and
    is assumed not to call back into the emitter while it runs. *)
Record listener : Type := mkListener {
  callback : nat;
  once : bool;
  priority : Z
}.

Record options : Type := mkOptions {
  opt_once : option bool;
  opt_priority : option Z
}.

Definition no_options : options := mkOptions None None.

(** [this.events]: a [Map] from event name to its array of listeners. *)
Abbreviation events_t := (gmap string (list listener)).

(** [Array.prototype.sort((a, b) => b.priority - a.priority)]: the sort is
    stable, and [a] stays before [b] unless [b.priority - a.priority > 0]. *)
Fixpoint sort_insert (x : listener) (l : list listener) : list listener :=
  match l with
  | [] => [x]
  | y :: l' =>
      if (priority y - priority x >? 0)%Z
      then y :: sort_insert x l'
      else x :: y :: l'
  end.

Fixpoint sort_by_priority (l : list listener) : list listener :=
  match l with
  | [] => []
  | x :: l' => sort_insert x (sort_by_priority l')
  end.

Definition on (event : string) (cb : nat) (o : options) (events : events_t)
  : events_t :=
  let events1 :=
    match events !! event with
    | Some _ => events
    | None => <[event := []]> events
    end in
  let l := {| callback := cb;
              once := default false (opt_once o);
              priority := default 0%Z (opt_priority o) |} in
  let pushed := default [] (events1 !! event) ++ [l] in
  <[event := sort_by_priority pushed]> events1.

(** [array.splice(i, 1)]. *)
Definition splice1 {A : Type} (i : nat) (l : list A) : list A :=
  firstn i l ++ skipn (S i) l.

(** The body of [for (let i = listeners.length - 1; i >= 0; i--)], entered
    with [n = i + 1]: [copy] is the snapshot taken by [slice()], [live] the
    array still stored in the map, [calls] the callbacks invoked so far. *)
Fixpoint emit_loop (copy : list listener) (n : nat)
  (live : list listener) (calls : list nat) : list listener * list nat :=
  match n with
  | O => (live, calls)
  | S i =>
      match nth_error copy i with
      | None => emit_loop copy i live calls
      | Some l =>
          let calls' := calls ++ [callback l] in
          let live' := if once l then splice1 i live else live in
          emit_loop copy i live' calls'
      end
  end.

(** [emit(event, ...args)]: the new map, and the callbacks in the order in
    which they were invoked. *)
Definition emit (event : string) (events : events_t) : events_t * list nat :=
  match events !! event with
  | None => (events, [])
  | Some listeners =>
      let '(live, calls) :=
        emit_loop listeners (List.length listeners) listeners [] in
      (<[event := live]> events, calls)
  end.

(** [once(event, callback, options)]: [{ ...options, once: true }]. *)
Definition once_ (event : string) (cb : nat) (o : options)
  (events : events_t) : events_t :=
  on event cb (mkOptions (Some true) (opt_priority o)) events.

(** [listeners.findIndex(l => l.callback === callback)] followed by
    [splice(index, 1)] when the index is not [-1]. *)
Fixpoint remove_first (cb : nat) (l : list listener) : list listener :=
  match l with
  | [] => []
  | x :: l' =>
      if Nat.eqb (callback x) cb then l' else x :: remove_first cb l'
  end.

(** [off(event, callback = null)]. *)
Definition off (event : string) (cb : option nat) (events : events_t)
  : events_t :=
  match events !! event with
  | None => events
  | Some listeners =>
      match cb with
      | Some c => <[event := remove_first c listeners]> events
      | None => delete event events
      end
  end.

(** [removeAllListeners(event = null)]: the test [if (event)] is also
    false for the empty name. *)
Definition removeAllListeners (event : option string) (events : events_t)
  : events_t :=
  match event with
  | Some e => if String.eqb e "" then ∅ else delete e events
  | None => ∅
  end.

(** [listenerCount(event)]. *)
Definition listenerCount (event : string) (events : events_t) : nat :=
  match events !! event with
  | Some l => List.length l
  | None => O
  end.

(** The calls a client can make. *)
Inductive op : Type :=
| op_on (event : string) (cb : nat) (o : options)
| op_off (event : string) (cb : option nat)
| op_emit (event : string)
| op_removeAllListeners (event : option string).

Definition apply_op (o : op) (events : events_t) : events_t :=
  match o with
  | op_on e cb opts => on e cb opts events
  | op_off e cb => off e cb events
  | op_emit e => fst (emit e events)
  | op_removeAllListeners e => removeAllListeners e events
  end.

Definition run_ops (ops : list op) (events : events_t) : events_t :=
  fold_left (fun evs o => apply_op o evs) ops events.

Definition is_once (l : listener) : bool := once l.

End EventEmitter.

(** ** Script outcomes *)

(** A call either returns or throws (here only ever a [TypeError]). *)
Inductive outcome (A : Type) : Type :=
| Returns : A -> outcome A
| Throws : outcome A.
Arguments Returns {A} _.
Arguments Throws {A}.

(** Truthiness of a string value: every string but the empty one. *)
Definition truthy (s : string) : bool := negb (String.eqb s "").

(** The names an object literal inherits from [Object.prototype].  Read
    under one of them, an object used as a table gives the inherited
    member where it has no own property of that name, and an assignment to
    [__proto__] makes no own property: the tables that stand for object
    literals describe the reads and writes under the other names. *)
Definition Object_prototype_names : list string :=
  [ "constructor"; "__defineGetter__"; "__defineSetter__"; "hasOwnProperty";
    "__lookupGetter__"; "__lookupSetter__"; "isPrototypeOf";
    "propertyIsEnumerable"; "toString"; "valueOf"; "__proto__";
    "toLocaleString" ].

Definition inherited (name : string) : bool :=
  existsb (String.eqb name) Object_prototype_names.

(** ** Reading a number from a string *)

Section StringToNumber.
Local Open Scope Q_scope.









End StringToNumber.

(** ** data/DataManager.js *)

Module DataManager.

(** An entry of the engagements table, as far as the core looks into it:
    the own properties [properties] (with its [ISO_A3]) and [countryCode]
    when the entry has them, and the rest of the entry kept whole. *)
Record record : Type := mkRecord {
  rec_properties : option (option string);
  rec_countryCode : option string;
  rec_body : string
}.

(** [this.data.engagements]: [null] until loaded, then an object used as a
    map from country code to entry. *)
Definition engagements_t : Type := option (gmap string record).

Record bounds : Type := mkBounds {
  latMin : Q; latMax : Q; lngMin : Q; lngMax : Q
}.

(** The literal [countryBounds], in the order [Object.entries] yields it. *)
Definition countryBounds : list (string * bounds) :=
  [ ("IND", mkBounds 6 37 68 97);
    ("SGP", mkBounds (11 # 10) (15 # 10) (1036 # 10) 104);
    ("ARE", mkBounds 22 (265 # 10) 51 57);
    ("MYS", mkBounds (8 # 10) (75 # 10) 99 120);
    ("THA", mkBounds (55 # 10) 21 97 106);
    ("IDN", mkBounds (-11) 6 95 141);
    ("PHL", mkBounds 4 21 116 127);
    ("HKG", mkBounds (221 # 10) (226 # 10) (1138 # 10) (1145 # 10)) ].

Definition inside (lat lng : Q) (b : bounds) : bool :=
  Qleb (latMin b) lat && Qleb lat (latMax b) &&
  Qleb (lngMin b) lng && Qleb lng (lngMax b).

(** The object literal [{ countryCode: country, ...entry }]: the spread
    comes second, so an entry's own [countryCode] wins. *)
Record engagementData : Type := mkEngagementData {
  countryCode : option string;
  properties : option (option string);
  body : string
}.

Definition spread (country : string) (r : record) : engagementData :=
  {| countryCode := Some (default country (rec_countryCode r));
     properties := rec_properties r;
     body := rec_body r |}.

(** The [for ... of] loop over a table of boxes: the first box that holds
    the point ends the loop, whatever its country's entry is.  Reading an
    entry of a [null] table throws. *)
Fixpoint lookup_boxes (boxes : list (string * bounds))
  (engagements : engagements_t) (lat lng : Q)
  : outcome (option engagementData) :=
  match boxes with
  | [] => Returns None
  | (country, b) :: rest =>
      if inside lat lng b then
        match engagements with
        | None => Throws
        | Some table =>
            match table !! country with
            | Some r => Returns (Some (spread country r))
            | None => Returns None
            end
        end
      else lookup_boxes rest engagements lat lng
  end.

(** [getEngagementByCoords(lat, lng, tolerance = 5)]. *)
Definition getEngagementByCoords (engagements : engagements_t)
  (lat lng : Q) (tolerance : Q) : outcome (option engagementData) :=
  lookup_boxes countryBounds engagements lat lng.

Definition default_tolerance : Q := 5.

(** [getEngagements(countryCode)]. *)
Definition getEngagements (engagements : engagements_t)
  (code : string) : option record :=
  match engagements with
  | None => None
  | Some table => table !! code
  end.

(** *** Notes and preferences *)

(** A note as a caller hands it to [setNote]: its [type] and the rest of
    its fields (whatever [id], [updatedAt] and [createdAt] it carries are
    overwritten). *)
Record note : Type := mkNote {
  note_type : option string;
  note_text : string
}.

(** A note as stored in [userNotes]. *)
Record noteData : Type := mkNoteData {
  id : string;
  updatedAt : string;
  createdAt : option string;
  type : option string;
  text : string
}.

(** A preference value; [PNull] stands for [null] and [undefined]. *)
Inductive pvalue : Type :=
| PNull
| PBool (b : bool)
| PNum (q : Q)
| PStr (s : string).

Inductive event : Type :=
| note_updated (key : string) (n : noteData)
| note_deleted (key : string)
| preference_updated (key : string) (v : pvalue)
| preferences_reset
| user_saved
| user_cleared.

(** The user data of the manager with the part of the host it writes:
    [storage] is what the two items of [localStorage] hold, [timers] the
    timeouts set and not yet fired or cleared, [next_timer] the handle the
    next [setTimeout] returns. *)
Record manager : Type := mkManager {
  userNotes : gmap string noteData;
  userPreferences : gmap string pvalue;
  saveTimeout : option positive;
  storage : option (gmap string noteData) * option (gmap string pvalue);
  timers : list (positive * Q);
  next_timer : positive;
  emitted : list event
}.

Definition new_manager : manager :=
  {| userNotes := ∅; userPreferences := ∅; saveTimeout := None;
     storage := (None, None); timers := []; next_timer := 1%positive;
     emitted := [] |}.

Definition emit (e : event) (m : manager) : manager :=
  mkManager (userNotes m) (userPreferences m) (saveTimeout m) (storage m)
    (timers m) (next_timer m) (emitted m ++ [e]).

Definition set_notes (n : gmap string noteData) (m : manager) : manager :=
  mkManager n (userPreferences m) (saveTimeout m) (storage m)
    (timers m) (next_timer m) (emitted m).

Definition set_preferences (p : gmap string pvalue) (m : manager)
  : manager :=
  mkManager (userNotes m) p (saveTimeout m) (storage m)
    (timers m) (next_timer m) (emitted m).

Definition set_storage
  (st : option (gmap string noteData) * option (gmap string pvalue))
  (m : manager) : manager :=
  mkManager (userNotes m) (userPreferences m) (saveTimeout m) st
    (timers m) (next_timer m) (emitted m).

Definition set_save_timer (h : option positive) (ts : list (positive * Q))
  (n : positive) (m : manager) : manager :=
  mkManager (userNotes m) (userPreferences m) h (storage m) ts n (emitted m).

(** [saveUserData()], with a store that accepts the two items. *)
Definition saveUserData (m : manager) : manager :=
  emit user_saved
    (set_storage (Some (userNotes m), Some (userPreferences m)) m).

(** [clearTimeout(h)] on the host's table; clearing [undefined] or a
    handle that is not pending does nothing. *)
Definition clear (h : option positive) (ts : list (positive * Q))
  : list (positive * Q) :=
  match h with
  | Some h => List.filter (fun t => negb (Pos.eqb (fst t) h)) ts
  | None => ts
  end.

(** [setNote(key, note)] at host time [now], where [stamp] holds what
    the two [new Date().toISOString()] of the object literal give: the
    first for [updatedAt], the second for [createdAt]. *)
Definition setNote (now : Q) (stamp : string * string) (key : string)
  (n : note) (m : manager) : noteData * manager :=
  let noteData :=
    {| id := key;
       updatedAt := fst stamp;
       createdAt := match userNotes m !! key with
                    | Some old => createdAt old
                    | None => Some (snd stamp)
                    end;
       type := note_type n;
       text := note_text n |} in
  let m := set_notes (<[key := noteData]> (userNotes m)) m in
  let m := emit (note_updated key noteData) m in
  let ts := clear (saveTimeout m) (timers m) in
  let h := next_timer m in
  (noteData,
   set_save_timer (Some h) (ts ++ [(h, (now + 1000)%Q)]) (Pos.succ h) m).

(** [getNote(key)]. *)
Definition getNote (key : string) (m : manager) : option noteData :=
  userNotes m !! key.

(** [deleteNote(key)]. *)
Definition deleteNote (key : string) (m : manager) : bool * manager :=
  match userNotes m !! key with
  | Some _ =>
      let m := set_notes (delete key (userNotes m)) m in
      let m := emit (note_deleted key) m in
      (true, saveUserData m)
  | None => (false, m)
  end.

(** [setPreference(key, value)], for a key that is no name of
    [Object.prototype]. *)
Definition setPreference (key : string) (v : pvalue) (m : manager)
  : manager :=
  let m := set_preferences (<[key := v]> (userPreferences m)) m in
  saveUserData (emit (preference_updated key v) m).

(** [getPreference(key, defaultValue = null)], for a key that is no name
    of [Object.prototype]: [??] falls back on [null] and [undefined]
    only. *)
Definition getPreference (key : string) (defaultValue : pvalue)
  (m : manager) : pvalue :=
  match userPreferences m !! key with
  | Some PNull | None => defaultValue
  | Some v => v
  end.

(** [resetPreferences()]. *)
Definition resetPreferences (m : manager) : manager :=
  saveUserData (emit preferences_reset (set_preferences ∅ m)).

(** [clearUserData()]. *)
Definition clearUserData (m : manager) : manager :=
  let m := set_notes ∅ m in
  let m := set_preferences ∅ m in
  emit user_cleared (set_storage (None, None) m).

(** The host at time [now] runs the timeouts that are due, oldest first:
    each is the delayed [saveUserData] of a [setNote]. *)
Fixpoint fire_due (now : Q) (due : list (positive * Q)) (m : manager)
  : manager :=
  match due with
  | [] => m
  | (h, t) :: rest =>
      let pending := existsb (fun e => Pos.eqb (fst e) h) (timers m) in
      let m :=
        if Qleb t now && pending
        then saveUserData
               (set_save_timer (saveTimeout m) (clear (Some h) (timers m))
                  (next_timer m) m)
        else m in
      fire_due now rest m
  end.

Definition run_timers (now : Q) (m : manager) : manager :=
  fire_due now (timers m) m.

(** A series of [setNote] calls, each with its time, stamps, key and
    note. *)
Fixpoint setNotes (calls : list (Q * (string * string) * string * note))
  (m : manager) : manager :=
  match calls with
  | [] => m
  | (now, stamp, key, n) :: rest =>
      setNotes rest (snd (setNote now stamp key n m))
  end.



End DataManager.

(** ** core/Scene.js *)

Module Scene.
Local Open Scope Q_scope.

(** [THREE.Clock] of the rendering library, the frame clock the scene
    owns.  Times read from [performance.now()] are in milliseconds, the
    clock's own in seconds. *)
Record Clock : Type := mkClock {
  autoStart : bool;
  startTime : Q;
  oldTime : Q;
  elapsedTime : Q;
  running : bool
}.

Definition new_Clock : Clock :=
  {| autoStart := true; startTime := 0; oldTime := 0;
     elapsedTime := 0; running := false |}.

(** [Clock.start()]: a new baseline, and the elapsed time back at zero. *)
Definition Clock_start (now : Q) (c : Clock) : Clock :=
  {| autoStart := autoStart c; startTime := now; oldTime := now;
     elapsedTime := 0; running := true |}.

(** [Clock.getDelta()]. *)
Definition Clock_getDelta (now : Q) (c : Clock) : Q * Clock :=
  if autoStart c && negb (running c) then (0, Clock_start now c)
  else if running c then
    let diff := (now - oldTime c) / 1000 in
    (diff, {| autoStart := autoStart c; startTime := startTime c;
              oldTime := now; elapsedTime := elapsedTime c + diff;
              running := running c |})
  else (0, c).

(** [Clock.getElapsedTime()]. *)
Definition Clock_getElapsedTime (now : Q) (c : Clock) : Q * Clock :=
  let c' := snd (Clock_getDelta now c) in (elapsedTime c', c').

Inductive event : Type :=
| scene_started
| scene_animate (deltaTime elapsedTime currentTime : Q)
| scene_stats (fps : Z)
| scene_paused
| scene_resumed
| scene_stopped.

(** [this.stats], without the render time (which is the renderer's). *)
Record stats_t : Type := mkStats {
  frameCount : Z;
  fps : Z;
  lastTime : Q
}.

(** The scene's loop state.  [requested] says whether a frame request for
    [animate] is outstanding (what [animationId] names). *)
Record state : Type := mkState {
  isAnimating : bool;
  isPaused : bool;
  requested : bool;
  clock : Clock;
  stats : stats_t;
  emitted : list event
}.

Definition initial : state :=
  {| isAnimating := false; isPaused := false; requested := false;
     clock := new_Clock; stats := mkStats 0 0 0; emitted := [] |}.

Definition emit (e : event) (s : state) : state :=
  {| isAnimating := isAnimating s; isPaused := isPaused s;
     requested := requested s; clock := clock s; stats := stats s;
     emitted := emitted s ++ [e] |}.

Definition set_clock (c : Clock) (s : state) : state :=
  {| isAnimating := isAnimating s; isPaused := isPaused s;
     requested := requested s; clock := c; stats := stats s;
     emitted := emitted s |}.

Definition set_stats (st : stats_t) (s : state) : state :=
  {| isAnimating := isAnimating s; isPaused := isPaused s;
     requested := requested s; clock := clock s; stats := st;
     emitted := emitted s |}.

Definition set_requested (b : bool) (s : state) : state :=
  {| isAnimating := isAnimating s; isPaused := isPaused s;
     requested := b; clock := clock s; stats := stats s;
     emitted := emitted s |}.

Definition set_flags (animating paused : bool) (s : state) : state :=
  {| isAnimating := animating; isPaused := paused;
     requested := requested s; clock := clock s; stats := stats s;
     emitted := emitted s |}.

(** [Math.round]. *)
Definition Math_round (x : Q) : Z := Qfloor (x + (1 # 2)).

(** [updateStats(currentTime)]. *)
Definition updateStats (currentTime : Q) (s : state) : state :=
  let st := stats s in
  let n := (frameCount st + 1)%Z in
  if Qleb 1000 (currentTime - lastTime st) then
    let f := Math_round ((inject_Z n * 1000) / (currentTime - lastTime st)) in
    emit (scene_stats f) (set_stats (mkStats 0 f currentTime) s)
  else set_stats (mkStats n (fps st) (lastTime st)) s.

(** [animate()], run at time [now] (every clock read of one run of the
    callback sees the same time). *)
Definition animate (now : Q) (s : state) : state :=
  if negb (isAnimating s) then s
  else
    let s := set_requested true s in
    if isPaused s then s
    else
      let currentTime := now in
      let '(deltaTime, c1) := Clock_getDelta now (clock s) in
      let s := updateStats currentTime (set_clock c1 s) in
      let '(elapsed, c2) := Clock_getElapsedTime now (clock s) in
      emit (scene_animate deltaTime elapsed currentTime) (set_clock c2 s).

(** [start()]. *)
Definition start (now : Q) (s : state) : state :=
  if isAnimating s then s
  else
    let s := set_flags true false s in
    let st := stats s in
    let s := set_stats (mkStats (frameCount st) (fps st) now) s in
    emit scene_started (animate now s).

(** [pause()]. *)
Definition pause (s : state) : state :=
  emit scene_paused (set_flags (isAnimating s) true s).

(** [resume()]. *)
Definition resume (now : Q) (s : state) : state :=
  let s := set_flags (isAnimating s) false s in
  emit scene_resumed (set_clock (Clock_start now (clock s)) s).

(** [stop()]. *)
Definition stop (s : state) : state :=
  emit scene_stopped (set_requested false (set_flags false (isPaused s) s)).

(** The display delivers a frame at time [now]: the outstanding request,
    if any, is consumed and [animate] runs. *)
Definition frame (now : Q) (s : state) : state :=
  if requested s then animate now (set_requested false s) else s.

Fixpoint frames (times : list Q) (s : state) : state :=
  match times with
  | [] => s
  | t :: rest => frames rest (frame t s)
  end.

Definition is_animate (e : event) : bool :=
  match e with scene_animate _ _ _ => true | _ => false end.

(** The payload of the latest [scene:animate]. *)
Definition last_animate (s : state) : option (Q * Q) :=
  match last (List.filter is_animate (emitted s)) with
  | Some (scene_animate d e _) => Some (d, e)
  | _ => None
  end.

(** [getBoundingClientRect()] of the canvas. *)
Record rect : Type := mkRect {
  left : Q; top : Q; width : Q; height : Q
}.

(** What [handleMouseMove(event)] stores in [this.mouse] for a pointer at
    [(clientX, clientY)]: normalised device coordinates ([width] and
    [height] are taken positive, so that the quotients are numbers). *)
Definition mouse_of_event (r : rect) (clientX clientY : Q) : Q * Q :=
  (((clientX - left r) / width r) * 2 - 1,
   - ((clientY - top r) / height r) * 2 + 1).

(** What can happen to the loop, one host task at a time. *)
Inductive action : Type :=
| Start (now : Q)
| Frame (now : Q)
| Pause
| Resume (now : Q)
| Stop.

Definition step (a : action) (s : state) : state :=
  match a with
  | Start now => start now s
  | Frame now => frame now s
  | Pause => pause s
  | Resume now => resume now s
  | Stop => stop s
  end.

Definition run (tasks : list action) (s : state) : state :=
  fold_left (fun s a => step a s) tasks s.

End Scene.

(** ** core/Controls.js *)

Module Controls.
Local Open Scope Q_scope.

Record vec2 : Type := mkVec2 { x : Q; y : Q }.

(** [Vector2.length() > r] for a radius [r >= 0]: the square root is
    increasing, so the test is on the squares. *)
Definition length_gt (v : vec2) (r : Q) : bool :=
  Qltb (r * r) (x v * x v + y v * y v).

Inductive event : Type :=
| mouse_down
| mouse_move (delta : vec2) (isDragging : bool)
| click
| mouse_up (wasClick : bool)
| interaction_start
| interaction_end
| interaction_cancelled
| auto_rotate (on : bool)
| auto_rotate_started
| disabled.

(** [this.state]. *)
Record state_t : Type := mkStateT {
  isInteracting : bool;
  lastInteractionTime : Q;
  autoRotateTimeout : option positive;
  mouseDownTime : Q;
  clickThreshold : Q
}.

(** The controls, with the part of the host they rely on: [timers] are
    the timeouts set and not yet fired or cleared (handle and due time),
    [next_timer] the handle the next [setTimeout] returns.  [orbitControls]
    is [None] for [null] and otherwise holds the [autoRotate] flag. *)
Record controls : Type := mkControls {
  orbitControls : option bool;
  isEnabled : bool;
  isDragging : bool;
  lastMousePosition : vec2;
  mouseDelta : vec2;
  state : state_t;
  timers : list (positive * Q);
  next_timer : positive;
  emitted : list event
}.

Definition initial : controls :=
  {| orbitControls := Some false; isEnabled := true; isDragging := false;
     lastMousePosition := mkVec2 0 0; mouseDelta := mkVec2 0 0;
     state := mkStateT false 0 None 0 200;
     timers := []; next_timer := 1%positive; emitted := [] |}.

Definition emit (e : event) (c : controls) : controls :=
  mkControls (orbitControls c) (isEnabled c) (isDragging c)
    (lastMousePosition c) (mouseDelta c) (state c) (timers c)
    (next_timer c) (emitted c ++ [e]).

Definition set_orbit (o : option bool) (c : controls) : controls :=
  mkControls o (isEnabled c) (isDragging c)
    (lastMousePosition c) (mouseDelta c) (state c) (timers c)
    (next_timer c) (emitted c).

Definition set_enabled (b : bool) (c : controls) : controls :=
  mkControls (orbitControls c) b (isDragging c)
    (lastMousePosition c) (mouseDelta c) (state c) (timers c)
    (next_timer c) (emitted c).

Definition set_dragging (b : bool) (c : controls) : controls :=
  mkControls (orbitControls c) (isEnabled c) b
    (lastMousePosition c) (mouseDelta c) (state c) (timers c)
    (next_timer c) (emitted c).

Definition set_mouse (last delta : vec2) (c : controls) : controls :=
  mkControls (orbitControls c) (isEnabled c) (isDragging c)
    last delta (state c) (timers c) (next_timer c) (emitted c).

Definition set_state (st : state_t) (c : controls) : controls :=
  mkControls (orbitControls c) (isEnabled c) (isDragging c)
    (lastMousePosition c) (mouseDelta c) st (timers c)
    (next_timer c) (emitted c).

Definition set_timers (ts : list (positive * Q)) (n : positive)
  (c : controls) : controls :=
  mkControls (orbitControls c) (isEnabled c) (isDragging c)
    (lastMousePosition c) (mouseDelta c) (state c) ts n (emitted c).

Definition set_interacting (b : bool) (st : state_t) : state_t :=
  mkStateT b (lastInteractionTime st) (autoRotateTimeout st)
    (mouseDownTime st) (clickThreshold st).

Definition set_lastInteractionTime (t : Q) (st : state_t) : state_t :=
  mkStateT (isInteracting st) t (autoRotateTimeout st)
    (mouseDownTime st) (clickThreshold st).

Definition set_timeout (h : option positive) (st : state_t) : state_t :=
  mkStateT (isInteracting st) (lastInteractionTime st) h
    (mouseDownTime st) (clickThreshold st).

Definition set_mouseDownTime (t : Q) (st : state_t) : state_t :=
  mkStateT (isInteracting st) (lastInteractionTime st) (autoRotateTimeout st)
    t (clickThreshold st).

(** *** Gestures *)

(** [handleMouseDown(event)] at time [now], pointer at [p]. *)
Definition handleMouseDown (now : Q) (p : vec2) (c : controls) : controls :=
  let c := set_dragging false c in
  let c := set_state (set_mouseDownTime now (state c)) c in
  let c := set_mouse p (mouseDelta c) c in
  emit mouse_down c.

(** [handleMouseMove(event)], pointer at [p] (the normalised pointer
    position kept in [this.mouse] plays no part in what follows and is
    left out). *)
Definition handleMouseMove (p : vec2) (c : controls) : controls :=
  let delta := mkVec2 (x p - x (lastMousePosition c))
                      (y p - y (lastMousePosition c)) in
  let c := set_mouse (lastMousePosition c) delta c in
  let c := if length_gt (mouseDelta c) 5 then set_dragging true c else c in
  let c := set_mouse p (mouseDelta c) c in
  emit (mouse_move (mouseDelta c) (isDragging c)) c.

(** [handleClick(event)]. *)
Definition handleClick (c : controls) : controls := emit click c.

(** [handleMouseUp(event)] at time [now]. *)
Definition handleMouseUp (now : Q) (c : controls) : controls :=
  let clickDuration := now - mouseDownTime (state c) in
  let c := if negb (isDragging c)
              && Qltb clickDuration (clickThreshold (state c))
           then handleClick c else c in
  let c := set_dragging false c in
  emit (mouse_up (negb (isDragging c)
                  && Qltb clickDuration (clickThreshold (state c)))) c.

(** *** The idle timer *)

(** [clearTimeout(h)] on the host's table. *)
Definition clearTimeout (h : positive) (ts : list (positive * Q))
  : list (positive * Q) :=
  List.filter (fun t => negb (Pos.eqb (fst t) h)) ts.

(** [stopAutoRotate()]. *)
Definition stopAutoRotate (c : controls) : controls :=
  let c :=
    match autoRotateTimeout (state c) with
    | Some h =>
        let c := set_timers (clearTimeout h (timers c)) (next_timer c) c in
        set_state (set_timeout None (state c)) c
    | None => c
    end in
  match orbitControls c with
  | Some _ => set_orbit (Some false) c
  | None => c
  end.

(** The function handed to [setTimeout] by [scheduleAutoRotate]. *)
Definition autoRotate_callback (c : controls) : controls :=
  match orbitControls c with
  | Some _ =>
      if negb (isInteracting (state c))
      then emit auto_rotate_started (set_orbit (Some true) c)
      else c
  | None => c
  end.

(** [scheduleAutoRotate()] at time [now]. *)
Definition scheduleAutoRotate (now : Q) (c : controls) : controls :=
  let c := stopAutoRotate c in
  let h := next_timer c in
  let c := set_timers (timers c ++ [(h, now + 3000)]) (Pos.succ h) c in
  set_state (set_timeout (Some h) (state c)) c.

(** The host at time [now] runs the timeouts that are due, oldest first;
    one that has been cleared in the meantime is passed over. *)
Fixpoint fire_due (now : Q) (due : list (positive * Q)) (c : controls)
  : controls :=
  match due with
  | [] => c
  | (h, t) :: rest =>
      let pending := existsb (fun e => Pos.eqb (fst e) h) (timers c) in
      let c :=
        if Qleb t now && pending
        then autoRotate_callback
               (set_timers (clearTimeout h (timers c)) (next_timer c) c)
        else c in
      fire_due now rest c
  end.

Definition run_timers (now : Q) (c : controls) : controls :=
  fire_due now (timers c) c.

(** The listener of the orbit controls' [start] event. *)
Definition on_start (now : Q) (c : controls) : controls :=
  let c := set_state (set_interacting true (state c)) c in
  let c := set_state (set_lastInteractionTime now (state c)) c in
  let c := stopAutoRotate c in
  emit interaction_start c.

(** The listener of the orbit controls' [end] event. *)
Definition on_end (now : Q) (c : controls) : controls :=
  let c := set_state (set_interacting false (state c)) c in
  let c := scheduleAutoRotate now c in
  emit interaction_end c.

(** [toggleAutoRotate()]. *)
Definition toggleAutoRotate (now : Q) (c : controls) : controls :=
  match orbitControls c with
  | None => c
  | Some a =>
      let c := set_orbit (Some (negb a)) c in
      let c := if negb a then scheduleAutoRotate now c
               else stopAutoRotate c in
      emit (auto_rotate (default false (orbitControls c))) c
  end.

(** [cancelInteraction()]. *)
Definition cancelInteraction (c : controls) : controls :=
  let c := set_dragging false c in
  let c := set_state (set_interacting false (state c)) c in
  emit interaction_cancelled c.

(** [disable()]. *)
Definition disable (c : controls) : controls :=
  emit disabled (stopAutoRotate (set_enabled false c)).

(** What can happen to the controls, one host task at a time. *)
Inductive action : Type :=
| OrbitStart
| OrbitEnd
| KeyToggle
| KeyEscape
| Disable
| MouseDown (p : vec2)
| MouseMove (p : vec2)
| MouseUp
| TimersRun.

Definition step (now : Q) (a : action) (c : controls) : controls :=
  match a with
  | OrbitStart => on_start now c
  | OrbitEnd => on_end now c
  | KeyToggle => toggleAutoRotate now c
  | KeyEscape => cancelInteraction c
  | Disable => disable c
  | MouseDown p => handleMouseDown now p c
  | MouseMove p => handleMouseMove p c
  | MouseUp => handleMouseUp now c
  | TimersRun => run_timers now c
  end.

Fixpoint run (tasks : list (Q * action)) (c : controls) : controls :=
  match tasks with
  | [] => c
  | (now, a) :: rest => run rest (step now a c)
  end.

(** The actions that (re)schedule the idle timer. *)
Definition schedules (a : action) : bool :=
  match a with OrbitEnd | KeyToggle => true | _ => false end.

Definition is_started (e : event) : bool :=
  match e with auto_rotate_started => true | _ => false end.

Definition is_click (e : event) : bool :=
  match e with click => true | _ => false end.

Definition started_count (c : controls) : nat :=
  List.length (List.filter is_started (emitted c)).

Definition click_count (c : controls) : nat :=
  List.length (List.filter is_click (emitted c)).

(** A press, the moves that follow it and the release. *)
Definition cycle (t0 : Q) (p0 : vec2) (moves : list vec2) (t1 : Q)
  (c : controls) : controls :=
  handleMouseUp t1
    (fold_left (fun c p => handleMouseMove p c) moves
       (handleMouseDown t0 p0 c)).

End Controls.

(** ** core/Globe.js *)

Module Globe.
Local Open Scope Q_scope.

Record vec3 : Type := mkVec3 { vx : Q; vy : Q; vz : Q }.

(** [Vector3.lerpVectors(v1, v2, alpha)]. *)
Definition lerpVectors (v1 v2 : vec3) (alpha : Q) : vec3 :=
  {| vx := vx v1 + (vx v2 - vx v1) * alpha;
     vy := vy v1 + (vy v2 - vy v1) * alpha;
     vz := vz v1 + (vz v2 - vz v1) * alpha |}.

(** The camera: where it is, and the point last handed to [lookAt]. *)
Record camera_t : Type := mkCamera { position : vec3; lookingAt : vec3 }.

(** What one call of [animateCameraTo] closes over. *)
Record tween : Type := mkTween {
  startPosition : vec3;
  targetPosition : vec3;
  targetLookAt : vec3;
  startTime : Q;
  duration : Q
}.

(** An object the globe holds by reference: where it was allocated, and
    what it contains. *)
Record obj : Type := mkObj {
  addr : nat;
  data : DataManager.engagementData
}.

(** A raw field of a project entry. *)
Inductive jsval : Type :=
| JNum (n : jsnum)
| JStr (s : string)
| JUndefined.

Record arc : Type := mkArc {
  startLat : jsval;
  startLng : jsval;
  endLat : jsval;
  endLng : jsval;
  status : bool;
  arcAlt : Q;
  order : Q
}.

Inductive diag : Type :=
| warn_no_projects
| warn_invalid_arc (a : arc)
| log_setting_arcs (valid total : nat)
| warn_no_coordinates (code : string).

Inductive event : Type :=
| country_hovered (country : obj) (isoCode : string)
| country_hover_end (prevCountry : option obj)
| country_clicked (country : obj)
| country_no_data (country : obj) (isoCode : option string)
| country_focused (countryCode : string)
| globe_clicked (coordinates : Q * Q)
| globe_deselected
| camera_animation_complete
| view_reset.

(** The globe, with the parts of its surroundings it writes: the scene's
    camera ([None] for [null]), the frame callbacks registered and not yet
    run ([raf], oldest first), the arcs handed to the renderer, the console
    and the allocator. *)
Record globe : Type := mkGlobe {
  camera : option camera_t;
  hoveredCountry : option obj;
  selectedCountry : option obj;
  raf : list tween;
  arcsData : list arc;
  console : list diag;
  next_addr : nat;
  emitted : list event
}.

Definition initial : globe :=
  {| camera := Some (mkCamera (mkVec3 0 0 400) (mkVec3 0 0 0));
     hoveredCountry := None; selectedCountry := None; raf := [];
     arcsData := []; console := []; next_addr := O; emitted := [] |}.

Definition emit (e : event) (s : globe) : globe :=
  mkGlobe (camera s) (hoveredCountry s) (selectedCountry s) (raf s)
    (arcsData s) (console s) (next_addr s) (emitted s ++ [e]).

Definition set_camera (c : option camera_t) (s : globe) : globe :=
  mkGlobe c (hoveredCountry s) (selectedCountry s) (raf s)
    (arcsData s) (console s) (next_addr s) (emitted s).

Definition set_hovered (h : option obj) (s : globe) : globe :=
  mkGlobe (camera s) h (selectedCountry s) (raf s)
    (arcsData s) (console s) (next_addr s) (emitted s).

Definition set_selected (h : option obj) (s : globe) : globe :=
  mkGlobe (camera s) (hoveredCountry s) h (raf s)
    (arcsData s) (console s) (next_addr s) (emitted s).

Definition set_raf (q : list tween) (s : globe) : globe :=
  mkGlobe (camera s) (hoveredCountry s) (selectedCountry s) q
    (arcsData s) (console s) (next_addr s) (emitted s).

Definition set_arcs (a : list arc) (s : globe) : globe :=
  mkGlobe (camera s) (hoveredCountry s) (selectedCountry s) (raf s)
    a (console s) (next_addr s) (emitted s).

Definition print (d : diag) (s : globe) : globe :=
  mkGlobe (camera s) (hoveredCountry s) (selectedCountry s) (raf s)
    (arcsData s) (console s ++ [d]) (next_addr s) (emitted s).

(** Allocating an object literal. *)
Definition alloc (d : DataManager.engagementData) (s : globe) : obj * globe :=
  (mkObj (next_addr s) d,
   mkGlobe (camera s) (hoveredCountry s) (selectedCountry s) (raf s)
     (arcsData s) (console s) (S (next_addr s)) (emitted s)).

(** *** Camera animation *)

(** [animateCameraTo(position, target, duration)] called at time [now]. *)
Definition animateCameraTo (now : Q) (position target : vec3) (duration : Q)
  (s : globe) : globe :=
  match camera s with
  | None => s
  | Some cam =>
      let tw := {| startPosition := Globe.position cam;
                   targetPosition := position;
                   targetLookAt := target;
                   startTime := now;
                   duration := duration |} in
      set_raf (raf s ++ [tw]) s
  end.

Definition default_duration : Q := 2000.

(** The closure [animate(currentTime)] of one tween ([duration] is taken
    positive, so that the quotient is a number). *)
Definition animate (tw : tween) (currentTime : Q) (s : globe) : globe :=
  let elapsed := currentTime - startTime tw in
  let progress := Qmin (elapsed / duration tw) 1 in
  let eased := 1 - (1 - progress) * (1 - progress) * (1 - progress) in
  let s :=
    match camera s with
    | Some _ =>
        set_camera
          (Some (mkCamera
                   (lerpVectors (startPosition tw) (targetPosition tw) eased)
                   (targetLookAt tw))) s
    | None => s
    end in
  if Qltb progress 1 then set_raf (raf s ++ [tw]) s
  else emit camera_animation_complete s.

(** The display delivers a frame at time [now]: the callbacks registered
    so far run in the order of their registration, and what they register
    waits for the next frame. *)
Definition frame (now : Q) (s : globe) : globe :=
  fold_left (fun s tw => animate tw now s) (raf s) (set_raf [] s).

Fixpoint frames (times : list Q) (s : globe) : globe :=
  match times with
  | [] => s
  | t :: rest => frames rest (frame t s)
  end.

Definition is_complete (e : event) : bool :=
  match e with camera_animation_complete => true | _ => false end.

Definition complete_count (s : globe) : nat :=
  List.length (List.filter is_complete (emitted s)).

(** *** Hover and click *)

Section Picking.

(** The data manager's table, read through [this.dataManager]. *)
Variable engagements : DataManager.engagements_t.

(** [globe.getCoords(lat, lng, altitude)] of the globe library. *)
Variable getCoords : Q -> Q -> Q -> vec3.

(** [handleCountryHover(country, prevCountry)]. *)
Definition handleCountryHover (country prevCountry : option obj)
  (s : globe) : globe :=
  let s := set_hovered country s in
  match country with
  | Some c =>
      let found : option string :=
        match DataManager.properties (data c) with
        | Some (Some iso) =>
            if truthy iso then
              match DataManager.getEngagements engagements iso with
              | Some _ => Some iso
              | None => None
              end
            else
              match DataManager.countryCode (data c) with
              | Some code => if truthy code then Some code else None
              | None => None
              end
        | _ =>
            match DataManager.countryCode (data c) with
            | Some code => if truthy code then Some code else None
            | None => None
            end
        end in
      match found with
      | Some isoCode => emit (country_hovered c isoCode) s
      | None => s
      end
  | None => emit (country_hover_end prevCountry) s
  end.

(** [a !== b] on references. *)
Definition not_same (a : obj) (b : option obj) : bool :=
  match b with
  | Some o => negb (Nat.eqb (addr a) (addr o))
  | None => true
  end.

(** [handleGlobeHover(event, intersection)], where [coords] is what
    [pointToLatLng(intersection.point)] gave. *)
Definition handleGlobeHover (coords : option (Q * Q)) (s : globe)
  : outcome globe :=
  match coords with
  | None => Returns s
  | Some (lat, lng) =>
      match DataManager.getEngagementByCoords engagements lat lng
              DataManager.default_tolerance with
      | Throws => Throws
      | Returns (Some d) =>
          let '(engagementData, s) := alloc d s in
          if not_same engagementData (hoveredCountry s)
          then Returns (handleCountryHover (Some engagementData)
                          (hoveredCountry s) s)
          else Returns s
      | Returns None =>
          match hoveredCountry s with
          | Some _ => Returns (handleCountryHover None (hoveredCountry s) s)
          | None => Returns s
          end
      end
  end.

(** Where the pointer's ray ends: off the globe, or on it at a point that
    [pointToLatLng] turns into coordinates (or fails to). *)
Inductive pointer : Type :=
| off_globe
| on_globe (coords : option (Q * Q)).

(** The listener of [scene:mousemove].  An exception leaves the listener
    and is caught by the emitter that called it. *)
Definition on_mousemove (p : pointer) (s : globe) : globe :=
  match p with
  | on_globe coords =>
      match handleGlobeHover coords s with
      | Returns s' => s'
      | Throws => s
      end
  | off_globe =>
      match hoveredCountry s with
      | Some _ => handleCountryHover None (hoveredCountry s) s
      | None => s
      end
  end.

(** [handleGlobeClick(event, intersection)]. *)
Definition handleGlobeClick (coords : option (Q * Q)) (s : globe)
  : outcome globe :=
  match coords with
  | None => Returns s
  | Some (lat, lng) =>
      match DataManager.getEngagementByCoords engagements lat lng
              DataManager.default_tolerance with
      | Throws => Throws
      | Returns (Some d) =>
          let '(engagementData, s) := alloc d s in
          let s := set_selected (Some engagementData) s in
          Returns (emit (country_clicked engagementData) s)
      | Returns None => Returns (emit (globe_clicked (lat, lng)) s)
      end
  end.

(** The listener of [scene:click]. *)
Definition on_click (p : pointer) (s : globe) : globe :=
  match p with
  | on_globe coords =>
      match handleGlobeClick coords s with
      | Returns s' => s'
      | Throws => s
      end
  | off_globe => emit globe_deselected (set_selected None s)
  end.

(** The literal [countryCenters]. *)
Definition countryCenters : list (string * (Q * Q)) :=
  [ ("IND", (205937 # 10000, 789629 # 10000));
    ("SGP", (13521 # 10000, 1038198 # 10000));
    ("ARE", (234241 # 10000, 538478 # 10000));
    ("MYS", (42105 # 10000, 1019758 # 10000));
    ("THA", (1587 # 100, 1009925 # 10000));
    ("IDN", (- (7893 # 10000), 1139213 # 10000));
    ("PHL", (128797 # 10000, 121774 # 1000));
    ("HKG", (223193 # 10000, 1141694 # 10000)) ].

Fixpoint assoc {A : Type} (k : string) (l : list (string * A)) : option A :=
  match l with
  | [] => None
  | (k', v) :: rest => if String.eqb k k' then Some v else assoc k rest
  end.

(** [focusCountry(countryCode)] at time [now].  The camera is placed at
    [2.5] globe radii: [distance / globeRadius] with a radius that is not
    zero. *)
Definition focusCountry (now : Q) (countryCode : string) (s : globe)
  : globe :=
  match assoc countryCode countryCenters with
  | None => print (warn_no_coordinates countryCode) s
  | Some (lat, lng) =>
      let targetPosition := getCoords lat lng (25 # 10) in
      let s := animateCameraTo now targetPosition (mkVec3 0 0 0)
                 default_duration s in
      emit (country_focused countryCode) s
  end.

(** [handleCountryClick(country)] at time [now]; reading [ISO_A3] of a
    [properties] that is not there throws. *)
Definition handleCountryClick (now : Q) (country : option obj) (s : globe)
  : outcome globe :=
  match country with
  | None => Returns s
  | Some c =>
      let s := set_selected country s in
      match DataManager.properties (data c) with
      | None => Throws
      | Some isoCode =>
          match DataManager.getEngagements engagements
                  (default "undefined" isoCode) with
          | Some _ =>
              let s := emit (country_clicked c) s in
              Returns (focusCountry now (default "undefined" isoCode) s)
          | None => Returns (emit (country_no_data c isoCode) s)
          end
      end
  end.

(** [resetView()] at time [now]. *)
Definition resetView (now : Q) (s : globe) : globe :=
  let s := animateCameraTo now (mkVec3 0 50 500) (mkVec3 0 0 0)
             default_duration s in
  let s := set_selected None s in
  let s := set_hovered None s in
  emit view_reset s.

End Picking.

Definition is_hovered (e : event) : bool :=
  match e with country_hovered _ _ => true | _ => false end.

Definition is_hover_end (e : event) : bool :=
  match e with country_hover_end _ => true | _ => false end.

Definition is_clicked (e : event) : bool :=
  match e with country_clicked _ => true | _ => false end.

Definition is_no_data (e : event) : bool :=
  match e with country_no_data _ _ => true | _ => false end.

Definition count (f : event -> bool) (s : globe) : nat :=
  List.length (List.filter f (emitted s)).

(** *** Arcs *)

Section Arcs.

(** [parseFloat] on a string, a built-in of the language. *)
Variable parseFloat_string : string -> jsnum.

(** [parseFloat(v)]: a number is printed and read back, which gives the
    number again; [undefined] prints as a word that is no number. *)
Definition parseFloat (v : jsval) : jsnum :=
  match v with
  | JNum n => n
  | JStr s => parseFloat_string s
  | JUndefined => NaN
  end.

(** The test [isValid] computed by the filter of [loadProjectArcs]. *)
Definition isValid (a : arc) : bool :=
  let startLat := parseFloat (startLat a) in
  let startLng := parseFloat (startLng a) in
  let endLat := parseFloat (endLat a) in
  let endLng := parseFloat (endLng a) in
  negb (isNaN startLat) && negb (isNaN startLng) &&
  negb (isNaN endLat) && negb (isNaN endLng) &&
  js_ge startLat (-90) && js_le startLat 90 &&
  js_ge endLat (-90) && js_le endLat 90 &&
  js_ge startLng (-180) && js_le startLng 180 &&
  js_ge endLng (-180) && js_le endLng 180.

(** The callback of [legacyProjects.filter]: its verdict, and the console
    after it. *)
Definition filter_arc (a : arc) (s : globe) : bool * globe :=
  if isValid a then (true, s) else (false, print (warn_invalid_arc a) s).

Fixpoint filter_arcs (l : list arc) (s : globe) : list arc * globe :=
  match l with
  | [] => ([], s)
  | a :: rest =>
      let '(keep, s) := filter_arc a s in
      let '(kept, s) := filter_arcs rest s in
      (if keep then a :: kept else kept, s)
  end.

(** [loadProjectArcs()], where [legacyProjects] is what
    [dataManager.getProjects()] returned. *)
Definition loadProjectArcs (legacyProjects : list arc) (s : globe) : globe :=
  match legacyProjects with
  | [] => print warn_no_projects s
  | _ =>
      let '(validArcs, s) := filter_arcs legacyProjects s in
      let s := print (log_setting_arcs (List.length validArcs)
                        (List.length legacyProjects)) s in
      set_arcs validArcs s
  end.

End Arcs.

(** The accessors given to the renderer with the arcs. *)
Definition arcColor (e : arc) : string :=
  if status e then "#00d4ff" else "#ff6b6b".

Definition arcStroke (e : arc) : Q :=
  if status e then 5 # 10 else 3 # 10.

Definition is_invalid_warning (d : diag) : bool :=
  match d with warn_invalid_arc _ => true | _ => false end.

(** *** Region colours *)

(** A [THREE.Color]. *)
Record rgb : Type := mkRgb { r : Q; g : Q; b : Q }.

(** [Color.lerp(color, alpha)]. *)
Definition lerp (c color : rgb) (alpha : Q) : rgb :=
  {| r := r c + (r color - r c) * alpha;
     g := g c + (g color - g c) * alpha;
     b := b c + (b color - b c) * alpha |}.

(** What the colour accessor returns: a style string, or a colour
    object. *)
Inductive colour : Type :=
| css (s : string)
| three (c : rgb).

(** An entry of [countryDataMap]. *)
Record countryData : Type := mkCountryData {
  projectCount : Q;
  totalEngagements : Q
}.

Section Colours.

(** [ZYETA_COLORS.GOLD] and [ZYETA_COLORS.PRIMARY_BLUE] of the constants
    module, and the constructor [new THREE.Color(style)]. *)
Variable GOLD PRIMARY_BLUE : string.
Variable Color : string -> rgb.

(** [this.colors]. *)
Definition india : string := GOLD.
Definition zyetaBlue : string := PRIMARY_BLUE.
Definition defaultCountry : string := "rgba(255, 255, 255, 0.5)".

(** [interpolateColor(color1, color2, factor)]. *)
Definition interpolateColor (color1 color2 : string) (factor : Q) : rgb :=
  lerp (Color color1) (Color color2) factor.

(** The interpolation factor of a region with [projectCount] projects. *)
Definition intensity (projectCount : Q) : Q := Qmin (projectCount / 10) 1.

(** [getEnhancedCountryColor(country)], where [isoCode] is the country's
    [properties.ISO_A3] and [countryDataMap] may still be [undefined]. *)
Definition getEnhancedCountryColor
  (countryDataMap : option (gmap string countryData)) (isoCode : string)
  : colour :=
  let countryData :=
    match countryDataMap with
    | Some m => m !! isoCode
    | None => None
    end in
  if String.eqb isoCode "IND" then css india
  else
    match countryData with
    | Some cd =>
        three (interpolateColor defaultCountry zyetaBlue
                 (intensity (projectCount cd)))
    | None => css defaultCountry
    end.

End Colours.

(** *** Altitudes and strokes *)

(** [getEnhancedCountryAltitude(country)]. *)
Definition getEnhancedCountryAltitude
  (countryDataMap : option (gmap string countryData)) (isoCode : string)
  : Q :=
  let countryData :=
    match countryDataMap with
    | Some m => m !! isoCode
    | None => None
    end in
  if String.eqb isoCode "IND" then 25 # 1000
  else
    match countryData with
    | Some cd => (1 # 100) + totalEngagements cd * (2 # 1000)
    | None => 5 # 1000
    end.

(** [Math.max(lo, Math.min(hi, n))]. *)
Definition js_clamp (lo hi : Q) (n : jsnum) : jsnum :=
  match n with
  | NaN => NaN
  | PosInf => Fin (Qmax lo hi)
  | NegInf => Fin lo
  | Fin q => Fin (Qmax lo (Qmin hi q))
  end.

(** An arc as the styling accessors read it. *)
Record styled_arc : Type := mkStyledArc {
  sa_color : option string;
  sa_arcAlt : jsval;
  category : option string;
  thickness : jsval
}.

Section ArcStyle.

Variable parseFloat_string : string -> jsnum.

(** [config.arcAltitude] and [colors.arcActive] of the constants
    module. *)
Variable config_arcAltitude : Q.
Variable arcActive : string.

(** [getEnhancedArcColor(arc)]. *)
Definition getEnhancedArcColor (a : styled_arc) : string :=
  match sa_color a with
  | Some c => if truthy c then c else arcActive
  | None => arcActive
  end.

Definition category_is (a : styled_arc) (name : string) : bool :=
  match category a with
  | Some c => String.eqb c name
  | None => false
  end.

(** [getEnhancedArcAltitude(arc)]. *)
Definition getEnhancedArcAltitude (a : styled_arc) : jsnum :=
  let altitude : jsnum :=
    match sa_arcAlt a with
    | JUndefined =>
        if category_is a "office-connection" then Fin (4 # 10)
        else if category_is a "project" then Fin (3 # 10)
        else if category_is a "talk" then Fin (25 # 100)
        else if category_is a "contact" then Fin (2 # 10)
        else Fin config_arcAltitude
    | v => parseFloat parseFloat_string v
    end in
  if isNaN altitude then Fin config_arcAltitude
  else js_clamp (1 # 10) 1 altitude.

(** [x || 1] on a number: [NaN] and zero are falsy. *)
Definition or_one (n : jsnum) : jsnum :=
  match n with
  | NaN => Fin 1
  | Fin q => if Qeq_bool q 0 then Fin 1 else Fin q
  | _ => n
  end.

(** [getEnhancedArcStroke(arc)]. *)
Definition getEnhancedArcStroke (a : styled_arc) : jsnum :=
  let stroke := or_one (parseFloat parseFloat_string (thickness a)) in
  if isNaN stroke then Fin 1 else js_clamp (1 # 10) 3 stroke.

End ArcStyle.

(** *** Country centres *)

(** [geometry.coordinates]: a position [[lng, lat]], or an array of such
    trees. *)
#[warnings="-register-all"]
Inductive coords : Type :=
| Position (lng lat : Q)
| Nested (l : list coords).

(** The running [bounds]; [None] stands for a [NaN] field. *)
Record extent : Type := mkExtent {
  north : option Q; south : option Q; east : option Q; west : option Q
}.

(** [Math.max] and [Math.min], which give [NaN] as soon as an argument is
    [NaN]. *)
Definition Math_max (a b : option Q) : option Q :=
  match a, b with
  | Some x, Some y => Some (Qmax x y)
  | _, _ => None
  end.

Definition Math_min (a b : option Q) : option Q :=
  match a, b with
  | Some x, Some y => Some (Qmin x y)
  | _, _ => None
  end.

(** [updateBounds(coord)] with [[lng, lat] = coord]. *)
Definition updateBounds (lng lat : option Q) (b : extent) : extent :=
  {| north := Math_max (north b) lat;
     south := Math_min (south b) lat;
     east := Math_max (east b) lng;
     west := Math_min (west b) lng |}.

(** [processCoordinates(coords)]: an array whose first element is an
    array is walked; anything else, the empty array included, is taken for
    a position. *)
Fixpoint processCoordinates (c : coords) (b : extent) : extent :=
  match c with
  | Position lng lat => updateBounds (Some lng) (Some lat) b
  | Nested [] => updateBounds None None b
  | Nested l =>
      (fix each (l : list coords) (b : extent) : extent :=
         match l with
         | [] => b
         | c :: rest => each rest (processCoordinates c b)
         end) l b
  end.

Definition mean (a b : option Q) : option Q :=
  match a, b with
  | Some x, Some y => Some ((x + y) / 2)
  | _, _ => None
  end.

(** [getCountryCenter(country)], where [coordinates] is
    [country.geometry?.coordinates]: the latitude and the longitude of the
    centre, each [None] when it is [NaN]. *)
Definition getCountryCenter (coordinates : option coords)
  : option (option Q * option Q) :=
  match coordinates with
  | None => None
  | Some c =>
      let bounds :=
        processCoordinates c
          (mkExtent (Some (-90)) (Some 90) (Some (-180)) (Some 180)) in
      Some (mean (north bounds) (south bounds),
            mean (east bounds) (west bounds))
  end.

(** The positions of a tree of coordinates, in the order of the walk. *)
Fixpoint positions (c : coords) : list (Q * Q) :=
  match c with
  | Position lng lat => [(lng, lat)]
  | Nested l => flat_map positions l
  end.

(** No array of the tree is empty. *)
Fixpoint no_empty_array (c : coords) : bool :=
  match c with
  | Position _ _ => true
  | Nested [] => false
  | Nested l => forallb no_empty_array l
  end.

End Globe.

(** ** utils/SearchUtils.js *)

Module SearchUtils.

(** [String.prototype.includes]. *)
Fixpoint includes (s t : string) : bool :=
  String.prefix t s ||
  match s with
  | EmptyString => false
  | String _ s' => includes s' t
  end.

(** A property of a searched object, as far as [typeof] tells. *)
Inductive field : Type :=
| FString (v : string)
| FOther.

Definition searchableFields : list string :=
  ["name"; "title"; "description"; "client"; "location"; "country"].

Section Search.

(** [normalizeText(text)]: lower case, trimmed, runs of white space
    collapsed, all by built-ins of the language. *)
Variable normalizeText : string -> string.

(** [SIZES.MIN_QUERY_LENGTH] of the constants module. *)
Variable MIN_QUERY_LENGTH : nat.

(** [searchInObject(obj, query)]. *)
Definition searchInObject (obj : gmap string field) (query : string)
  : bool :=
  let normalizedQuery := normalizeText query in
  existsb
    (fun name =>
       match obj !! name with
       | Some (FString value) => includes (normalizeText value) normalizedQuery
       | _ => false
       end)
    searchableFields.

(** [filterResults(items, query, limit)], for a [limit] that is a count
    (its default is [SIZES.MAX_SEARCH_RESULTS]). *)
Definition filterResults (items : list (gmap string field))
  (query : string) (limit : nat) : list (gmap string field) :=
  if String.eqb query "" || (String.length query <? MIN_QUERY_LENGTH)%nat
  then []
  else firstn limit (List.filter (fun item => searchInObject item query) items).

End Search.

End SearchUtils.

(* ===================================================================== *)
(** * Part II: the vocabulary of the properties *)
(* ===================================================================== *)

(** ** Picking *)

Section PickingVocabulary.
Import DataManager Globe.

(** Every object the globe holds was allocated before the next one. *)
Definition hovered_allocated (s : globe) : Prop :=
  forall o, hoveredCountry s = Some o -> (addr o < next_addr s)%nat.

End PickingVocabulary.

(** ** Arcs *)

Section ArcVocabulary.
Import Globe.
Local Open Scope Q_scope.





(** [parseFloat] on a string. *)
Variable parseFloat_string : string -> jsnum.



Definition arc_of (lat1 lng1 lat2 lng2 : Q) : arc :=
  mkArc (JNum (Fin lat1)) (JNum (Fin lng1)) (JNum (Fin lat2))
    (JNum (Fin lng2)) true (3 # 10) 1.


End ArcVocabulary.

(** ** Region colours *)

Section ColourVocabulary.
Import Globe.
Local Open Scope Q_scope.

(** Two colours with the same three channels. *)
Definition same_rgb (c d : rgb) : Prop :=
  r c == r d /\ g c == g d /\ b c == b d.

(** Between two weights [w1 <= w2] a channel moves from its value [x] to
    its value [y] in the direction of the highlight channel [hi], seen from
    the neutral channel [lo], and does not pass it. *)
Definition moves_toward (lo hi x y : Q) : Prop :=
  (lo <= hi -> x <= y /\ y <= hi) /\ (hi <= lo -> hi <= y /\ y <= x).

(** The highlight style and the colour constructor. *)
Variable PRIMARY_BLUE : string.
Variable Color : string -> rgb.

(** The colour of a region with data and [w] projects. *)
Definition weight_rgb (w : Q) : rgb :=
  interpolateColor Color defaultCountry (zyetaBlue PRIMARY_BLUE) (intensity w).

(** A colour constructor that knows the highlight, and takes every other
    style for white. *)
Definition sample_Color (style : string) : rgb :=
  if String.eqb style "#00d4ff" then mkRgb 0 (212 # 255) 1 else mkRgb 1 1 1.

End ColourVocabulary.

(** ** Camera animation *)

Section CameraVocabulary.
Import Globe.
Local Open Scope Q_scope.

(** Two points with the same three coordinates. *)
Definition same_vec3 (u v : vec3) : Prop :=
  vx u == vx v /\ vy u == vy v /\ vz u == vz v.

Definition progress (tw : tween) (t : Q) : Q :=
  Qmin ((t - startTime tw) / duration tw) 1.

Definition eased (tw : tween) (t : Q) : Q :=
  1 - (1 - progress tw t) * (1 - progress tw t) * (1 - progress tw t).

(** The pose a tween writes at time [t]. *)
Definition pose (tw : tween) (t : Q) : camera_t :=
  mkCamera (lerpVectors (startPosition tw) (targetPosition tw) (eased tw t))
    (targetLookAt tw).

(** The tween ends in the frame at time [t]. *)
Definition done_at (t : Q) (tw : tween) : bool :=
  negb (Qltb (progress tw t) 1).

(** The tween ends in one of the frames at times [ts]. *)
Definition finished (ts : list Q) (tw : tween) : bool :=
  existsb (fun t => done_at t tw) ts.

Definition target_A : vec3 := mkVec3 300 0 0.
Definition target_B : vec3 := mkVec3 0 300 0.
Definition origin : vec3 := mkVec3 0 0 0.

(** A request for A at 0 ms, a frame at 16 ms, a request for B at 500 ms,
    frames at 1000, 2500 and 2516 ms, all with the duration 2000 ms. *)
Definition two_requests : globe :=
  frames ([1000] ++ 2500 :: [2516])
    (animateCameraTo 500 target_B origin default_duration
       (frames [16]
          (animateCameraTo 0 target_A origin default_duration
             Globe.initial))).

End CameraVocabulary.

(** ** The frame loop *)

Section SceneVocabulary.
Import Scene.
Local Open Scope Q_scope.

(** Started at 0 ms, with frames at 1000 and 2000 ms. *)
Definition two_seconds_in : state := frames [1000; 2000] (start 0 initial).

(** Paused, with frames at 3000 and 4000 ms, resumed at 5000 ms, and the
    next frame at 5016 ms. *)
Definition after_resume : state :=
  frame 5016 (resume 5000 (frames [3000; 4000] (pause two_seconds_in))).

End SceneVocabulary.

(** ** Gestures and the idle timer *)

Section ControlsVocabulary.
Import Controls.
Local Open Scope Q_scope.

(** No move of the pointer took it more than 5 px from where the move
    before it (or the press) had left it. *)
Fixpoint steps_small (last : vec2) (moves : list vec2) : bool :=
  match moves with
  | [] => true
  | p :: rest =>
      negb (length_gt (mkVec2 (x p - x last) (y p - y last)) 5)
      && steps_small p rest
  end.

(** The rule of the specification, in its words: a click when the
    cumulative movement is below 5 px and the elapsed time below 200 ms. *)
Definition spec_is_click (movement elapsed : Q) : bool :=
  Qltb movement 5 && Qltb elapsed 200.

(** The length of a path whose moves are all along the x axis. *)
Fixpoint horizontal_path_length (last : vec2) (moves : list vec2) : Q :=
  match moves with
  | [] => 0
  | p :: rest => Qabs (x p - x last) + horizontal_path_length p rest
  end.

(** At most one timeout is pending, and it is the one whose handle the
    controls remember. *)
Definition one_pending (c : controls) : Prop :=
  timers c = [] \/
  exists h due, timers c = [(h, due)] /\ autoRotateTimeout (state c) = Some h.

(** An interaction from 0 to 100 ms has scheduled the timer once already;
    it is scheduled again at 200 ms; the pointer moves at 250 ms, the host
    runs its timers at 300 ms, an interaction starts at 400 ms, and the host
    runs its timers again at 5000 ms. *)
Definition busy_history : list (Q * action) :=
  [(0, OrbitStart); (100, OrbitEnd)].

Definition busy_between : list (Q * action) :=
  [(250, MouseMove (mkVec2 1 1)); (300, TimersRun)].

End ControlsVocabulary.

(** ** The vocabulary of the further properties *)

Section EmitterVocabulary.
Import EventEmitter.

(** An array of listeners in descending priority. *)
Definition descending (l : list listener) : Prop :=
  StronglySorted (fun a b => (priority b <= priority a)%Z) l.

(** Every array of the map is in descending priority. *)
Definition all_descending (events : events_t) : Prop :=
  forall e l, events !! e = Some l -> descending l.

(** Handler 1 for every call, handler 2 for one call only, handler 3 at
    priority 5. *)
Definition three_handlers : events_t :=
  on "e" 3%nat (mkOptions None (Some 5%Z))
    (once_ "e" 2%nat no_options (on "e" 1%nat no_options ∅)).

End EmitterVocabulary.

Section NotesVocabulary.
Import DataManager.
Local Open Scope Q_scope.


(** No call of the series is about [key]. *)
Definition untouched (key : string)
  (calls : list (Q * (string * string) * string * note)) : Prop :=
  Forall (fun c => snd (fst c) <> key) calls.

(** Two notes written a little apart. *)
Definition two_calls : list (Q * (string * string) * string * note) :=
  [(100, ("2024-01-02", "2024-01-02"), "b", mkNote None "second");
   (600, ("2024-01-03", "2024-01-03"), "a",
    mkNote (Some "country") "first, again")].

End NotesVocabulary.

Section SceneMoreVocabulary.
Import Scene.
Local Open Scope Q_scope.

(** A running clock has counted the time from its start to its last
    reading. *)
Definition clock_consistent (c : Clock) : Prop :=
  running c = true -> elapsedTime c == (oldTime c - startTime c) / 1000.

End SceneMoreVocabulary.

Section ControlsMoreVocabulary.
Import Controls.
Local Open Scope Q_scope.

(** The payload of the latest event when it is a [controls:mouse-up]. *)
Definition last_wasClick (c : controls) : option bool :=
  match List.last (emitted c) mouse_down with
  | mouse_up w => Some w
  | _ => None
  end.

End ControlsMoreVocabulary.

Section GlobeMoreVocabulary.
Import DataManager Globe.
Local Open Scope Q_scope.

(** [updateBounds] over a list of positions. *)
Definition update_all (ps : list (Q * Q)) (b : extent) : extent :=
  fold_left (fun b p => updateBounds (Some (fst p)) (Some (snd p)) b) ps b.

(** A ring of three positions inside one polygon. *)
Definition triangle : coords :=
  Nested [Nested [Position 100 0; Position 104 6; Position 102 2]].

(** A country feature of the polygon layer. *)
Definition feature (iso : string) : obj :=
  mkObj 0 (mkEngagementData None (Some (Some iso)) "feature").

End GlobeMoreVocabulary.

(* ===================================================================== *)
(** * Part III: properties *)
(* ===================================================================== *)

Section EventEmitterFacts.
Import EventEmitter.

Lemma emit_loop_calls copy n live calls :
  (n <= List.length copy)%nat ->
  snd (emit_loop copy n live calls)
  = calls ++ rev (map callback (firstn n copy)).
Proof.
  revert live calls. induction n as [|i IH]; intros live calls Hn.
  - simpl. now rewrite app_nil_r.
  - simpl. destruct (nth_error copy i) as [l|] eqn:Hi.
    + rewrite IH by lia.
      assert (Hf : firstn (S i) copy = firstn i copy ++ [l]).
      { clear - Hi. revert copy Hi. induction i as [|i IHi]; intros [|c copy] Hi;
          simpl in *; try discriminate.
        - now inversion Hi.
        - f_equal. now apply IHi. }
      rewrite Hf, map_app, rev_app_distr. simpl. now rewrite <- app_assoc.
    + apply nth_error_None in Hi. lia.
Qed.

Lemma sort_insert_sorted x l :
  StronglySorted (fun a b => (priority b <= priority a)%Z) l ->
  StronglySorted (fun a b => (priority b <= priority a)%Z) (sort_insert x l).
Proof.
  induction 1 as [|y l Hl IH Hy]; simpl.
  - repeat constructor.
  - destruct (priority y - priority x >? 0)%Z eqn:E.
    + constructor; [exact IH|].
      assert (Hin : forall z, In z (sort_insert x l) -> z = x \/ In z l).
      { clear. induction l as [|w l IHl]; simpl; intros z Hz.
        - destruct Hz as [->|[]]. now left.
        - destruct (priority w - priority x >? 0)%Z.
          + destruct Hz as [->|Hz]; [right; now left|].
            destruct (IHl _ Hz); [now left | right; now right].
          + destruct Hz as [->|Hz]; [now left | right; exact Hz]. }
      apply List.Forall_forall. intros z Hz.
      destruct (Hin _ Hz) as [->|Hz'].
      * apply Z.gtb_lt in E. lia.
      * rewrite List.Forall_forall in Hy. now apply Hy.
    + constructor; [now constructor|].
      assert (priority y <= priority x)%Z.
      { destruct (Z.gtb_spec (priority y - priority x) 0); [discriminate | lia]. }
      constructor; [assumption|].
      eapply List.Forall_impl; [|exact Hy]. simpl. intros; lia.
Qed.

Lemma sort_by_priority_sorted l :
  StronglySorted (fun a b => (priority b <= priority a)%Z)
    (sort_by_priority l).
Proof.
  induction l as [|x l IH]; simpl; [constructor | now apply sort_insert_sorted].
Qed.

(** Among listeners of one priority the sort keeps the order of the array:
    a listener pushed last stays behind every listener that is not of a
    lower priority. *)
Lemma sort_insert_head x l :
  Forall (fun y => (priority y <= priority x)%Z) l ->
  sort_insert x l = x :: l.
Proof.
  destruct l as [|y l]; simpl; [reflexivity|].
  intros H. inversion H as [|? ? Hy _]; subst.
  destruct (Z.gtb_spec (priority y - priority x) 0); [lia | reflexivity].
Qed.

Lemma on_lookup event cb o (events : events_t) :
  on event cb o events !! event
  = Some (sort_by_priority
            (default [] (events !! event)
             ++ [mkListener cb (default false (opt_once o))
                   (default 0%Z (opt_priority o))])).
Proof.
  unfold on. cbv zeta. rewrite lookup_insert_eq.
  destruct (events !! event) as [ls|] eqn:E.
  - now rewrite E.
  - now rewrite lookup_insert_eq.
Qed.

(** [emit] walks the array from its last listener to its first. *)
Lemma emit_calls_reversed event (events : events_t) ls :
  events !! event = Some ls ->
  snd (emit event events) = rev (map callback ls).
Proof.
  intros E. unfold emit. rewrite E.
  pose proof (emit_loop_calls ls (List.length ls) ls [] (Nat.le_refl _)) as H.
  destruct (emit_loop ls (List.length ls) ls []) as [live calls].
  simpl in *. now rewrite H, firstn_all.
Qed.

(** The array [on] leaves is in descending priority, so the order in which
    [emit] calls is ascending. *)
Lemma emit_after_on_ascending event cb o (events : events_t) :
  exists ls,
    on event cb o events !! event = Some ls /\
    StronglySorted (fun a b => (priority b <= priority a)%Z) ls /\
    snd (emit event (on event cb o events)) = rev (map callback ls).
Proof.
  eexists. split; [apply on_lookup|]. split.
  - apply sort_by_priority_sorted.
  - apply emit_calls_reversed, on_lookup.
Qed.

(** C2, on the code: with handler 1 subscribed at priority 1 and then
    handler 2 at priority 2, the array holds them in descending priority,
    yet publishing calls handler 1 first and handler 2 second; and of three
    handlers subscribed at the same priority, the one registered last is
    called first. *)
Theorem emit_calls_lowest_priority_and_latest_first :
  let prio p := mkOptions None (Some p) in
  let two := on "e" 2%nat (prio 2%Z) (on "e" 1%nat (prio 1%Z) ∅) in
  let three := on "e" 3%nat no_options
                 (on "e" 2%nat no_options (on "e" 1%nat no_options ∅)) in
  map callback (default [] (two !! "e")) = [2%nat; 1%nat] /\
  snd (emit "e" two) = [1%nat; 2%nat] /\
  map callback (default [] (three !! "e")) = [1%nat; 2%nat; 3%nat] /\
  snd (emit "e" three) = [3%nat; 2%nat; 1%nat].
Proof. vm_compute. repeat split; reflexivity. Qed.

End EventEmitterFacts.

Section NumberFacts.

Lemma Qleb_le x y : Qleb x y = true <-> (x <= y)%Q.
Proof. apply Qle_bool_iff. Qed.

Lemma Qltb_lt x y : Qltb x y = true <-> (x < y)%Q.
Proof.
  unfold Qltb. rewrite negb_true_iff. split.
  - intros H. apply Qnot_le_lt. intros Hle.
    apply Qle_bool_iff in Hle. congruence.
  - intros H. destruct (Qle_bool y x) eqn:E; [|reflexivity].
    apply Qle_bool_iff in E. exfalso. lra.
Qed.

Lemma Qltb_ge x y : Qltb x y = false <-> (y <= x)%Q.
Proof.
  unfold Qltb. rewrite negb_false_iff. apply Qle_bool_iff.
Qed.

End NumberFacts.

Section DataManagerFacts.
Import DataManager.

Lemma lookup_boxes_skip pre rest engagements lat lng :
  Forall (fun cb => inside lat lng (snd cb) = false) pre ->
  lookup_boxes (pre ++ rest) engagements lat lng
  = lookup_boxes rest engagements lat lng.
Proof.
  induction 1 as [|[c b] pre Hb _ IH]; simpl; [reflexivity|].
  simpl in Hb. now rewrite Hb.
Qed.

(** The first box that holds the point decides, whatever comes after it. *)
Lemma lookup_boxes_first_box_without_record
  pre country b post (table : gmap string record) lat lng :
  Forall (fun cb => inside lat lng (snd cb) = false) pre ->
  inside lat lng b = true ->
  table !! country = None ->
  lookup_boxes (pre ++ (country, b) :: post) (Some table) lat lng
  = Returns None.
Proof.
  intros Hpre Hb Hnone. rewrite lookup_boxes_skip by exact Hpre.
  simpl. now rewrite Hb, Hnone.
Qed.

(** C10: the tolerance has no effect on the result of
    [getEngagementByCoords], which depends on the latitude and longitude
    (and the table) alone; and when the first box of [countryBounds] that
    holds the point belongs to a country without an entry, the result is
    [null], whatever boxes and entries come after it. *)
Theorem getEngagementByCoords_tolerance_unused_first_box_decides :
  (forall engagements lat lng t1 t2,
      getEngagementByCoords engagements lat lng t1
      = getEngagementByCoords engagements lat lng t2) /\
  (forall (table : gmap string record) lat lng t pre country b post,
      countryBounds = pre ++ (country, b) :: post ->
      Forall (fun cb => inside lat lng (snd cb) = false) pre ->
      inside lat lng b = true ->
      table !! country = None ->
      getEngagementByCoords (Some table) lat lng t = Returns None).
Proof.
  split.
  - reflexivity.
  - intros table lat lng t pre country b post Hsplit Hpre Hb Hnone.
    unfold getEngagementByCoords. rewrite Hsplit.
    now apply lookup_boxes_first_box_without_record.
Qed.

(** At latitude 10, longitude 97 the boxes of India and Thailand both hold
    the point; with an entry for Thailand only, the answer is [null]. *)
Lemma getEngagementByCoords_first_box_witness :
  getEngagementByCoords
    (Some {[ "THA" := mkRecord None None "thailand" ]}) 10 97 5
  = Returns None.
Proof.
  apply (proj2 getEngagementByCoords_tolerance_unused_first_box_decides
           {[ "THA" := mkRecord None None "thailand" ]} 10%Q 97%Q 5%Q
           [] "IND" (mkBounds 6 37 68 97) (tl countryBounds)).
  - reflexivity.
  - constructor.
  - reflexivity.
  - reflexivity.
Defined.

Example thailand_box_holds_the_point :
  inside 10 97 (mkBounds (55 # 10) 21 97 106) = true /\
  ({[ "THA" := mkRecord None None "thailand" ]} : gmap string record)
    !! "THA" = Some (mkRecord None None "thailand").
Proof. split; reflexivity. Qed.

End DataManagerFacts.

Section GlobePickingFacts.
Import DataManager Globe.

Lemma count_emit f e s :
  count f (emit e s) = (count f s + (if f e then 1 else 0))%nat.
Proof.
  unfold count, emit. simpl. rewrite List.filter_app, List.length_app. simpl.
  destruct (f e); reflexivity.
Qed.

(** The object literal built by the lookup is new at each call, so it is
    never the object remembered as hovered. *)
Lemma not_same_fresh d s :
  hovered_allocated s ->
  not_same (mkObj (next_addr s) d) (hoveredCountry s) = true.
Proof.
  intros H. unfold not_same. destruct (hoveredCountry s) as [o|] eqn:E;
    [|reflexivity].
  specialize (H o E). simpl.
  apply negb_true_iff, Nat.eqb_neq. lia.
Qed.

Lemma on_mousemove_over_region engagements lat lng d code s :
  getEngagementByCoords engagements lat lng default_tolerance
    = Returns (Some d) ->
  properties d = None ->
  countryCode d = Some code ->
  truthy code = true ->
  hovered_allocated s ->
  let s' := on_mousemove engagements (on_globe (Some (lat, lng))) s in
  emitted s' = emitted s ++ [country_hovered (mkObj (next_addr s) d) code]
  /\ hovered_allocated s'.
Proof.
  intros Hlk Hp Hc Ht Hinv. simpl. rewrite Hlk. simpl.
  rewrite (not_same_fresh d s Hinv). simpl.
  rewrite Hp, Hc, Ht. simpl. split; [reflexivity|].
  intros o Ho. simpl in Ho. inversion Ho; subst. simpl. lia.
Qed.

(** Held over one region for [n] moves of the pointer, the globe emits
    [country:hovered] [n] times. *)
Lemma hovered_once_per_move engagements lat lng d code n : forall s,
  getEngagementByCoords engagements lat lng default_tolerance
    = Returns (Some d) ->
  properties d = None ->
  countryCode d = Some code ->
  truthy code = true ->
  hovered_allocated s ->
  count is_hovered
    (Nat.iter n (on_mousemove engagements (on_globe (Some (lat, lng)))) s)
  = (count is_hovered s + n)%nat.
Proof.
  induction n as [|n IH]; intros s Hlk Hp Hc Ht Hinv.
  - simpl. lia.
  - rewrite Nat.iter_succ_r.
    destruct (on_mousemove_over_region engagements lat lng d code s
                Hlk Hp Hc Ht Hinv) as [He Hinv'].
    rewrite IH by assumption.
    unfold count at 1. rewrite He.
    rewrite List.filter_app, List.length_app. simpl. unfold count. lia.
Qed.

(** Leaving the globe emits [country:hover-end] once; further moves off
    the globe emit nothing. *)
Lemma hover_end_once engagements s o n :
  hoveredCountry s = Some o ->
  let s1 := on_mousemove engagements off_globe s in
  emitted s1 = emitted s ++ [country_hover_end (Some o)] /\
  Nat.iter n (on_mousemove engagements off_globe) s1 = s1.
Proof.
  intros Ho. simpl. rewrite Ho. simpl. split; [reflexivity|].
  induction n as [|n IH]; [reflexivity|].
  simpl. rewrite IH. reflexivity.
Qed.

(** C3, on the code: with an entry for India in the table, two moves of
    the pointer in a row over latitude 20, longitude 78 emit
    [country:hovered] twice, once for each move. *)
Theorem hover_over_one_region_emits_at_each_move :
  let engagements := Some {[ "IND" := mkRecord None None "india" ]} in
  let d := mkEngagementData (Some "IND") None "india" in
  let move := on_mousemove engagements (on_globe (Some (20, 78)%Q)) in
  emitted (move (move Globe.initial))
  = [country_hovered (mkObj 0 d) "IND"; country_hovered (mkObj 1 d) "IND"]
  /\ count is_hovered (move (move Globe.initial)) = 2%nat.
Proof. vm_compute. split; reflexivity. Qed.

(** The coordinate click path never reports a region without data. *)
Lemma handleGlobeClick_never_no_data engagements coords s s' :
  handleGlobeClick engagements coords s = Returns s' ->
  count is_no_data s' = count is_no_data s.
Proof.
  unfold handleGlobeClick. destruct coords as [[lat lng]|].
  - destruct (getEngagementByCoords engagements lat lng default_tolerance)
      as [[d|]|]; intros H; inversion H; subst; clear H.
    + rewrite count_emit. simpl. unfold count. simpl. lia.
    + rewrite count_emit. simpl. lia.
  - intros H; inversion H; subst. reflexivity.
Qed.

(** The region click path does report it. *)
Lemma handleCountryClick_no_data engagements getCoords now c iso s :
  properties (data c) = Some iso ->
  getEngagements engagements (default "undefined" iso) = None ->
  handleCountryClick engagements getCoords now (Some c) s
  = Returns (emit (country_no_data c iso) (set_selected (Some c) s)).
Proof.
  intros Hp He. unfold handleCountryClick. now rewrite Hp, He.
Qed.

(** C8, on the code: a click at latitude 20, longitude 78, inside the box
    of India, with no entry for India in the table, emits [globe:clicked]
    and nothing else: neither [country:no-data] nor [country:clicked]. *)
Theorem click_on_region_without_record_emits_globe_clicked :
  let engagements := Some {[ "SGP" := mkRecord None None "singapore" ]} in
  let s := on_click engagements (on_globe (Some (20, 78)%Q)) Globe.initial in
  lookup_boxes [("IND", mkBounds 6 37 68 97)] engagements 20 78
    = Returns None /\
  emitted s = [globe_clicked (20, 78)%Q] /\
  count is_no_data s = 0%nat /\ count is_clicked s = 0%nat.
Proof. vm_compute. repeat split; reflexivity. Qed.

End GlobePickingFacts.

Section GlobeArcFacts.
Import Globe.
Local Open Scope Q_scope.

Variable parseFloat_string : string -> jsnum.






Lemma filter_arcs_spec l : forall s,
  fst (filter_arcs parseFloat_string l s)
    = List.filter (isValid parseFloat_string) l /\
  snd (filter_arcs parseFloat_string l s)
    = mkGlobe (camera s) (hoveredCountry s) (selectedCountry s) (raf s)
        (arcsData s)
        (console s ++
           map warn_invalid_arc
             (List.filter (fun a => negb (isValid parseFloat_string a)) l))
        (next_addr s) (emitted s).
Proof.
  induction l as [|a l IH]; intros s.
  - simpl. rewrite app_nil_r. destruct s; split; reflexivity.
  - simpl. unfold filter_arc. destruct (isValid parseFloat_string a) eqn:E.
    + specialize (IH s). destruct (filter_arcs parseFloat_string l s).
      simpl in *. destruct IH as [-> ->]. split; reflexivity.
    + specialize (IH (print (warn_invalid_arc a) s)).
      destruct (filter_arcs parseFloat_string l (print (warn_invalid_arc a) s)).
      simpl in *. destruct IH as [-> ->]. split; [reflexivity|].
      now rewrite <- app_assoc.
Qed.


End GlobeArcFacts.

Section GlobeArcExamples.
Import Globe.
Local Open Scope Q_scope.



End GlobeArcExamples.

Section GlobeColourFacts.
Import Globe.
Local Open Scope Q_scope.

Variable GOLD PRIMARY_BLUE : string.
Variable Color : string -> rgb.

Lemma intensity_zero : intensity 0 == 0.
Proof. reflexivity. Qed.

Lemma intensity_le_1 w : intensity w <= 1.
Proof. unfold intensity. apply Q.le_min_r. Qed.

Lemma intensity_saturates w : 10 <= w -> intensity w == 1.
Proof.
  intros H. unfold intensity. apply Q.min_r.
  apply Qle_shift_div_l; lra.
Qed.

Lemma intensity_monotone w1 w2 : w1 <= w2 -> intensity w1 <= intensity w2.
Proof.
  intros H. unfold intensity.
  apply Q.min_le_compat_r.
  unfold Qdiv. apply Qmult_le_compat_r; [exact H|]. discriminate.
Qed.

Lemma channel_moves lo hi t1 t2 :
  t1 <= t2 -> t2 <= 1 ->
  moves_toward lo hi (lo + (hi - lo) * t1) (lo + (hi - lo) * t2).
Proof.
  intros H12 H2. unfold moves_toward. split; intros H; split; nra.
Qed.

(** C7: the home region gets the accent colour whatever its data; any
    other region with data gets the colour interpolated at the factor
    [min(projectCount / 10, 1)], which is non-decreasing in the weight and
    at most 1; so weight 0 gives the neutral colour, every weight from the
    cap 10 on gives exactly the highlight colour, and from a weight to a
    greater one each channel moves toward the highlight channel without
    passing it. *)
Theorem region_colour_is_monotone_and_saturates :
  (forall m, getEnhancedCountryColor GOLD PRIMARY_BLUE Color m "IND"
             = css GOLD) /\
  (forall (m : gmap string countryData) iso cd,
      iso <> "IND" -> m !! iso = Some cd ->
      getEnhancedCountryColor GOLD PRIMARY_BLUE Color (Some m) iso
      = three (weight_rgb PRIMARY_BLUE Color (projectCount cd))) /\
  (forall w1 w2, w1 <= w2 ->
      intensity w1 <= intensity w2 /\ intensity w2 <= 1) /\
  same_rgb (weight_rgb PRIMARY_BLUE Color 0) (Color defaultCountry) /\
  (forall w, 10 <= w -> same_rgb (weight_rgb PRIMARY_BLUE Color w) (Color PRIMARY_BLUE)) /\
  (forall w1 w2, w1 <= w2 ->
      let lo := Color defaultCountry in
      let hi := Color PRIMARY_BLUE in
      moves_toward (r lo) (r hi) (r (weight_rgb PRIMARY_BLUE Color w1)) (r (weight_rgb PRIMARY_BLUE Color w2)) /\
      moves_toward (g lo) (g hi) (g (weight_rgb PRIMARY_BLUE Color w1)) (g (weight_rgb PRIMARY_BLUE Color w2)) /\
      moves_toward (b lo) (b hi) (b (weight_rgb PRIMARY_BLUE Color w1)) (b (weight_rgb PRIMARY_BLUE Color w2))).
Proof.
  repeat apply conj.
  - intros m. reflexivity.
  - intros m iso cd Hne Hm. unfold getEnhancedCountryColor.
    rewrite Hm. destruct (String.eqb_spec iso "IND"); [contradiction|].
    reflexivity.
  - intros w1 w2 H. split; [now apply intensity_monotone|].
    apply intensity_le_1.
  - unfold weight_rgb, interpolateColor, lerp. simpl.
    rewrite intensity_zero. ring.
  - unfold weight_rgb, interpolateColor, lerp. simpl.
    rewrite intensity_zero. ring.
  - unfold weight_rgb, interpolateColor, lerp. simpl.
    rewrite intensity_zero. ring.
  - intros w Hw. unfold same_rgb, weight_rgb, interpolateColor, lerp, zyetaBlue.
    simpl. rewrite (intensity_saturates w) by assumption.
    repeat split; ring.
  - intros w1 w2 H lo hi. unfold weight_rgb, interpolateColor, lerp, zyetaBlue.
    simpl.
    split; [|split];
      apply channel_moves;
      solve [now apply intensity_monotone | apply intensity_le_1].
Qed.

End GlobeColourFacts.

Section GlobeColourExamples.
Import Globe.
Local Open Scope Q_scope.

(** Twelve projects are past the cap of ten: the colour is the highlight. *)
Lemma region_colour_witness :
  same_rgb (weight_rgb "#00d4ff" sample_Color 12) (sample_Color "#00d4ff").
Proof.
  apply (proj1 (proj2 (proj2 (proj2 (proj2
           (region_colour_is_monotone_and_saturates
              "#ffd700" "#00d4ff" sample_Color)))))).
  discriminate.
Defined.

End GlobeColourExamples.

Section GlobeCameraFacts.
Import Globe.
Local Open Scope Q_scope.

Lemma done_at_iff tw t :
  0 < duration tw ->
  (done_at t tw = true <-> startTime tw + duration tw <= t).
Proof.
  intros Hd. unfold done_at. rewrite negb_true_iff, Qltb_ge. unfold progress.
  set (x := (t - startTime tw) / duration tw).
  assert (Hx : x * duration tw == t - startTime tw).
  { unfold x. field. intros H0. rewrite H0 in Hd. now apply Qlt_irrefl in Hd. }
  split.
  - intros H. assert (1 <= x) by (eapply Qle_trans; [exact H | apply Q.le_min_l]).
    nra.
  - intros H. apply Q.min_glb; [|lra].
    destruct (Qlt_le_dec x 1) as [Hlt|Hge]; [nra | exact Hge].
Qed.

Lemma done_progress tw t : done_at t tw = true -> progress tw t == 1.
Proof.
  unfold done_at. rewrite negb_true_iff, Qltb_ge. intros H.
  apply Qle_antisym; [|exact H]. unfold progress. apply Q.le_min_r.
Qed.

Lemma done_pose tw t :
  done_at t tw = true ->
  same_vec3 (position (pose tw t)) (targetPosition tw) /\
  lookingAt (pose tw t) = targetLookAt tw.
Proof.
  intros H. apply done_progress in H. split; [|reflexivity].
  unfold same_vec3, pose, eased, lerpVectors. simpl.
  rewrite H. repeat split; ring.
Qed.

Lemma animate_raf tw t s :
  raf (animate tw t s) = raf s ++ (if done_at t tw then [] else [tw]).
Proof.
  unfold animate, done_at, progress. cbv zeta.
  destruct (camera s); destruct (Qltb _ 1); simpl;
    now rewrite ?app_nil_r.
Qed.

Lemma animate_count tw t s :
  complete_count (animate tw t s)
  = (complete_count s + (if done_at t tw then 1 else 0))%nat.
Proof.
  unfold animate, done_at, progress, complete_count. cbv zeta.
  destruct (camera s); destruct (Qltb _ 1); simpl;
    rewrite ?List.filter_app, ?List.length_app; simpl; lia.
Qed.

Lemma animate_camera tw t s cam :
  camera s = Some cam -> camera (animate tw t s) = Some (pose tw t).
Proof.
  intros H. unfold animate, pose, eased, progress. cbv zeta. rewrite H.
  destruct (Qltb _ 1); reflexivity.
Qed.

Lemma callbacks_raf t q : forall s,
  raf (fold_left (fun s tw => animate tw t s) q s)
  = raf s ++ List.filter (fun tw => negb (done_at t tw)) q.
Proof.
  induction q as [|tw q IH]; intros s; simpl.
  - now rewrite app_nil_r.
  - rewrite IH, animate_raf. destruct (done_at t tw); simpl.
    + now rewrite app_nil_r.
    + now rewrite <- app_assoc.
Qed.

Lemma callbacks_count t q : forall s,
  complete_count (fold_left (fun s tw => animate tw t s) q s)
  = (complete_count s + List.length (List.filter (done_at t) q))%nat.
Proof.
  induction q as [|tw q IH]; intros s; simpl.
  - lia.
  - rewrite IH, animate_count. destruct (done_at t tw); simpl; lia.
Qed.

Lemma callbacks_camera t q : forall s cam,
  camera s = Some cam ->
  exists cam', camera (fold_left (fun s tw => animate tw t s) q s) = Some cam'.
Proof.
  induction q as [|tw q IH]; intros s cam H; simpl.
  - eauto.
  - eapply IH. now apply animate_camera with (cam := cam).
Qed.

Lemma frame_raf t s :
  raf (frame t s) = List.filter (fun tw => negb (done_at t tw)) (raf s).
Proof. unfold frame. now rewrite callbacks_raf. Qed.

Lemma frame_count t s :
  complete_count (frame t s)
  = (complete_count s + List.length (List.filter (done_at t) (raf s)))%nat.
Proof. unfold frame. now rewrite callbacks_count. Qed.

Lemma frame_camera t s cam :
  camera s = Some cam -> exists cam', camera (frame t s) = Some cam'.
Proof.
  intros H. unfold frame. now apply callbacks_camera with (cam := cam).
Qed.

(** The callback registered last writes the camera last. *)
Lemma frame_camera_last t s q tw cam :
  raf s = q ++ [tw] -> camera s = Some cam ->
  camera (frame t s) = Some (pose tw t).
Proof.
  intros Hq Hc. unfold frame. rewrite Hq, fold_left_app. simpl.
  destruct (callbacks_camera t q (set_raf [] s) cam Hc) as [cam' Hc'].
  now apply animate_camera with (cam := cam').
Qed.

Lemma frame_idle t s : raf s = [] -> frame t s = s.
Proof. intros H. unfold frame. rewrite H. destruct s; simpl in *; now subst. Qed.

Lemma frames_idle ts : forall s, raf s = [] -> frames ts s = s.
Proof.
  induction ts as [|t ts IH]; intros s H; simpl; [reflexivity|].
  rewrite frame_idle by exact H. now apply IH.
Qed.

Lemma frames_app ts1 ts2 : forall s,
  frames (ts1 ++ ts2) s = frames ts2 (frames ts1 s).
Proof. induction ts1 as [|t ts1 IH]; intros s; simpl; [reflexivity | apply IH]. Qed.

Lemma filter_twice {A} (f g : A -> bool) l :
  List.filter g (List.filter f l) = List.filter (fun x => f x && g x) l.
Proof.
  induction l as [|x l IH]; simpl; [reflexivity|].
  destruct (f x); simpl; [destruct (g x)|]; now rewrite IH.
Qed.

Lemma filter_either {A} (f g : A -> bool) l :
  List.length (List.filter (fun x => f x || g x) l)
  = (List.length (List.filter f l)
     + List.length (List.filter g (List.filter (fun x => negb (f x)) l)))%nat.
Proof.
  induction l as [|x l IH]; simpl; [reflexivity|].
  destruct (f x); simpl; [|destruct (g x); simpl]; rewrite IH; lia.
Qed.

Lemma frames_raf ts : forall s,
  raf (frames ts s) = List.filter (fun tw => negb (finished ts tw)) (raf s).
Proof.
  induction ts as [|t ts IH]; intros s; simpl.
  - induction (raf s) as [|x l IHl]; simpl; [reflexivity | now f_equal].
  - rewrite IH, frame_raf, filter_twice.
    apply List.filter_ext. intros tw. now rewrite negb_orb.
Qed.

Lemma frames_count ts : forall s,
  complete_count (frames ts s)
  = (complete_count s + List.length (List.filter (finished ts) (raf s)))%nat.
Proof.
  induction ts as [|t ts IH]; intros s; simpl.
  - induction (raf s) as [|x l IHl]; simpl; lia.
  - rewrite IH, frame_count, frame_raf.
    rewrite (filter_either (done_at t) (finished ts)). lia.
Qed.

Lemma frames_camera ts : forall s cam,
  camera s = Some cam -> exists cam', camera (frames ts s) = Some cam'.
Proof.
  induction ts as [|t ts IH]; intros s cam H; simpl; [eauto|].
  destruct (frame_camera t s cam H) as [cam' H']. now apply IH with (cam := cam').
Qed.

Lemma not_finished_before ts tw :
  0 < duration tw ->
  Forall (fun t => t < startTime tw + duration tw) ts ->
  finished ts tw = false.
Proof.
  intros Hd. induction 1 as [|t ts Ht _ IH]; simpl; [reflexivity|].
  rewrite IH, orb_false_r.
  destruct (done_at t tw) eqn:E; [|reflexivity].
  apply done_at_iff in E; [lra | exact Hd].
Qed.

End GlobeCameraFacts.

Section GlobeCameraPreemption.
Import Globe.
Local Open Scope Q_scope.

(** When the first frame at or past the end of B's tween is also past
    the end of A's, both tweens have ended by it and B's has the last
    word. *)
Lemma both_tweens_ended_by_one_frame
  (s0 : globe) (cam0 : camera_t)
  (tA : Q) (posA lookA : vec3) (dA : Q) (before : list Q)
  (tB : Q) (posB lookB : vec3) (dB : Q) (during : list Q) (tf : Q)
  (after : list Q) :
  raf s0 = [] -> camera s0 = Some cam0 ->
  0 < dA -> 0 < dB ->
  Forall (fun t => t < tA + dA) before ->
  Forall (fun t => t < tB + dB) during ->
  tA + dA <= tf -> tB + dB <= tf ->
  let s1 := animateCameraTo tA posA lookA dA s0 in
  let s2 := animateCameraTo tB posB lookB dB (frames before s1) in
  let s3 := frames (during ++ tf :: after) s2 in
  complete_count s3 = (complete_count s0 + 2)%nat /\
  raf s3 = [] /\
  exists cam, camera s3 = Some cam /\
              same_vec3 (position cam) posB /\ lookingAt cam = lookB.
Proof.
  intros Hidle Hcam HdA HdB Hbefore Hduring HendA HendB s1 s2 s3.
  set (A := mkTween (position cam0) posA lookA tA dA).
  assert (Hs1 : s1 = set_raf [A] s0).
  { unfold s1, animateCameraTo. rewrite Hcam, Hidle. reflexivity. }
  assert (HA_before : finished before A = false)
    by (apply not_finished_before; assumption).
  set (s1' := frames before s1).
  assert (Hraf1 : raf s1' = [A]).
  { unfold s1'. rewrite frames_raf, Hs1. simpl. now rewrite HA_before. }
  assert (Hcount1 : complete_count s1' = complete_count s0).
  { unfold s1'. rewrite frames_count, Hs1. simpl. rewrite HA_before. simpl.
    unfold complete_count. simpl. lia. }
  destruct (frames_camera before s1 cam0) as [cam1 Hcam1].
  { rewrite Hs1. exact Hcam. }
  fold s1' in Hcam1.
  set (B := mkTween (position cam1) posB lookB tB dB).
  assert (Hs2 : s2 = set_raf [A; B] s1').
  { unfold s2, animateCameraTo. fold s1'. rewrite Hcam1, Hraf1. reflexivity. }
  assert (HA_end : done_at tf A = true) by (apply done_at_iff; assumption).
  assert (HB_end : done_at tf B = true) by (apply done_at_iff; assumption).
  assert (HB_during : finished during B = false)
    by (apply not_finished_before; assumption).
  assert (HfinA : finished (during ++ tf :: after) A = true).
  { unfold finished. rewrite existsb_app. simpl. rewrite HA_end.
    now rewrite orb_true_r. }
  assert (HfinB : finished (during ++ tf :: after) B = true).
  { unfold finished. rewrite existsb_app. simpl. rewrite HB_end.
    now rewrite orb_true_r. }
  split; [|split].
  - unfold s3. rewrite frames_count, Hs2. simpl. rewrite HfinA, HfinB. simpl.
    change (complete_count (set_raf [A; B] s1')) with (complete_count s1').
    lia.
  - unfold s3. rewrite frames_raf, Hs2. simpl. now rewrite HfinA, HfinB.
  - unfold s3. rewrite frames_app. simpl.
    set (s' := frames during s2).
    destruct (frames_camera during s2 cam1) as [cam' Hcam'].
    { rewrite Hs2. exact Hcam1. }
    fold s' in Hcam'.
    assert (Hq : raf s' = [B] \/ raf s' = [A; B]).
    { unfold s'. rewrite frames_raf, Hs2. simpl. rewrite HB_during. simpl.
      destruct (finished during A); simpl; auto. }
    assert (Hidle' : raf (frame tf s') = []).
    { rewrite frame_raf.
      destruct Hq as [-> | ->]; simpl; rewrite ?HA_end, HB_end; reflexivity. }
    assert (Hlast : camera (frame tf s') = Some (pose B tf)).
    { destruct Hq as [Hq|Hq].
      - exact (frame_camera_last tf s' [] B cam' Hq Hcam').
      - exact (frame_camera_last tf s' [A] B cam' Hq Hcam'). }
    rewrite (frames_idle after _ Hidle'), Hlast.
    eexists. split; [reflexivity|].
    destruct (done_pose B tf HB_end) as [Hp Hl]. split; assumption.
Qed.

(** A tween has ended in one of the frames exactly when one of them is
    at or past its end. *)
Lemma finished_iff_reached ts tw :
  0 < duration tw ->
  finished ts tw = existsb (Qleb (startTime tw + duration tw)) ts.
Proof.
  intros Hd. unfold finished. induction ts as [|t ts IH]; simpl; [reflexivity|].
  rewrite IH. f_equal.
  destruct (done_at t tw) eqn:E, (Qleb (startTime tw + duration tw) t) eqn:F;
    try reflexivity.
  - apply done_at_iff in E; [|exact Hd]. apply Qleb_le in E. congruence.
  - apply Qleb_le in F. apply (done_at_iff tw t Hd) in F. congruence.
Qed.

Lemma reached_Exists e ts :
  Exists (fun t => e <= t) ts -> existsb (Qleb e) ts = true.
Proof.
  intros H. apply existsb_exists. apply List.Exists_exists in H.
  destruct H as (t & Hin & Ht). exists t. split; [exact Hin|].
  now apply Qleb_le.
Qed.

(** The first frame at or past a time splits the frames. *)
Lemma first_frame_reaching e ts :
  Exists (fun t => e <= t) ts ->
  exists during tf after,
    ts = during ++ tf :: after /\
    Forall (fun t => t < e) during /\ e <= tf.
Proof.
  induction ts as [|t ts IH]; intros H.
  - inversion H.
  - destruct (Qlt_le_dec t e) as [Hlt|Hge].
    + destruct IH as (during & tf & after & -> & Hd & Hf).
      { inversion H as [? ? Ht|? ? Ht]; subst; [lra | exact Ht]. }
      exists (t :: during), tf, after. split; [reflexivity|].
      split; [constructor; assumption | exact Hf].
    + exists [], t, ts. split; [reflexivity|]. split; [constructor | exact Hge].
Qed.

(** C1, as the code has it: a request for A followed, before A's tween
    has ended, by a request for B does not cancel A's tween.  Whatever
    frames follow, each of the two tweens emits [camera:animation-complete]
    once, in the first frame at or past its end: two events in all once
    both ends have been reached, with nothing left to run; and when B's
    tween ends no earlier than A's (as it does with equal durations), the
    camera ends at B's target position, looking at B's look-at point. *)
Theorem second_request_runs_beside_the_first
  (s0 : globe) (cam0 : camera_t)
  (tA : Q) (posA lookA : vec3) (dA : Q) (before : list Q)
  (tB : Q) (posB lookB : vec3) (dB : Q) (later : list Q) :
  raf s0 = [] -> camera s0 = Some cam0 ->
  0 < dA -> 0 < dB ->
  Forall (fun t => t < tA + dA) before ->
  let s1 := animateCameraTo tA posA lookA dA s0 in
  let s2 := animateCameraTo tB posB lookB dB (frames before s1) in
  let s3 := frames later s2 in
  complete_count s2 = complete_count s0 /\
  List.length (raf s2) = 2%nat /\
  complete_count s3
  = (complete_count s0
     + (if existsb (Qleb (tA + dA)) later then 1 else 0)
     + (if existsb (Qleb (tB + dB)) later then 1 else 0))%nat /\
  (Exists (fun t => tA + dA <= t) later ->
   Exists (fun t => tB + dB <= t) later ->
   complete_count s3 = (complete_count s0 + 2)%nat /\ raf s3 = []) /\
  (tA + dA <= tB + dB ->
   Exists (fun t => tB + dB <= t) later ->
   complete_count s3 = (complete_count s0 + 2)%nat /\
   raf s3 = [] /\
   exists cam, camera s3 = Some cam /\
               same_vec3 (position cam) posB /\ lookingAt cam = lookB).
Proof.
  intros Hidle Hcam HdA HdB Hbefore s1 s2 s3.
  set (A := mkTween (position cam0) posA lookA tA dA).
  assert (Hs1 : s1 = set_raf [A] s0).
  { unfold s1, animateCameraTo. rewrite Hcam, Hidle. reflexivity. }
  assert (HA_before : finished before A = false)
    by (apply not_finished_before; assumption).
  set (s1' := frames before s1).
  assert (Hraf1 : raf s1' = [A]).
  { unfold s1'. rewrite frames_raf, Hs1. simpl. now rewrite HA_before. }
  assert (Hcount1 : complete_count s1' = complete_count s0).
  { unfold s1'. rewrite frames_count, Hs1. simpl. rewrite HA_before. simpl.
    unfold complete_count. simpl. lia. }
  destruct (frames_camera before s1 cam0) as [cam1 Hcam1].
  { rewrite Hs1. exact Hcam. }
  fold s1' in Hcam1.
  set (B := mkTween (position cam1) posB lookB tB dB).
  assert (Hs2 : s2 = set_raf [A; B] s1').
  { unfold s2, animateCameraTo. fold s1'. rewrite Hcam1, Hraf1. reflexivity. }
  assert (Hcount2 : complete_count s2 = complete_count s0).
  { rewrite Hs2. exact Hcount1. }
  assert (Hcount3 :
            complete_count s3
            = (complete_count s0
               + (if existsb (Qleb (tA + dA)) later then 1 else 0)
               + (if existsb (Qleb (tB + dB)) later then 1 else 0))%nat).
  { unfold s3. rewrite frames_count, Hcount2, Hs2. simpl.
    rewrite (finished_iff_reached later A HdA).
    rewrite (finished_iff_reached later B HdB). simpl.
    destruct (existsb (Qleb (tA + dA)) later),
             (existsb (Qleb (tB + dB)) later); simpl; lia. }
  assert (Hboth :
            Exists (fun t => tA + dA <= t) later ->
            Exists (fun t => tB + dB <= t) later ->
            complete_count s3 = (complete_count s0 + 2)%nat /\ raf s3 = []).
  { intros HA HB. apply reached_Exists in HA, HB. split.
    - rewrite Hcount3, HA, HB. lia.
    - unfold s3. rewrite frames_raf, Hs2. simpl.
      rewrite (finished_iff_reached later A HdA).
      rewrite (finished_iff_reached later B HdB). simpl.
      now rewrite HA, HB. }
  split; [exact Hcount2|]. split; [now rewrite Hs2|].
  split; [exact Hcount3|]. split; [exact Hboth|].
  intros Horder HB.
  assert (HA : Exists (fun t => tA + dA <= t) later).
  { apply List.Exists_exists in HB. destruct HB as (t & Hin & Ht).
    apply List.Exists_exists. exists t. split; [exact Hin | lra]. }
  destruct (Hboth HA HB) as [Hc Hr]. split; [exact Hc|]. split; [exact Hr|].
  destruct (first_frame_reaching _ _ HB)
    as (during & tf & after & Hlater & Hduring & Htf).
  assert (HtfA : tA + dA <= tf) by lra.
  destruct (both_tweens_ended_by_one_frame s0 cam0 tA posA lookA dA
              before tB posB lookB dB during tf after
              Hidle Hcam HdA HdB Hbefore Hduring HtfA Htf)
    as (_ & _ & Hpose).
  unfold s3, s2, s1. rewrite Hlater. exact Hpose.
Qed.

End GlobeCameraPreemption.

Section GlobeCameraExamples.
Import Globe.
Local Open Scope Q_scope.

(** The run [two_requests], where B ends after A, and a run where a B of
    100 ms ends first and a frame falls between the two ends. *)
Lemma second_request_witness :
  (complete_count two_requests = (complete_count Globe.initial + 2)%nat /\
   raf two_requests = [] /\
   exists cam, camera two_requests = Some cam /\
               same_vec3 (position cam) target_B /\ lookingAt cam = origin) /\
  (let s := frames [700; 2100]
              (animateCameraTo 500 target_B origin 100
                 (frames [16]
                    (animateCameraTo 0 target_A origin default_duration
                       Globe.initial))) in
   complete_count s = (complete_count Globe.initial + 2)%nat /\ raf s = []).
Proof.
  assert (B : Forall (fun t => t < 0 + default_duration) [16])
    by (repeat constructor).
  split.
  - destruct (second_request_runs_beside_the_first Globe.initial
                (mkCamera (mkVec3 0 0 400) origin)
                0 target_A origin default_duration [16]
                500 target_B origin default_duration [1000; 2500; 2516]
                eq_refl eq_refl eq_refl eq_refl B)
      as (_ & _ & _ & _ & H).
    apply H.
    + discriminate.
    + right. left. discriminate.
  - destruct (second_request_runs_beside_the_first Globe.initial
                (mkCamera (mkVec3 0 0 400) origin)
                0 target_A origin default_duration [16]
                500 target_B origin 100 [700; 2100]
                eq_refl eq_refl eq_refl eq_refl B)
      as (_ & _ & _ & H & _).
    apply H.
    + right. left. discriminate.
    + left. discriminate.
Defined.

(** C1 as stated fails: in that run the two requests give two completion
    events, not one. *)
Lemma preempted_tween_still_completes :
  complete_count two_requests = 2%nat /\ complete_count two_requests <> 1%nat.
Proof. vm_compute. split; [reflexivity | discriminate]. Qed.

(** Nor is the last request always the one that has the last word: a B of
    100 ms requested at 500 ms ends at 700 ms, and A's tween, still running,
    takes the camera on to A's target. *)
Example short_second_tween_is_overwritten :
  let s := frames [700; 2100]
             (animateCameraTo 500 target_B origin 100
                (frames [16]
                   (animateCameraTo 0 target_A origin default_duration
                      Globe.initial))) in
  complete_count s = 2%nat /\
  exists cam, camera s = Some cam /\ same_vec3 (position cam) target_A.
Proof.
  vm_compute. split; [reflexivity|].
  eexists. split; [reflexivity|]. vm_compute. repeat split; reflexivity.
Qed.

End GlobeCameraExamples.

Section SceneFacts.
Import Scene.
Local Open Scope Q_scope.

(** While paused, a frame changes nothing in a running loop: the request
    is renewed and the callback returns. *)
Lemma frame_while_paused t s :
  isAnimating s = true -> isPaused s = true -> frame t s = s.
Proof.
  intros Ha Hp. unfold frame. destruct (requested s) eqn:Hr; [|reflexivity].
  unfold animate. simpl. rewrite Ha, Hp. simpl.
  destruct s; simpl in *; now subst.
Qed.

Lemma frames_while_paused ts : forall s,
  isAnimating s = true -> isPaused s = true -> frames ts s = s.
Proof.
  induction ts as [|t ts IH]; intros s Ha Hp; simpl; [reflexivity|].
  rewrite frame_while_paused by assumption. now apply IH.
Qed.

Lemma last_animate_emit d e t s :
  last_animate (emit (scene_animate d e t) s) = Some (d, e).
Proof.
  unfold last_animate, emit. simpl.
  rewrite List.filter_app. simpl. now rewrite last_snoc.
Qed.

(** The first frame after [resume()] at [tr], delivered at [tf]. *)
Lemma frame_after_resume tr tf s :
  isAnimating s = true -> requested s = true ->
  exists d e,
    last_animate (frame tf (resume tr s)) = Some (d, e) /\
    d == (tf - tr) / 1000 /\ e == (tf - tr) / 1000.
Proof.
  intros Ha Hr. unfold frame, resume. simpl. rewrite Hr.
  unfold animate. simpl. rewrite Ha. simpl.
  unfold Clock_getDelta at 1. simpl.
  rewrite andb_false_r.
  unfold updateStats. simpl.
  destruct (Qleb 1000 (tf - lastTime (stats s))); simpl;
    unfold Clock_getElapsedTime, Clock_getDelta; simpl;
    rewrite andb_false_r; simpl;
    rewrite last_animate_emit;
    eexists; eexists; (split; [reflexivity|]); split; field.
Qed.

(** C9, as the code has it: in a running loop, after [pause()] the frames
    that arrive deliver no [scene:animate] and leave the clock as it was,
    and [pause()] and [resume()] touch nothing but the pause flag, the
    clock and the event log; [resume()] restarts the clock, so the first
    frame after it reports as [deltaTime] the time since [resume()] alone
    (nothing of the paused interval), and as [elapsedTime] that same time:
    the elapsed time starts again from zero. *)
Theorem pause_resume_restarts_the_clock
  (s : state) (paused : list Q) (tr tf : Q) :
  isAnimating s = true -> requested s = true ->
  let sp := frames paused (pause s) in
  let sr := resume tr sp in
  List.filter is_animate (emitted sp) = List.filter is_animate (emitted s) /\
  clock sp = clock s /\
  (isAnimating sr, requested sr, stats sr)
    = (isAnimating s, requested s, stats s) /\
  exists d e,
    last_animate (frame tf sr) = Some (d, e) /\
    d == (tf - tr) / 1000 /\ e == (tf - tr) / 1000.
Proof.
  intros Ha Hr sp sr.
  assert (Hsp : sp = pause s).
  { unfold sp. apply frames_while_paused; unfold pause; simpl; auto. }
  unfold sr. rewrite Hsp. repeat split.
  - unfold pause. simpl. rewrite List.filter_app. simpl. now rewrite app_nil_r.
  - apply frame_after_resume; unfold pause; simpl; auto.
Qed.

End SceneFacts.

Section SceneExamples.
Import Scene.
Local Open Scope Q_scope.

Lemma pause_resume_witness :
  let sp := frames [3000; 4000] (pause two_seconds_in) in
  let sr := resume 5000 sp in
  List.filter is_animate (emitted sp)
    = List.filter is_animate (emitted two_seconds_in) /\
  clock sp = clock two_seconds_in /\
  (isAnimating sr, requested sr, stats sr)
    = (isAnimating two_seconds_in, requested two_seconds_in,
       stats two_seconds_in) /\
  exists d e,
    last_animate (frame 5016 sr) = Some (d, e) /\
    d == (5016 - 5000) / 1000 /\ e == (5016 - 5000) / 1000.
Proof.
  apply (pause_resume_restarts_the_clock two_seconds_in [3000; 4000] 5000 5016);
    reflexivity.
Defined.

(** C9 as stated fails: two seconds had elapsed before the pause, and the
    first frame after [resume()] reports 16 ms of elapsed time. *)
Lemma elapsed_time_does_not_continue :
  exists d0 e0 d1 e1,
    last_animate two_seconds_in = Some (d0, e0) /\
    last_animate after_resume = Some (d1, e1) /\
    e0 == 2 /\ e1 == 16 # 1000 /\ ~ (e0 <= e1).
Proof.
  do 4 eexists. split; [vm_compute; reflexivity|].
  split; [vm_compute; reflexivity|].
  split; [reflexivity|]. split; [reflexivity|].
  intros H. vm_compute in H. now apply H.
Qed.

End SceneExamples.

Section ControlsGestureFacts.
Import Controls.
Local Open Scope Q_scope.

Lemma click_count_emit e c :
  click_count (emit e c)
  = (click_count c + (if is_click e then 1 else 0))%nat.
Proof.
  unfold click_count, emit. simpl. rewrite List.filter_app, List.length_app.
  simpl. destruct (is_click e); reflexivity.
Qed.

Lemma moves_spec moves : forall c,
  let c' := fold_left (fun c p => handleMouseMove p c) moves c in
  isDragging c' = isDragging c || negb (steps_small (lastMousePosition c) moves)
  /\ state c' = state c
  /\ click_count c' = click_count c.
Proof.
  induction moves as [|p moves IH]; intros c; simpl.
  - rewrite orb_false_r. auto.
  - destruct (IH (handleMouseMove p c)) as (Hd & Hs & Hc).
    rewrite Hd, Hs, Hc. unfold handleMouseMove. cbv zeta.
    rewrite click_count_emit. simpl.
    destruct (length_gt _ 5) eqn:E; simpl.
    + rewrite orb_true_r. repeat split; try reflexivity.
      unfold click_count. simpl. lia.
    + repeat split; try reflexivity. unfold click_count. simpl. lia.
Qed.

(** C4, as the code has it: a press-to-release cycle is reported as a
    click (one [controls:click] is emitted) exactly when no single move of
    the pointer during it was longer than 5 px and the release came less
    than 200 ms after the press; otherwise no click is emitted. *)
Theorem click_iff_small_steps_and_short_press
  (c : controls) (t0 t1 : Q) (p0 : vec2) (moves : list vec2) :
  clickThreshold (state c) == 200 ->
  let c' := cycle t0 p0 moves t1 c in
  (click_count c' = S (click_count c)
   <-> steps_small p0 moves = true /\ t1 - t0 < 200) /\
  (click_count c' = click_count c
   <-> ~ (steps_small p0 moves = true /\ t1 - t0 < 200)).
Proof.
  intros Hth c'.
  destruct (moves_spec moves (handleMouseDown t0 p0 c)) as (Hd & Hs & Hc).
  simpl in Hd, Hs.
  assert (Hdown : click_count (handleMouseDown t0 p0 c) = click_count c).
  { unfold handleMouseDown. cbv zeta. rewrite click_count_emit. simpl.
    unfold click_count. simpl. lia. }
  rewrite Hdown in Hc.
  assert (Hlt : Qltb (t1 - t0) (clickThreshold (state c))
                = Qltb (t1 - t0) 200).
  { destruct (Qltb (t1 - t0) 200) eqn:E.
    - apply Qltb_lt. apply Qltb_lt in E. rewrite Hth. exact E.
    - apply Qltb_ge. apply Qltb_ge in E. rewrite Hth. exact E. }
  assert (Hcount : click_count c'
                   = (click_count c
                      + (if steps_small p0 moves && Qltb (t1 - t0) 200
                         then 1 else 0))%nat).
  { unfold c', cycle, handleMouseUp. cbv zeta.
    rewrite Hd, Hs. simpl. rewrite Hlt, negb_involutive.
    rewrite click_count_emit. simpl.
    destruct (steps_small p0 moves && Qltb (t1 - t0) 200) eqn:E.
    - change (click_count (set_dragging false ?y)) with (click_count y).
      unfold handleClick. rewrite click_count_emit. simpl. lia.
    - change (click_count (set_dragging false ?y)) with (click_count y).
      lia. }
  rewrite Hcount.
  destruct (steps_small p0 moves) eqn:Es; simpl;
    [destruct (Qltb (t1 - t0) 200) eqn:Et|].
  - apply Qltb_lt in Et. split; split.
    + intros _. split; [reflexivity | exact Et].
    + intros _. lia.
    + intros H. lia.
    + intros H. exfalso. apply H. split; [reflexivity | exact Et].
  - apply Qltb_ge in Et. split; split.
    + intros H. lia.
    + intros [_ H]. exfalso. lra.
    + intros _ [_ H]. lra.
    + intros _. lia.
  - split; split.
    + intros H. lia.
    + intros [H _]. discriminate.
    + intros _ [H _]. discriminate.
    + intros _. lia.
Qed.

End ControlsGestureFacts.

Section ControlsGestureExamples.
Import Controls.
Local Open Scope Q_scope.

Lemma click_witness :
  let c' := cycle 0 (mkVec2 0 0) [mkVec2 3 0] 150 Controls.initial in
  (click_count c' = S (click_count Controls.initial)
   <-> steps_small (mkVec2 0 0) [mkVec2 3 0] = true /\ 150 - 0 < 200) /\
  (click_count c' = click_count Controls.initial
   <-> ~ (steps_small (mkVec2 0 0) [mkVec2 3 0] = true /\ 150 - 0 < 200)).
Proof.
  apply (click_iff_small_steps_and_short_press Controls.initial 0 150
           (mkVec2 0 0) [mkVec2 3 0]).
  reflexivity.
Defined.

(** The three cycles of the specification, each with its movement made in
    one move: 3 px in 150 ms is a click, 10 px in 150 ms and 3 px in 250 ms
    are not. *)
Example one_move_cycles :
  click_count (cycle 0 (mkVec2 0 0) [mkVec2 3 0] 150 Controls.initial) = 1%nat /\
  click_count (cycle 0 (mkVec2 0 0) [mkVec2 10 0] 150 Controls.initial) = 0%nat /\
  click_count (cycle 0 (mkVec2 0 0) [mkVec2 3 0] 250 Controls.initial) = 0%nat.
Proof. vm_compute. repeat split; reflexivity. Qed.

(** C4 as stated fails: a pointer dragged 9 px to the right in three
    moves of 3 px, released 150 ms after the press, is reported as a click,
    where the rule of the specification makes it a drag. *)
Lemma slow_drag_is_reported_as_click :
  let moves := [mkVec2 3 0; mkVec2 6 0; mkVec2 9 0] in
  let c' := cycle 0 (mkVec2 0 0) moves 150 Controls.initial in
  click_count c' = 1%nat /\
  horizontal_path_length (mkVec2 0 0) moves == 9 /\
  spec_is_click (horizontal_path_length (mkVec2 0 0) moves) (150 - 0) = false.
Proof. vm_compute. repeat split; reflexivity. Qed.

(** A single move of exactly 5 px is not above the threshold either. *)
Example five_pixels_is_a_click :
  click_count (cycle 0 (mkVec2 0 0) [mkVec2 5 0] 150 Controls.initial) = 1%nat /\
  spec_is_click 5 150 = false.
Proof. vm_compute. split; reflexivity. Qed.

End ControlsGestureExamples.

Section ControlsTimerFacts.
Import Controls.
Local Open Scope Q_scope.

Lemma started_count_emit e c :
  started_count (emit e c)
  = (started_count c + (if is_started e then 1 else 0))%nat.
Proof.
  unfold started_count, emit. simpl. rewrite List.filter_app, List.length_app.
  simpl. destruct (is_started e); reflexivity.
Qed.

Lemma clearTimeout_single h due : clearTimeout h [(h, due)] = [].
Proof. unfold clearTimeout. simpl. now rewrite Pos.eqb_refl. Qed.

Lemma stopAutoRotate_spec c :
  one_pending c ->
  timers (stopAutoRotate c) = [] /\
  started_count (stopAutoRotate c) = started_count c /\
  next_timer (stopAutoRotate c) = next_timer c.
Proof.
  intros [H | (h & due & H & Ht)]; unfold stopAutoRotate.
  - destruct (autoRotateTimeout (state c)) as [h'|];
      destruct (orbitControls c) eqn:Eo; simpl; rewrite ?Eo; simpl;
      rewrite ?H; auto.
  - rewrite Ht. destruct (orbitControls c) eqn:Eo; simpl; rewrite ?Eo; simpl;
      rewrite H, clearTimeout_single; auto.
Qed.

Lemma scheduleAutoRotate_spec now c :
  one_pending c ->
  let c' := scheduleAutoRotate now c in
  timers c' = [(next_timer c, now + 3000)] /\
  autoRotateTimeout (state c') = Some (next_timer c) /\
  started_count c' = started_count c.
Proof.
  intros H. destruct (stopAutoRotate_spec c H) as (Ht & Hc & Hn).
  unfold scheduleAutoRotate. cbv zeta. simpl. rewrite Ht, Hn. simpl.
  repeat split. exact Hc.
Qed.

Lemma run_timers_idle now c : timers c = [] -> run_timers now c = c.
Proof. intros H. unfold run_timers. now rewrite H. Qed.

Lemma run_timers_early now c h due :
  timers c = [(h, due)] -> now < due -> run_timers now c = c.
Proof.
  intros H Hlt. unfold run_timers. rewrite H. simpl.
  assert (E : Qleb due now = false).
  { destruct (Qleb due now) eqn:E; [|reflexivity].
    apply Qleb_le in E. exfalso. lra. }
  now rewrite E.
Qed.

Lemma run_timers_single now c h due :
  timers c = [(h, due)] ->
  let c' := run_timers now c in
  (c' = c) \/
  (timers c' = [] /\ (started_count c' <= started_count c + 1)%nat).
Proof.
  intros H. unfold run_timers. rewrite H. simpl.
  destruct (Qleb due now); simpl; [|now left].
  rewrite H. simpl. rewrite Pos.eqb_refl. simpl. right.
  unfold autoRotate_callback. simpl.
  destruct (orbitControls c); simpl;
    [|split; [reflexivity | unfold started_count; simpl; lia]].
  destruct (negb (isInteracting (state c))); simpl.
  - split; [reflexivity|]. rewrite started_count_emit. simpl.
    unfold started_count. simpl. lia.
  - split; [reflexivity | unfold started_count; simpl; lia].
Qed.

(** What a step that does not schedule does to the pending timeout and to
    the count of [auto-rotate-started]. *)
Lemma quiet_step now a c :
  schedules a = false -> one_pending c ->
  let c' := step now a c in
  (timers c' = timers c /\
   autoRotateTimeout (state c') = autoRotateTimeout (state c) /\
   started_count c' = started_count c) \/
  (timers c' = [] /\ started_count c' = started_count c) \/
  (a = TimersRun /\ timers c <> [] /\ timers c' = [] /\
   (started_count c' <= started_count c + 1)%nat /\
   forall h due, timers c = [(h, due)] -> due <= now).
Proof.
  intros Hq Hp. destruct a; simpl in *; try discriminate.
  - (* OrbitStart *)
    right. left. unfold on_start. cbv zeta. rewrite started_count_emit. simpl.
    match goal with |- context [stopAutoRotate ?x] =>
      destruct (stopAutoRotate_spec x) as (Ht & Hc & _) end.
    { exact Hp. }
    rewrite Ht, Hc. split; [reflexivity|]. unfold started_count. simpl. lia.
  - (* KeyEscape *)
    left. unfold cancelInteraction. cbv zeta. rewrite started_count_emit. simpl.
    repeat split. unfold started_count. simpl. lia.
  - (* Disable *)
    right. left. unfold disable. rewrite started_count_emit. simpl.
    destruct (stopAutoRotate_spec (set_enabled false c)) as (Ht & Hc & _).
    { exact Hp. }
    rewrite Ht, Hc. split; [reflexivity|]. unfold started_count. simpl. lia.
  - (* MouseDown *)
    left. unfold handleMouseDown. cbv zeta. rewrite started_count_emit. simpl.
    repeat split. unfold started_count. simpl. lia.
  - (* MouseMove *)
    left. unfold handleMouseMove. cbv zeta. rewrite started_count_emit. simpl.
    destruct (length_gt _ 5); simpl; repeat split;
      unfold started_count; simpl; lia.
  - (* MouseUp *)
    left. unfold handleMouseUp, handleClick. cbv zeta.
    rewrite started_count_emit. simpl.
    destruct (negb (isDragging c) && _); simpl; repeat split;
      unfold started_count; simpl;
      rewrite ?List.filter_app, ?List.length_app; simpl; lia.
  - (* TimersRun *)
    destruct Hp as [H | (h & due & H & Ht)].
    + left. rewrite run_timers_idle by exact H. auto.
    + destruct (Qlt_le_dec now due) as [Hlt|Hle].
      * left. rewrite (run_timers_early now c h due H Hlt). auto.
      * destruct (run_timers_single now c h due H) as [-> | [Ht' Hc']].
        -- left. auto.
        -- right. right. split; [reflexivity|]. split; [rewrite H; discriminate|].
           split; [exact Ht'|]. split; [exact Hc'|].
           intros h' due' H'. rewrite H in H'. inversion H'; subst. exact Hle.
Qed.

Lemma one_pending_frame c c' :
  timers c' = timers c ->
  autoRotateTimeout (state c') = autoRotateTimeout (state c) ->
  one_pending c -> one_pending c'.
Proof.
  intros Ht Ha [H | (h & due & H & Hh)].
  - left. congruence.
  - right. exists h, due. split; congruence.
Qed.

Lemma step_one_pending now a c : one_pending c -> one_pending (step now a c).
Proof.
  intros Hp. destruct (schedules a) eqn:Hs.
  - destruct a; simpl in *; try discriminate.
    + (* OrbitEnd *)
      unfold on_end. cbv zeta.
      match goal with |- context [scheduleAutoRotate now ?x] =>
        destruct (scheduleAutoRotate_spec now x) as (Ht & Ha & _) end.
      { exact Hp. }
      right. eexists _, _. simpl. split; [exact Ht | exact Ha].
    + (* KeyToggle *)
      unfold toggleAutoRotate. destruct (orbitControls c) as [a|]; [|exact Hp].
      cbv zeta. destruct (negb a).
      * match goal with |- context [scheduleAutoRotate now ?x] =>
          destruct (scheduleAutoRotate_spec now x) as (Ht & Ha & _) end.
        { exact Hp. }
        right. eexists _, _. simpl. split; [exact Ht | exact Ha].
      * match goal with |- context [stopAutoRotate ?x] =>
          destruct (stopAutoRotate_spec x) as (Ht & _) end.
        { exact Hp. }
        left. simpl. exact Ht.
  - destruct (quiet_step now a c Hs Hp) as [(Ht & Ha & _) | [(Ht & _) | (_ & _ & Ht & _)]].
    + now apply (one_pending_frame c).
    + now left.
    + now left.
Qed.

Lemma run_one_pending tasks : forall c,
  one_pending c -> one_pending (run tasks c).
Proof.
  induction tasks as [|[now a] tasks IH]; intros c H; simpl; [exact H|].
  apply IH. now apply step_one_pending.
Qed.

Lemma reachable_one_pending tasks : one_pending (run tasks Controls.initial).
Proof. apply run_one_pending. now left. Qed.

(** With nothing pending and nothing scheduled, nothing fires. *)
Lemma quiet_run_idle tasks : forall c,
  Forall (fun ta => schedules (snd ta) = false) tasks ->
  timers c = [] ->
  timers (run tasks c) = [] /\ started_count (run tasks c) = started_count c.
Proof.
  induction tasks as [|[now a] tasks IH]; intros c Hq Ht; simpl; [auto|].
  inversion Hq as [|? ? Ha Hq']; subst. simpl in Ha.
  destruct (quiet_step now a c Ha (or_introl Ht))
    as [(Ht' & _ & Hc) | [(Ht' & Hc) | (_ & Hne & _)]].
  - destruct (IH (step now a c) Hq') as [H1 H2]; [congruence|].
    split; [exact H1 | congruence].
  - destruct (IH (step now a c) Hq' Ht') as [H1 H2].
    split; [exact H1 | congruence].
  - contradiction.
Qed.

(** With one timeout pending and nothing scheduled, it fires at most
    once. *)
Lemma quiet_run_single tasks : forall c h due,
  Forall (fun ta => schedules (snd ta) = false) tasks ->
  timers c = [(h, due)] -> autoRotateTimeout (state c) = Some h ->
  (started_count (run tasks c) <= started_count c + 1)%nat.
Proof.
  induction tasks as [|[now a] tasks IH]; intros c h due Hq Ht Hh; simpl; [lia|].
  inversion Hq as [|? ? Ha Hq']; subst. simpl in Ha.
  assert (Hp : one_pending c) by (right; eauto).
  destruct (quiet_step now a c Ha Hp)
    as [(Ht' & Hh' & Hc) | [(Ht' & Hc) | (_ & _ & Ht' & Hc & _)]].
  - rewrite <- Hc. apply (IH _ h due Hq'); congruence.
  - destruct (quiet_run_idle tasks (step now a c) Hq' Ht') as [_ H]. lia.
  - destruct (quiet_run_idle tasks (step now a c) Hq' Ht') as [_ H]. lia.
Qed.

(** Before it is due, the pending timeout does not fire. *)
Lemma quiet_run_early tasks : forall c h due,
  Forall (fun ta => schedules (snd ta) = false /\
                    (snd ta = TimersRun -> fst ta < due)) tasks ->
  timers c = [(h, due)] -> autoRotateTimeout (state c) = Some h ->
  one_pending (run tasks c) /\ started_count (run tasks c) = started_count c.
Proof.
  induction tasks as [|[now a] tasks IH]; intros c h due Hq Ht Hh; simpl.
  - split; [right; eauto | reflexivity].
  - inversion Hq as [|? ? [Ha Hnow] Hq']; subst. simpl in Ha, Hnow.
    assert (Hp : one_pending c) by (right; eauto).
    destruct (quiet_step now a c Ha Hp)
      as [(Ht' & Hh' & Hc) | [(Ht' & Hc) | (Hrun & _ & _ & _ & Hdue)]].
    + rewrite <- Hc. apply (IH _ h due Hq'); congruence.
    + assert (Hq'' : Forall (fun ta => schedules (snd ta) = false) tasks).
      { eapply List.Forall_impl; [|exact Hq']. intros ? [? _]. assumption. }
      destruct (quiet_run_idle tasks (step now a c) Hq'' Ht') as [H1 H2].
      split; [now left | congruence].
    + specialize (Hdue h due Ht). specialize (Hnow Hrun). exfalso. lra.
Qed.

(** C5: from any state the controls can reach, (1) once the idle timer
    has been scheduled and an interaction starts before the timer has
    fired, in the same task or after other tasks that schedule nothing, no
    [auto-rotate-started] is emitted for as long as nothing schedules the
    timer again; and (2) scheduling twice leaves one timeout pending, the
    first having been cleared, so that at most one [auto-rotate-started]
    follows. *)
Theorem idle_timer_is_cancelled_then_rescheduled
  (history : list (Q * action)) (t0 : Q) (between : list (Q * action))
  (t1 : Q) (later : list (Q * action)) :
  Forall (fun ta => schedules (snd ta) = false /\
                    (snd ta = TimersRun -> fst ta < t0 + 3000)) between ->
  Forall (fun ta => schedules (snd ta) = false) later ->
  let c := run history Controls.initial in
  started_count
    (run later (on_start t1 (run between (scheduleAutoRotate t0 c))))
  = started_count c /\
  List.length (timers (scheduleAutoRotate t1 (scheduleAutoRotate t0 c))) = 1%nat /\
  (started_count (run later (scheduleAutoRotate t1 (scheduleAutoRotate t0 c)))
   <= started_count c + 1)%nat.
Proof.
  intros Hbetween Hlater c.
  assert (Hp : one_pending c) by apply reachable_one_pending.
  destruct (scheduleAutoRotate_spec t0 c Hp) as (Ht & Hh & Hc).
  split; [|split].
  - destruct (quiet_run_early between _ _ _ Hbetween Ht Hh) as [Hp' Hc'].
    set (c1 := run between (scheduleAutoRotate t0 c)) in *.
    assert (Hstart : timers (on_start t1 c1) = [] /\
                     started_count (on_start t1 c1) = started_count c1).
    { unfold on_start. cbv zeta. rewrite started_count_emit. simpl.
      match goal with |- context [stopAutoRotate ?x] =>
        destruct (stopAutoRotate_spec x) as (Ht1 & Hc1 & _) end.
      { exact Hp'. }
      rewrite Ht1, Hc1. split; [reflexivity|].
      unfold started_count. simpl. lia. }
    destruct Hstart as [Hts Hcs].
    destruct (quiet_run_idle later _ Hlater Hts) as [_ H]. congruence.
  - assert (Hp1 : one_pending (scheduleAutoRotate t0 c)) by (right; eauto).
    destruct (scheduleAutoRotate_spec t1 _ Hp1) as (Ht2 & _).
    now rewrite Ht2.
  - assert (Hp1 : one_pending (scheduleAutoRotate t0 c)) by (right; eauto).
    destruct (scheduleAutoRotate_spec t1 _ Hp1) as (Ht2 & Hh2 & Hc2).
    pose proof (quiet_run_single later _ _ _ Hlater Ht2 Hh2) as H. lia.
Qed.

End ControlsTimerFacts.

Section ControlsTimerExamples.
Import Controls.
Local Open Scope Q_scope.

Lemma idle_timer_witness :
  let c := run busy_history Controls.initial in
  started_count
    (run [(5000, TimersRun)]
       (on_start 400 (run busy_between (scheduleAutoRotate 200 c))))
  = started_count c /\
  List.length (timers (scheduleAutoRotate 400 (scheduleAutoRotate 200 c)))
  = 1%nat /\
  (started_count
     (run [(5000%Q, TimersRun)]
        (scheduleAutoRotate 400%Q (scheduleAutoRotate 200%Q c)))
   <= started_count c + 1)%nat.
Proof.
  apply (idle_timer_is_cancelled_then_rescheduled
           busy_history 200 busy_between 400 [(5000, TimersRun)]).
  - constructor; [split; [reflexivity | discriminate]|].
    constructor; [split; [reflexivity | intros _; reflexivity]|].
    constructor.
  - repeat constructor.
Defined.

(** Scheduled twice and left alone, the timer fires once: the host's runs
    at 4000 and 8000 ms give one [auto-rotate-started]. *)
Example scheduled_twice_fires_once :
  started_count
    (run [(4000, TimersRun); (8000, TimersRun)]
       (scheduleAutoRotate 500 (scheduleAutoRotate 0 Controls.initial)))
  = 1%nat.
Proof. vm_compute. reflexivity. Qed.

End ControlsTimerExamples.

(** * Further properties of the code *)

(** ** The event emitter: [once], [off], [removeAllListeners] *)

Section EventEmitterMoreFacts.
Import EventEmitter.


(** What the loop of [emit] leaves of the array: the listeners registered
    for one call only are spliced out, the others stay in place. *)
Lemma emit_loop_live copy n rest calls :
  (n <= List.length copy)%nat ->
  fst (emit_loop copy n (firstn n copy ++ rest) calls)
  = List.filter (fun l => negb (once l)) (firstn n copy) ++ rest.
Proof.
  revert rest calls. induction n as [|i IH]; intros rest calls Hn.
  - reflexivity.
  - simpl emit_loop. destruct (nth_error copy i) as [l|] eqn:Hi.
    + assert (Hf : firstn (S i) copy = firstn i copy ++ [l]).
      { clear - Hi. revert copy Hi.
        induction i as [|i IHi]; intros [|c copy] Hi;
          simpl in *; try discriminate.
        - now inversion Hi.
        - f_equal. now apply IHi. }
      assert (Hlen : List.length (firstn i copy) = i)
        by (apply List.firstn_length_le; lia).
      rewrite Hf, List.filter_app, <- !app_assoc. simpl.
      destruct (once l) eqn:Ho; simpl.
      * unfold splice1.
        rewrite List.firstn_app, Hlen, Nat.sub_diag, List.firstn_all2 by lia.
        simpl. rewrite app_nil_r.
        rewrite List.skipn_app, Hlen.
        replace (S i - i)%nat with 1%nat by lia.
        rewrite List.skipn_all2 by lia. simpl.
        apply IH. lia.
      * apply (IH (l :: rest)). lia.
    + apply nth_error_None in Hi. lia.
Qed.

(** X1: publishing an event removes from its array exactly the listeners
    registered for one call and keeps the others in their order; a second
    publication therefore calls the remaining listeners only. *)
Theorem emit_drops_once_listeners event (events : events_t) ls :
  events !! event = Some ls ->
  fst (emit event events) !! event
  = Some (List.filter (fun l => negb (once l)) ls) /\
  snd (emit event (fst (emit event events)))
  = rev (map callback (List.filter (fun l => negb (once l)) ls)).
Proof.
  intros E.
  assert (H1 : fst (emit event events) !! event
               = Some (List.filter (fun l => negb (once l)) ls)).
  { unfold emit. rewrite E.
    pose proof (emit_loop_live ls (List.length ls) [] [] (Nat.le_refl _)) as H.
    rewrite List.firstn_all, !app_nil_r in H.
    destruct (emit_loop ls (List.length ls) ls []) as [live calls].
    simpl in *. rewrite lookup_insert_eq. now f_equal. }
  split; [exact H1|]. now apply emit_calls_reversed.
Qed.


Lemma sort_sorted_id l : descending l -> sort_by_priority l = l.
Proof.
  induction 1 as [|a l Hl IH Ha]; simpl; [reflexivity|].
  rewrite IH. apply sort_insert_head.
  eapply List.Forall_impl; [|exact Ha]. simpl. intros; lia.
Qed.

Lemma filter_none {A} (f : A -> bool) l :
  Forall (fun x => f x = false) l -> List.filter f l = [].
Proof. induction 1 as [|x l Hx _ IH]; simpl; [reflexivity|]. now rewrite Hx. Qed.

Lemma filter_all {A} (f : A -> bool) l :
  Forall (fun x => f x = true) l -> List.filter f l = l.
Proof.
  induction 1 as [|x l Hx _ IH]; simpl; [reflexivity|]. now rewrite Hx, IH.
Qed.

Lemma sort_places_last x l :
  descending l ->
  sort_by_priority (l ++ [x])
  = List.filter (fun y => (priority x <=? priority y)%Z) l
    ++ x :: List.filter (fun y => (priority y <? priority x)%Z) l.
Proof.
  induction 1 as [|a l Hl IH Ha]; [reflexivity|].
  simpl. rewrite IH.
  destruct (Z.leb_spec (priority x) (priority a)) as [Hle|Hlt].
  - replace (priority a <? priority x)%Z with false
      by (symmetry; apply Z.ltb_ge; lia).
    simpl. apply sort_insert_head.
    apply List.Forall_app. split.
    + apply List.Forall_forall. intros y Hy. apply List.filter_In in Hy.
      rewrite List.Forall_forall in Ha. destruct Hy as [Hy _].
      specialize (Ha y Hy). simpl in Ha. lia.
    + constructor; [lia|].
      apply List.Forall_forall. intros y Hy. apply List.filter_In in Hy.
      rewrite List.Forall_forall in Ha. destruct Hy as [Hy _].
      specialize (Ha y Hy). simpl in Ha. lia.
  - replace (priority a <? priority x)%Z with true
      by (symmetry; apply Z.ltb_lt; lia).
    rewrite (filter_none (fun y => (priority x <=? priority y)%Z) l).
    2:{ eapply List.Forall_impl; [|exact Ha]. simpl. intros y Hy.
        apply Z.leb_gt. lia. }
    rewrite (filter_all (fun y => (priority y <? priority x)%Z) l).
    2:{ eapply List.Forall_impl; [|exact Ha]. simpl. intros y Hy.
        apply Z.ltb_lt. lia. }
    simpl.
    replace (priority x - priority a >? 0)%Z with true
      by (symmetry; apply Z.gtb_lt; lia).
    f_equal. apply sort_insert_head.
    eapply List.Forall_impl; [|exact Ha]. simpl. intros; lia.
Qed.

(** X2: on an array in descending priority, [on] puts the new listener
    behind every listener of its priority or higher and in front of every
    listener of lower priority, and leaves the others in their order. *)
Theorem on_places_the_listener
  event cb o (events : events_t) (ls : list listener) :
  events !! event = Some ls -> descending ls ->
  let new := mkListener cb (default false (opt_once o))
               (default 0%Z (opt_priority o)) in
  on event cb o events !! event
  = Some (List.filter (fun y => (priority new <=? priority y)%Z) ls
          ++ new :: List.filter (fun y => (priority y <? priority new)%Z) ls).
Proof.
  intros E Hs new. rewrite on_lookup, E. simpl. f_equal.
  now apply sort_places_last.
Qed.

Lemma descending_filter (f : listener -> bool) l :
  descending l -> descending (List.filter f l).
Proof.
  induction 1 as [|a l Hl IH Ha]; simpl; [constructor|].
  destruct (f a); [|exact IH]. constructor; [exact IH|].
  apply List.Forall_forall. intros y Hy. apply List.filter_In in Hy.
  rewrite List.Forall_forall in Ha. now apply Ha.
Qed.

Lemma remove_first_incl cb l y : In y (remove_first cb l) -> In y l.
Proof.
  induction l as [|x l IH]; simpl; [tauto|].
  destruct (Nat.eqb (callback x) cb); [now right|].
  intros [->|H]; [now left | right; now apply IH].
Qed.

Lemma descending_remove_first cb l :
  descending l -> descending (remove_first cb l).
Proof.
  induction 1 as [|a l Hl IH Ha]; simpl; [constructor|].
  destruct (Nat.eqb (callback a) cb); [exact Hl|].
  constructor; [exact IH|].
  apply List.Forall_forall. intros y Hy. apply remove_first_incl in Hy.
  rewrite List.Forall_forall in Ha. now apply Ha.
Qed.


Lemma apply_op_descending o (events : events_t) :
  all_descending events -> all_descending (apply_op o events).
Proof.
  intros Hinv e l. destruct o as [e' cb opts | e' cb | e' | e']; simpl.
  - destruct (decide (e' = e)) as [->|Hne].
    + rewrite on_lookup. intros H; inversion H; subst.
      apply sort_by_priority_sorted.
    + unfold on. cbv zeta. rewrite lookup_insert_ne by exact Hne.
      destruct (events !! e'); [apply Hinv|].
      rewrite lookup_insert_ne by exact Hne. apply Hinv.
  - unfold off. destruct (events !! e') as [ls|] eqn:E; [|apply Hinv].
    destruct cb as [c|].
    + destruct (decide (e' = e)) as [->|Hne].
      * rewrite lookup_insert_eq. intros H; inversion H; subst.
        apply descending_remove_first. now apply (Hinv e).
      * rewrite lookup_insert_ne by exact Hne. apply Hinv.
    + destruct (decide (e' = e)) as [->|Hne].
      * rewrite lookup_delete_eq. discriminate.
      * rewrite lookup_delete_ne by exact Hne. apply Hinv.
  - destruct (events !! e') as [ls|] eqn:E.
    + destruct (decide (e' = e)) as [->|Hne].
      * destruct (emit_drops_once_listeners e events ls E) as [H _].
        rewrite H. intros H'; inversion H'; subst.
        apply descending_filter. now apply (Hinv e).
      * unfold emit. rewrite E.
        destruct (emit_loop ls (List.length ls) ls []) as [live calls].
        simpl. rewrite lookup_insert_ne by exact Hne. apply Hinv.
    + unfold emit. rewrite E. simpl. apply Hinv.
  - unfold removeAllListeners. destruct e' as [e'|].
    + destruct (String.eqb e' ""); [rewrite lookup_empty; discriminate|].
      destruct (decide (e' = e)) as [->|Hne].
      * rewrite lookup_delete_eq. discriminate.
      * rewrite lookup_delete_ne by exact Hne. apply Hinv.
    + rewrite lookup_empty. discriminate.
Qed.

(** X3: whatever calls of [on], [off], [emit] and [removeAllListeners]
    are made on a new emitter, every array of listeners is in descending
    priority. *)
Theorem listeners_stay_in_descending_priority (ops : list op) event ls :
  run_ops ops ∅ !! event = Some ls ->
  StronglySorted (fun a b => (priority b <= priority a)%Z) ls.
Proof.
  assert (H : forall (events : events_t),
             all_descending events -> all_descending (run_ops ops events)).
  { induction ops as [|o ops IH]; intros events Hinv; simpl; [exact Hinv|].
    apply IH. now apply apply_op_descending. }
  intros E. eapply (H ∅); [|exact E].
  intros e l. rewrite lookup_empty. discriminate.
Qed.

Lemma remove_first_others cb l :
  List.filter (fun x => negb (Nat.eqb (callback x) cb)) (remove_first cb l)
  = List.filter (fun x => negb (Nat.eqb (callback x) cb)) l.
Proof.
  induction l as [|x l IH]; simpl; [reflexivity|].
  destruct (Nat.eqb (callback x) cb) eqn:E; simpl; [reflexivity|].
  now rewrite E, IH.
Qed.

Lemma remove_first_length cb l :
  List.length (remove_first cb l)
  = (List.length l
     - (if existsb (fun x => Nat.eqb (callback x) cb) l then 1 else 0))%nat.
Proof.
  induction l as [|x l IH]; simpl; [reflexivity|].
  destruct (Nat.eqb (callback x) cb) eqn:E; simpl; [lia|].
  rewrite IH. destruct (existsb _ l) eqn:Ex; [|lia].
  destruct l; [discriminate|]. simpl. lia.
Qed.

(** X4: [off(event, callback)] removes one registration of the callback
    and nothing else: the count falls by one when the callback is
    registered (by nothing otherwise), the listeners with other callbacks
    stay as they were, in their order, and the other events are
    untouched. *)
Theorem off_removes_one_registration
  event cb (events : events_t) (ls : list listener) :
  events !! event = Some ls ->
  let events' := off event (Some cb) events in
  listenerCount event events'
  = (List.length ls
     - (if existsb (fun x => Nat.eqb (callback x) cb) ls then 1 else 0))%nat /\
  (exists ls', events' !! event = Some ls' /\
     List.filter (fun x => negb (Nat.eqb (callback x) cb)) ls'
     = List.filter (fun x => negb (Nat.eqb (callback x) cb)) ls) /\
  (forall other, other <> event -> events' !! other = events !! other).
Proof.
  intros E events'. unfold events', off, listenerCount. rewrite E.
  rewrite lookup_insert_eq. split; [apply remove_first_length|]. split.
  - eexists. split; [reflexivity|]. apply remove_first_others.
  - intros other Hne. now rewrite lookup_insert_ne.
Qed.

(** X5: after [removeAllListeners()], [removeAllListeners(name)] or
    [off(name)], publishing [name] calls no handler; this is the order in
    which the components' [destroy] methods end, so that their
    [...:destroyed] events reach nobody. *)
Theorem nothing_is_called_after_removeAllListeners
  (events : events_t) (name : string) :
  snd (emit name (removeAllListeners None events)) = [] /\
  snd (emit name (removeAllListeners (Some name) events)) = [] /\
  snd (emit name (off name None events)) = [].
Proof.
  split; [|split].
  - unfold removeAllListeners, emit. now rewrite lookup_empty.
  - unfold removeAllListeners, emit.
    destruct (String.eqb name "").
    + now rewrite lookup_empty.
    + now rewrite lookup_delete_eq.
  - unfold off, emit. destruct (events !! name) as [ls|] eqn:E.
    + now rewrite lookup_delete_eq.
    + now rewrite E.
Qed.

End EventEmitterMoreFacts.

Section EventEmitterMoreExamples.
Import EventEmitter.

(** Published once, the three handlers lose the one registered for one
    call; a second publication calls handler 1, then handler 3. *)
Lemma emit_drops_once_listeners_witness :
  fst (emit "e" three_handlers) !! "e"
  = Some [mkListener 3 false 5; mkListener 1 false 0] /\
  snd (emit "e" (fst (emit "e" three_handlers))) = [1; 3]%nat.
Proof.
  exact (emit_drops_once_listeners "e" three_handlers
           [mkListener 3 false 5; mkListener 1 false 0; mkListener 2 true 0]
           eq_refl).
Defined.

(** A fourth handler at priority 5 goes behind handler 3, of the same
    priority, and in front of handlers 1 and 2. *)
Lemma on_places_the_listener_witness :
  on "e" 4%nat (mkOptions None (Some 5%Z)) three_handlers !! "e"
  = Some [mkListener 3 false 5; mkListener 4 false 5;
          mkListener 1 false 0; mkListener 2 true 0].
Proof.
  apply (on_places_the_listener "e" 4%nat (mkOptions None (Some 5%Z))
           three_handlers
           [mkListener 3 false 5; mkListener 1 false 0; mkListener 2 true 0]
           eq_refl).
  unfold descending.
  repeat (constructor; try (cbn; lia)).
Defined.

(** After registrations at priorities 0, 7 and 3, a removal and a
    publication, the array is in descending priority. *)
Lemma listeners_stay_in_descending_priority_witness :
  StronglySorted (fun a b => (priority b <= priority a)%Z)
    [mkListener 2 false 7; mkListener 3 true 3].
Proof.
  exact (listeners_stay_in_descending_priority
           [op_on "e" 1%nat no_options;
            op_on "e" 2%nat (mkOptions None (Some 7%Z));
            op_on "e" 3%nat (mkOptions (Some true) (Some 3%Z));
            op_off "e" (Some 1%nat)]
           "e" [mkListener 2 false 7; mkListener 3 true 3] eq_refl).
Defined.

(** Handler 1 registered twice among the three handlers: [off] removes
    one of the two registrations. *)
Lemma off_removes_one_registration_witness :
  listenerCount "e" (off "e" (Some 1%nat) (on "e" 1%nat no_options three_handlers))
  = 3%nat.
Proof.
  exact (proj1 (off_removes_one_registration "e" 1%nat
                  (on "e" 1%nat no_options three_handlers)
                  [mkListener 3 false 5; mkListener 1 false 0;
                   mkListener 2 true 0; mkListener 1 false 0]
                  eq_refl)).
Defined.

End EventEmitterMoreExamples.

(** ** The data manager: lookups, notes and preferences *)

Section DataManagerLookupFacts.
Import DataManager.
Local Open Scope Q_scope.

Lemma lookup_boxes_some boxes (table : gmap string record) lat lng d :
  lookup_boxes boxes (Some table) lat lng = Returns (Some d) <->
  exists pre country b post r,
    boxes = pre ++ (country, b) :: post /\
    Forall (fun cb => inside lat lng (snd cb) = false) pre /\
    inside lat lng b = true /\
    table !! country = Some r /\ d = spread country r.
Proof.
  split.
  - induction boxes as [|[c b] boxes IH]; simpl; [discriminate|].
    destruct (inside lat lng b) eqn:Hb.
    + destruct (table !! c) as [r|] eqn:Hr; [|discriminate].
      intros H. inversion H; subst.
      exists [], c, b, boxes, r. repeat split; auto.
    + intros H. destruct (IH H) as (pre & c' & b' & post & r & -> & Hp & Hb' & Hr & ->).
      exists ((c, b) :: pre), c', b', post, r. repeat split; auto.
  - intros (pre & c & b & post & r & -> & Hp & Hb & Hr & ->).
    rewrite lookup_boxes_skip by exact Hp. simpl. now rewrite Hb, Hr.
Qed.

Lemma lookup_boxes_throws boxes engagements lat lng :
  lookup_boxes boxes engagements lat lng = Throws <->
  engagements = None /\ existsb (fun cb => inside lat lng (snd cb)) boxes = true.
Proof.
  induction boxes as [|[c b] boxes IH]; simpl.
  - split; [discriminate | intros [_ H]; discriminate].
  - destruct (inside lat lng b) eqn:Hb; simpl.
    + destruct engagements as [table|].
      * destruct (table !! c); split; try discriminate; intros [H _]; discriminate.
      * split; auto.
    + exact IH.
Qed.

Lemma lookup_boxes_outside boxes engagements lat lng :
  existsb (fun cb => inside lat lng (snd cb)) boxes = false ->
  lookup_boxes boxes engagements lat lng = Returns None.
Proof.
  induction boxes as [|[c b] boxes IH]; simpl; [reflexivity|].
  intros H. apply orb_false_iff in H. destruct H as [Hb H].
  rewrite Hb. now apply IH.
Qed.

(** X6: with a loaded table, [getEngagementByCoords] returns an object
    exactly when the first box of [countryBounds] that holds the point
    belongs to a country with an entry; the object is that entry with the
    country's code (unless the entry carries its own). *)
Theorem getEngagementByCoords_returns_the_first_box
  (table : gmap string record) (lat lng t : Q) (d : engagementData) :
  getEngagementByCoords (Some table) lat lng t = Returns (Some d) <->
  exists pre country b post r,
    countryBounds = pre ++ (country, b) :: post /\
    Forall (fun cb => inside lat lng (snd cb) = false) pre /\
    inside lat lng b = true /\
    table !! country = Some r /\ d = spread country r.
Proof. apply lookup_boxes_some. Qed.

(** X7: [getEngagementByCoords] throws exactly when the table is still
    [null] and the point lies in some box; outside every box it returns
    [null], loaded or not. *)
Theorem getEngagementByCoords_throws_only_unloaded_inside
  (engagements : engagements_t) (lat lng t : Q) :
  (getEngagementByCoords engagements lat lng t = Throws <->
   engagements = None /\
   existsb (fun cb => inside lat lng (snd cb)) countryBounds = true) /\
  (existsb (fun cb => inside lat lng (snd cb)) countryBounds = false ->
   getEngagementByCoords engagements lat lng t = Returns None).
Proof.
  split; [apply lookup_boxes_throws | apply lookup_boxes_outside].
Qed.

End DataManagerLookupFacts.

Section NotesFacts.
Import DataManager.
Local Open Scope Q_scope.

Lemma setNote_lookup now stamp key n m k :
  getNote k (snd (setNote now stamp key n m))
  = if decide (key = k) then Some (fst (setNote now stamp key n m))
    else getNote k m.
Proof.
  unfold getNote, setNote. simpl. destruct (decide (key = k)) as [->|Hne].
  - now rewrite lookup_insert_eq.
  - now rewrite lookup_insert_ne.
Qed.

Lemma setNotes_keeps calls : forall m key old,
  getNote key m = Some old ->
  exists nd, getNote key (setNotes calls m) = Some nd /\
             createdAt nd = createdAt old /\
             (id old = key -> id nd = key) /\
             (untouched key calls -> nd = old).
Proof.
  induction calls as [|[[[now stamp] k] n] calls IH]; intros m key old Hold; simpl.
  - exists old. auto.
  - destruct (decide (k = key)) as [->|Hne].
    + destruct (IH (snd (setNote now stamp key n m)) key
                  (fst (setNote now stamp key n m))) as (nd & H1 & H2 & H3 & H4).
      { rewrite setNote_lookup. now destruct (decide (key = key)). }
      exists nd. split; [exact H1|]. split.
      * rewrite H2. unfold setNote. simpl. unfold getNote in Hold.
        now rewrite Hold.
      * split; [intros _; now apply H3|].
        intros Hu. inversion Hu as [|? ? Hc _]; subst. simpl in Hc.
        congruence.
    + destruct (IH (snd (setNote now stamp k n m)) key old)
        as (nd & H1 & H2 & H3 & H4).
      { rewrite setNote_lookup. now destruct (decide (k = key)). }
      exists nd. split; [exact H1|]. split; [exact H2|]. split; [exact H3|].
      intros Hu. inversion Hu; subst. now apply H4.
Qed.

(** X8: a note created by [setNote] under a new key is stored with the
    key as its [id] and the dates of the call as [updatedAt] and
    [createdAt]; through every later [setNote], on this key or others, it
    keeps that [id] and that [createdAt], and with no later call on its key
    [getNote] returns it unchanged. *)
Theorem note_keeps_its_creation_stamp
  (m : manager) (now : Q) (stamp : string * string) (key : string) (n : note)
  (calls : list (Q * (string * string) * string * note)) :
  getNote key m = None ->
  let created := setNote now stamp key n m in
  exists nd,
    getNote key (setNotes calls (snd created)) = Some nd /\
    createdAt nd = Some (snd stamp) /\ id nd = key /\
    (untouched key calls -> nd = fst created) /\
    fst created
    = mkNoteData key (fst stamp) (Some (snd stamp)) (note_type n) (note_text n).
Proof.
  intros Hnone created.
  assert (Hc : fst created
               = mkNoteData key (fst stamp) (Some (snd stamp))
                   (note_type n) (note_text n)).
  { unfold created, setNote. simpl. unfold getNote in Hnone.
    now rewrite Hnone. }
  destruct (setNotes_keeps calls (snd created) key (fst created))
    as (nd & H1 & H2 & H3 & H4).
  { unfold created. rewrite setNote_lookup. now destruct (decide (key = key)). }
  exists nd. split; [exact H1|]. split; [now rewrite H2, Hc|].
  split; [apply H3; now rewrite Hc|]. split; [exact H4 | exact Hc].
Qed.





(** X10: [deleteNote] of a missing key returns [false] and changes
    nothing; of a stored key it returns [true], removes that note alone,
    emits [data:note-deleted] and saves at once, leaving the pending
    delayed save in place; a second deletion is of the first kind. *)
Theorem deleteNote_removes_and_saves_at_once (m : manager) (key : string) :
  (getNote key m = None -> deleteNote key m = (false, m)) /\
  (forall old, getNote key m = Some old ->
     let m' := snd (deleteNote key m) in
     fst (deleteNote key m) = true /\
     getNote key m' = None /\
     (forall k, k <> key -> getNote k m' = getNote k m) /\
     emitted m' = emitted m ++ [note_deleted key; user_saved] /\
     fst (storage m') = Some (userNotes m') /\
     timers m' = timers m /\
     deleteNote key m' = (false, m')).
Proof.
  unfold getNote. split.
  - intros H. unfold deleteNote. now rewrite H.
  - intros old H. unfold deleteNote. rewrite H. simpl.
    rewrite lookup_delete_eq. repeat split.
    + intros k Hk. now rewrite lookup_delete_ne.
    + now rewrite <- app_assoc.
Qed.

(** X11: for a key that is no name of [Object.prototype],
    [getPreference] returns the value last set, also when it is [false],
    [0] or the empty string, and the default only when the value is [null]
    or was never set; [setPreference] saves at once and touches no other
    key, and after [resetPreferences] every such key gives the default. *)
Theorem getPreference_falls_back_on_null_only
  (m : manager) (key : string) (v d : pvalue) :
  inherited key = false ->
  let m' := setPreference key v m in
  getPreference key d m' = (match v with PNull => d | _ => v end) /\
  (forall k, k <> key -> getPreference k d m' = getPreference k d m) /\
  snd (storage m') = Some (userPreferences m') /\
  (forall k, inherited k = false ->
             getPreference k d (resetPreferences m') = d).
Proof.
  intros _.
  unfold getPreference, setPreference, resetPreferences. simpl.
  split; [|split; [|split]].
  - rewrite lookup_insert_eq. destruct v; reflexivity.
  - intros k Hk. rewrite lookup_insert_ne by congruence. reflexivity.
  - reflexivity.
  - intros k _. now rewrite lookup_empty.
Qed.

End NotesFacts.

Section DataManagerMoreExamples.
Import DataManager.
Local Open Scope Q_scope.

(** Singapore (1.3, 103.8) lies outside the box of India and inside its
    own: the entry of SGP is returned with its code. *)
Lemma getEngagementByCoords_returns_the_first_box_witness :
  getEngagementByCoords
    (Some {[ "SGP" := mkRecord None None "singapore" ]})
    (13 # 10) (1038 # 10) default_tolerance
  = Returns (Some (mkEngagementData (Some "SGP") None "singapore")).
Proof.
  apply (proj2 (getEngagementByCoords_returns_the_first_box
                  {[ "SGP" := mkRecord None None "singapore" ]}
                  (13 # 10) (1038 # 10) default_tolerance
                  (mkEngagementData (Some "SGP") None "singapore"))).
  exists [("IND", mkBounds 6 37 68 97)], "SGP",
         (mkBounds (11 # 10) (15 # 10) (1036 # 10) 104),
         (List.skipn 2 countryBounds),
         (mkRecord None None "singapore").
  split; [reflexivity|].
  split; [repeat constructor|].
  split; [reflexivity|].
  split; reflexivity.
Defined.

(** Before the table is loaded, a point in India throws and a point in
    the Atlantic gives [null]. *)
Lemma getEngagementByCoords_throws_only_unloaded_inside_witness :
  getEngagementByCoords None 20 78 default_tolerance = Throws /\
  getEngagementByCoords None 40 (-30) default_tolerance = Returns None.
Proof.
  split.
  - apply (proj2 (proj1 (getEngagementByCoords_throws_only_unloaded_inside
                           None 20 78 default_tolerance))).
    split; reflexivity.
  - apply (proj2 (getEngagementByCoords_throws_only_unloaded_inside
                    None 40 (-30) default_tolerance)).
    reflexivity.
Defined.

(** A note written on 1 January and rewritten on 3 January keeps the
    first date as its creation stamp. *)
Lemma note_keeps_its_creation_stamp_witness :
  exists nd,
    getNote "a"
      (setNotes two_calls
         (snd (setNote 0 ("2024-01-01", "2024-01-01") "a"
                 (mkNote None "first") new_manager)))
    = Some nd /\
    createdAt nd = Some "2024-01-01" /\ id nd = "a".
Proof.
  destruct (note_keeps_its_creation_stamp new_manager 0
              ("2024-01-01", "2024-01-01") "a"
              (mkNote None "first") two_calls eq_refl)
    as (nd & H1 & H2 & H3 & _).
  exists nd. split; [exact H1|]. split; [exact H2 | exact H3].
Defined.


(** A stored note is deleted once: the second call returns [false]. *)
Lemma deleteNote_removes_and_saves_at_once_witness :
  let m := snd (setNote 0 ("2024-01-01", "2024-01-01") "a" (mkNote None "first")
                  new_manager) in
  fst (deleteNote "a" m) = true /\
  getNote "a" (snd (deleteNote "a" m)) = None /\
  fst (deleteNote "a" (snd (deleteNote "a" m))) = false.
Proof.
  intros m.
  destruct (proj2 (deleteNote_removes_and_saves_at_once m "a")
              (fst (setNote 0 ("2024-01-01", "2024-01-01") "a" (mkNote None "first")
                      new_manager))
              eq_refl)
    as (H1 & H2 & _ & _ & _ & _ & H3).
  split; [exact H1|]. split; [exact H2|].
  exact (f_equal fst H3).
Defined.

(** A preference set to [false] is read back as [false], not as the
    default; one set to [null] gives the default. *)
Lemma getPreference_falls_back_on_null_only_witness :
  getPreference "autoRotate" (PBool true)
    (setPreference "autoRotate" (PBool false) new_manager) = PBool false /\
  getPreference "theme" (PStr "dark")
    (setPreference "theme" PNull new_manager) = PStr "dark".
Proof.
  split.
  - exact (proj1 (getPreference_falls_back_on_null_only new_manager
                    "autoRotate" (PBool false) (PBool true) eq_refl)).
  - exact (proj1 (getPreference_falls_back_on_null_only new_manager
                    "theme" PNull (PStr "dark") eq_refl)).
Defined.

End DataManagerMoreExamples.

(** ** The scene: the clock over a whole run, and the pointer *)

Section SceneMoreFacts.
Import Scene.
Local Open Scope Q_scope.

Lemma Clock_start_consistent now c : clock_consistent (Clock_start now c).
Proof. intros _. simpl. field. Qed.

Lemma Clock_getDelta_consistent now c :
  clock_consistent c -> clock_consistent (snd (Clock_getDelta now c)).
Proof.
  intros H. unfold Clock_getDelta.
  destruct (autoStart c && negb (running c)); simpl.
  - apply Clock_start_consistent.
  - destruct (running c) eqn:R; simpl; [|exact H].
    intros _. simpl. rewrite (H R). field.
Qed.

Lemma updateStats_clock t s : clock (updateStats t s) = clock s.
Proof. unfold updateStats. destruct (Qleb _ _); reflexivity. Qed.

Lemma animate_consistent now s :
  clock_consistent (clock s) -> clock_consistent (clock (animate now s)).
Proof.
  intros H. unfold animate. destruct (isAnimating s); simpl; [|exact H].
  destruct (isPaused s); simpl; [exact H|].
  destruct (Clock_getDelta now (clock s)) as [d c1] eqn:E1.
  rewrite updateStats_clock. simpl.
  unfold Clock_getElapsedTime. simpl.
  apply Clock_getDelta_consistent.
  replace c1 with (snd (Clock_getDelta now (clock s))) by now rewrite E1.
  now apply Clock_getDelta_consistent.
Qed.

Lemma step_consistent a s :
  clock_consistent (clock s) -> clock_consistent (clock (step a s)).
Proof.
  intros H. destruct a; simpl.
  - unfold start. destruct (isAnimating s); [exact H|]. simpl.
    now apply animate_consistent.
  - unfold frame. destruct (requested s); [|exact H].
    now apply animate_consistent.
  - exact H.
  - apply Clock_start_consistent.
  - exact H.
Qed.

Lemma run_consistent tasks : forall s,
  clock_consistent (clock s) -> clock_consistent (clock (run tasks s)).
Proof.
  induction tasks as [|a tasks IH]; intros s H; simpl; [exact H|].
  apply IH. now apply step_consistent.
Qed.

Lemma getDelta_running now c :
  running c = true ->
  Clock_getDelta now c
  = ((now - oldTime c) / 1000,
     mkClock (autoStart c) (startTime c) now
       (elapsedTime c + (now - oldTime c) / 1000) true).
Proof.
  intros R. unfold Clock_getDelta. rewrite R, andb_false_r. reflexivity.
Qed.

Lemma getDelta_fresh now c :
  autoStart c = true -> running c = false ->
  Clock_getDelta now c = (0, Clock_start now c).
Proof. intros A R. unfold Clock_getDelta. now rewrite A, R. Qed.

Lemma animate_eq now s :
  isAnimating s = true -> isPaused s = false ->
  animate now s
  = let c1 := snd (Clock_getDelta now (clock s)) in
    let s1 := updateStats now (set_clock c1 (set_requested true s)) in
    emit (scene_animate (fst (Clock_getDelta now (clock s)))
            (fst (Clock_getElapsedTime now c1)) now)
      (set_clock (snd (Clock_getElapsedTime now c1)) s1).
Proof.
  intros Ha Hp. unfold animate. rewrite Ha. cbv beta iota zeta delta [negb].
  change (isPaused (set_requested true s)) with (isPaused s). rewrite Hp.
  change (clock (set_requested true s)) with (clock s).
  destruct (Clock_getDelta now (clock s)) as [d c1]. simpl fst. simpl snd.
  rewrite updateStats_clock. simpl clock.
  unfold Clock_getElapsedTime. reflexivity.
Qed.

(** What a frame that is delivered reports. *)
Lemma animate_reports now s :
  isAnimating s = true -> isPaused s = false ->
  autoStart (clock s) = true ->
  exists d e,
    last_animate (animate now s) = Some (d, e) /\
    e == elapsedTime (clock (animate now s)) /\
    oldTime (clock (animate now s)) = now /\
    running (clock (animate now s)) = true /\
    (running (clock s) = false -> d == 0) /\
    (running (clock s) = true ->
     d == (now - oldTime (clock s)) / 1000 /\
     e == elapsedTime (clock s) + d /\
     startTime (clock (animate now s)) = startTime (clock s)).
Proof.
  intros Ha Hp Hauto. rewrite (animate_eq now s Ha Hp). cbv zeta.
  rewrite last_animate_emit. do 2 eexists. split; [reflexivity|].
  destruct (running (clock s)) eqn:R.
  - rewrite (getDelta_running now (clock s) R). simpl fst. simpl snd.
    unfold Clock_getElapsedTime.
    rewrite getDelta_running by reflexivity. simpl.
    repeat split; try reflexivity; try discriminate.
    field.
  - rewrite (getDelta_fresh now (clock s) Hauto R). simpl fst. simpl snd.
    unfold Clock_getElapsedTime.
    rewrite getDelta_running by reflexivity. simpl.
    repeat split; try reflexivity; discriminate.
Qed.

Lemma updateStats_flags t s :
  isAnimating (updateStats t s) = isAnimating s /\
  isPaused (updateStats t s) = isPaused s /\
  requested (updateStats t s) = requested s.
Proof. unfold updateStats. destruct (Qleb _ _); simpl; auto. Qed.

Lemma Clock_getDelta_autoStart now c :
  autoStart (snd (Clock_getDelta now c)) = autoStart c.
Proof.
  unfold Clock_getDelta. destruct (autoStart c && negb (running c)); simpl;
    [reflexivity|]. destruct (running c); reflexivity.
Qed.

Lemma animate_autoStart now s :
  autoStart (clock (animate now s)) = autoStart (clock s).
Proof.
  unfold animate. destruct (isAnimating s); simpl; [|reflexivity].
  destruct (isPaused s); simpl; [reflexivity|].
  destruct (Clock_getDelta now (clock s)) as [d c1] eqn:E1.
  rewrite updateStats_clock. simpl. unfold Clock_getElapsedTime. simpl.
  rewrite Clock_getDelta_autoStart.
  replace c1 with (snd (Clock_getDelta now (clock s))) by now rewrite E1.
  apply Clock_getDelta_autoStart.
Qed.

Lemma step_autoStart a s :
  autoStart (clock (step a s)) = autoStart (clock s).
Proof.
  destruct a; simpl; try reflexivity.
  - unfold start. destruct (isAnimating s); [reflexivity|]. simpl.
    now rewrite animate_autoStart.
  - unfold frame. destruct (requested s); [|reflexivity].
    now rewrite animate_autoStart.
Qed.

Lemma run_autoStart tasks : forall s,
  autoStart (clock (run tasks s)) = autoStart (clock s).
Proof.
  induction tasks as [|a tasks IH]; intros s; simpl; [reflexivity|].
  now rewrite IH, step_autoStart.
Qed.

(** X12: in every state the loop can reach, a frame that is delivered
    reports as [elapsedTime] the time from the last (re)start of the clock
    to the frame, and, when the clock was already running, as [deltaTime]
    the time since the clock was last read. *)
Theorem elapsed_time_is_time_since_the_clock_started
  (tasks : list action) (now : Q) :
  let s := run tasks Scene.initial in
  isAnimating s = true -> isPaused s = false -> requested s = true ->
  exists d e,
    last_animate (frame now s) = Some (d, e) /\
    e == (now - startTime (clock (frame now s))) / 1000 /\
    (running (clock s) = true ->
     d == (now - oldTime (clock s)) / 1000 /\
     startTime (clock (frame now s)) = startTime (clock s)).
Proof.
  intros s Ha Hp Hr.
  assert (Hauto : autoStart (clock s) = true)
    by (unfold s; now rewrite run_autoStart).
  assert (Hcons : clock_consistent (clock s)).
  { unfold s. apply run_consistent. intros H. discriminate. }
  unfold frame. rewrite Hr.
  destruct (animate_reports now (set_requested false s) Ha Hp Hauto)
    as (d & e & H1 & H2 & H3 & H4 & _ & H6).
  exists d, e. split; [exact H1|]. split.
  - rewrite H2.
    pose proof (animate_consistent now (set_requested false s) Hcons) as Hc.
    rewrite (Hc H4), H3. reflexivity.
  - intros R. destruct (H6 R) as (Hd & _ & Hs). split; assumption.
Qed.

Lemma frames_stopped ts : forall s, requested s = false -> frames ts s = s.
Proof.
  induction ts as [|t ts IH]; intros s H; simpl; [reflexivity|].
  unfold frame at 1. rewrite H. now apply IH.
Qed.

(** X13: [stop()] ends the delivery of frames but leaves the clock
    running, and [start()] does not restart it: the frame run by the next
    [start()] reports as [deltaTime] the whole time since the last frame
    before the stop, and [elapsedTime] includes it. *)
Theorem restart_after_stop_reports_the_stopped_time
  (s : state) (idle : list Q) (ts : Q) :
  autoStart (clock s) = true -> running (clock s) = true ->
  let stopped := frames idle (stop s) in
  stopped = stop s /\
  exists d e,
    last_animate (start ts stopped) = Some (d, e) /\
    d == (ts - oldTime (clock s)) / 1000 /\
    e == elapsedTime (clock s) + (ts - oldTime (clock s)) / 1000.
Proof.
  intros Hauto R stopped.
  assert (Hs : stopped = stop s) by (apply frames_stopped; reflexivity).
  split; [exact Hs|]. rewrite Hs. unfold start. simpl.
  match goal with |- context [animate ts ?x] =>
    destruct (animate_reports ts x eq_refl eq_refl Hauto)
      as (d & e & H1 & _ & _ & _ & _ & H6) end.
  destruct (H6 R) as (Hd & He & _).
  exists d, e. split.
  - unfold last_animate in *. simpl. rewrite List.filter_app. simpl.
    rewrite app_nil_r. exact H1.
  - simpl in Hd, He. split; [exact Hd|]. rewrite He, Hd. reflexivity.
Qed.

(** X14: for a pointer inside the canvas, the coordinates stored by
    [handleMouseMove] lie in [-1, 1] on both axes, the left edge at [-1]
    and the top edge at [1], and the pointer position is recovered from
    them. *)
Theorem mouse_of_event_is_normalised (r : rect) (clientX clientY : Q) :
  0 < width r -> 0 < height r ->
  left r <= clientX <= left r + width r ->
  top r <= clientY <= top r + height r ->
  let m := mouse_of_event r clientX clientY in
  (-1 <= fst m <= 1 /\ -1 <= snd m <= 1) /\
  clientX == left r + (fst m + 1) / 2 * width r /\
  clientY == top r + (1 - snd m) / 2 * height r /\
  (clientX == left r -> fst m == -1) /\
  (clientY == top r -> snd m == 1).
Proof.
  intros Hw Hh [Hx1 Hx2] [Hy1 Hy2]. unfold mouse_of_event. simpl.
  set (u := (clientX - left r) / width r).
  set (v := (clientY - top r) / height r).
  assert (Hu : u * width r == clientX - left r).
  { unfold u. field. intros H0. rewrite H0 in Hw. now apply Qlt_irrefl in Hw. }
  assert (Hv : v * height r == clientY - top r).
  { unfold v. field. intros H0. rewrite H0 in Hh. now apply Qlt_irrefl in Hh. }
  assert (Hu01 : 0 <= u /\ u <= 1).
  { split.
    - destruct (Qlt_le_dec u 0) as [H|H]; [exfalso; nra | exact H].
    - destruct (Qlt_le_dec 1 u) as [H|H]; [exfalso; nra | exact H]. }
  assert (Hv01 : 0 <= v /\ v <= 1).
  { split.
    - destruct (Qlt_le_dec v 0) as [H|H]; [exfalso; nra | exact H].
    - destruct (Qlt_le_dec 1 v) as [H|H]; [exfalso; nra | exact H]. }
  destruct Hu01 as [Hu0 Hu1]. destruct Hv01 as [Hv0 Hv1].
  split; [split; split; lra|].
  split.
  { assert (E : (u * 2 - 1 + 1) / 2 * width r == u * width r) by field.
    rewrite E, Hu. ring. }
  split.
  { assert (E : (1 - (- v * 2 + 1)) / 2 * height r == v * height r)
      by field.
    rewrite E, Hv. ring. }
  split.
  - intros H. destruct (Qlt_le_dec 0 u) as [H'|H']; [exfalso; nra | lra].
  - intros H. destruct (Qlt_le_dec 0 v) as [H'|H']; [exfalso; nra | lra].
Qed.

End SceneMoreFacts.

Section SceneMoreExamples.
Import Scene.
Local Open Scope Q_scope.

(** Started at 0 ms, paused after the frame at 1000 ms and resumed at
    3000 ms: the frame at 3500 ms reports the time since the resume. *)
Lemma elapsed_time_is_time_since_the_clock_started_witness :
  let s := run [Start 0; Frame 1000; Pause; Resume 3000] Scene.initial in
  exists d e,
    last_animate (frame 3500 s) = Some (d, e) /\
    e == (3500 - startTime (clock (frame 3500 s))) / 1000 /\
    startTime (clock (frame 3500 s)) = 3000.
Proof.
  intros s.
  destruct (elapsed_time_is_time_since_the_clock_started
              [Start 0; Frame 1000; Pause; Resume 3000] 3500
              eq_refl eq_refl eq_refl)
    as (d & e & H1 & H2 & H3).
  exists d, e. split; [exact H1|]. split; [exact H2|].
  exact (proj2 (H3 eq_refl)).
Defined.

(** Stopped after the frame at 2000 ms and started again at 5000 ms: the
    first frame reports a step of 3 s and an elapsed time of 5 s. *)
Lemma restart_after_stop_reports_the_stopped_time_witness :
  frames [2500; 3000] (stop two_seconds_in) = stop two_seconds_in /\
  exists d e,
    last_animate (start 5000 (frames [2500; 3000] (stop two_seconds_in)))
    = Some (d, e) /\
    d == 3 /\ e == 5.
Proof.
  destruct (restart_after_stop_reports_the_stopped_time
              two_seconds_in [2500; 3000] 5000 eq_refl eq_refl)
    as (H0 & d & e & H1 & H2 & H3).
  split; [exact H0|].
  exists d, e. split; [exact H1|]. split.
  - apply (Qeq_trans _ _ _ H2). reflexivity.
  - apply (Qeq_trans _ _ _ H3). reflexivity.
Defined.

(** The top left corner of a canvas of 800 by 600 at (10, 20) is stored
    as (-1, 1). *)
Lemma mouse_of_event_is_normalised_witness :
  let m := mouse_of_event (mkRect 10 20 800 600) 10 20 in
  fst m == -1 /\ snd m == 1.
Proof.
  intros m.
  assert (W : 0 < width (mkRect 10 20 800 600)) by reflexivity.
  assert (H : 0 < height (mkRect 10 20 800 600)) by reflexivity.
  assert (X : left (mkRect 10 20 800 600) <= 10
              <= left (mkRect 10 20 800 600) + width (mkRect 10 20 800 600))
    by (split; discriminate).
  assert (Y : top (mkRect 10 20 800 600) <= 20
              <= top (mkRect 10 20 800 600) + height (mkRect 10 20 800 600))
    by (split; discriminate).
  destruct (mouse_of_event_is_normalised (mkRect 10 20 800 600) 10 20
              W H X Y) as (_ & _ & _ & Hx & Hy).
  split; [apply Hx | apply Hy]; reflexivity.
Defined.

End SceneMoreExamples.

(** ** The controls: the toggle, the release and the idle timer *)

Section ControlsMoreFacts.
Import Controls.
Local Open Scope Q_scope.

Lemma stopAutoRotate_orbit c a :
  orbitControls c = Some a ->
  orbitControls (stopAutoRotate c) = Some false /\
  emitted (stopAutoRotate c) = emitted c /\
  isInteracting (state (stopAutoRotate c)) = isInteracting (state c).
Proof.
  intros Ho. unfold stopAutoRotate.
  destruct (autoRotateTimeout (state c)); simpl; rewrite Ho; simpl; auto.
Qed.

Lemma scheduleAutoRotate_orbit now c a :
  orbitControls c = Some a ->
  orbitControls (scheduleAutoRotate now c) = Some false /\
  emitted (scheduleAutoRotate now c) = emitted c /\
  isInteracting (state (scheduleAutoRotate now c)) = isInteracting (state c).
Proof.
  intros Ho. destruct (stopAutoRotate_orbit c a Ho) as (H1 & H2 & H3).
  unfold scheduleAutoRotate. simpl. auto.
Qed.

(** X15: [toggleAutoRotate] leaves [autoRotate] off and reports [false]
    whichever way it was: turning it off stops it, and turning it on goes
    through [scheduleAutoRotate], which stops it and arms the idle timer
    for 3000 ms later. *)
Theorem toggleAutoRotate_never_turns_it_on (c : controls) (a : bool) (now : Q) :
  one_pending c -> orbitControls c = Some a ->
  let c' := toggleAutoRotate now c in
  orbitControls c' = Some false /\
  emitted c' = emitted c ++ [auto_rotate false] /\
  (a = false ->
   timers c' = [(next_timer c, now + 3000)] /\
   autoRotateTimeout (state c') = Some (next_timer c)) /\
  (a = true -> timers c' = []).
Proof.
  intros Hp Ho c'. unfold c', toggleAutoRotate. rewrite Ho.
  destruct a; cbv zeta; cbv beta iota delta [negb].
  - destruct (stopAutoRotate_orbit (set_orbit (Some false) c) false eq_refl)
      as (H1 & H2 & _).
    destruct (stopAutoRotate_spec (set_orbit (Some false) c) Hp)
      as (H3 & _).
    unfold emit. cbn [orbitControls emitted timers state].
    rewrite H1, H2. cbn [default from_option id].
    split; [reflexivity|]. split; [reflexivity|].
    split; [discriminate|]. intros _. exact H3.
  - destruct (scheduleAutoRotate_orbit now (set_orbit (Some true) c) true eq_refl)
      as (H1 & H2 & _).
    destruct (scheduleAutoRotate_spec now (set_orbit (Some true) c) Hp)
      as (H3 & H4 & _).
    unfold emit. cbn [orbitControls emitted timers state].
    rewrite H1, H2. cbn [default from_option id].
    split; [reflexivity|]. split; [reflexivity|].
    split; [|discriminate]. intros _. split; [exact H3 | exact H4].
Qed.

Lemma last_wasClick_emit w c : last_wasClick (emit (mouse_up w) c) = Some w.
Proof.
  unfold last_wasClick, emit. simpl. now rewrite List.last_last.
Qed.

(** X16: the [wasClick] flag of [controls:mouse-up] is computed after
    [isDragging] has been reset: it says whether the press lasted less than
    200 ms, whatever the pointer did in between; and every cycle ends with
    [isDragging] off. *)
Theorem wasClick_ignores_the_drag
  (c : controls) (t0 t1 : Q) (p0 : vec2) (moves : list vec2) :
  clickThreshold (state c) == 200 ->
  let c' := cycle t0 p0 moves t1 c in
  last_wasClick c' = Some (Qltb (t1 - t0) 200) /\
  isDragging c' = false.
Proof.
  intros Hth c'.
  destruct (moves_spec moves (handleMouseDown t0 p0 c)) as (_ & Hs & _).
  simpl in Hs.
  assert (Hlt : Qltb (t1 - t0) (clickThreshold (state c))
                = Qltb (t1 - t0) 200).
  { destruct (Qltb (t1 - t0) 200) eqn:E.
    - apply Qltb_lt. apply Qltb_lt in E. rewrite Hth. exact E.
    - apply Qltb_ge. apply Qltb_ge in E. rewrite Hth. exact E. }
  unfold c', cycle, handleMouseUp. cbv zeta.
  rewrite last_wasClick_emit. split; [|reflexivity].
  f_equal.
  match goal with |- negb (isDragging (set_dragging false ?x)) && _ = _ =>
    change (isDragging (set_dragging false x)) with false end.
  simpl negb. rewrite andb_true_l.
  match goal with |- Qltb _ (clickThreshold (state (set_dragging false ?x))) = _ =>
    change (state (set_dragging false x)) with (state x) end.
  match goal with |- context [if ?b then handleClick ?x else ?x] =>
    replace (state (if b then handleClick x else x)) with (state x)
      by (destruct b; reflexivity) end.
  rewrite Hs. simpl. exact Hlt.
Qed.

(** X17: after the end of an interaction the idle timer does nothing
    before 3000 ms have passed; run at 3000 ms or later it turns
    [autoRotate] on and emits [controls:auto-rotate-started] once, and no
    later run of the timers changes anything. *)
Theorem idle_timer_fires_once_when_left_alone
  (c : controls) (a : bool) (t0 t : Q) :
  one_pending c -> orbitControls c = Some a ->
  let c1 := on_end t0 c in
  (t < t0 + 3000 -> run_timers t c1 = c1) /\
  (t0 + 3000 <= t ->
   let c2 := run_timers t c1 in
   emitted c2 = emitted c ++ [interaction_end; auto_rotate_started] /\
   orbitControls c2 = Some true /\
   timers c2 = [] /\
   forall t', run_timers t' c2 = c2).
Proof.
  intros Hp Ho c1.
  set (c0 := set_state (set_interacting false (state c)) c).
  assert (Hp0 : one_pending c0) by exact Hp.
  destruct (scheduleAutoRotate_spec t0 c0 Hp0) as (Ht & Hh & _).
  destruct (scheduleAutoRotate_orbit t0 c0 a Ho) as (Hob & Hem & Hint).
  assert (Ht1 : timers c1 = [(next_timer c, t0 + 3000)]) by exact Ht.
  split.
  - intros Hlt. now apply (run_timers_early t c1 _ _ Ht1).
  - intros Hle c2.
    assert (E : Qleb (t0 + 3000) t = true) by now apply Qleb_le.
    assert (Hc2 : c2 = autoRotate_callback
                         (set_timers [] (next_timer c1) c1)).
    { unfold c2, run_timers. rewrite Ht1. cbn [fire_due].
      rewrite Ht1, E. cbn [existsb fst]. rewrite Pos.eqb_refl.
      cbn [orb andb]. now rewrite clearTimeout_single. }
    assert (Hfire : c2 = emit auto_rotate_started
                           (set_orbit (Some true)
                              (set_timers [] (next_timer c1) c1))).
    { rewrite Hc2. unfold autoRotate_callback.
      change (orbitControls (set_timers [] (next_timer c1) c1))
        with (orbitControls (scheduleAutoRotate t0 c0)).
      rewrite Hob.
      change (isInteracting (state (set_timers [] (next_timer c1) c1)))
        with (isInteracting (state (scheduleAutoRotate t0 c0))).
      rewrite Hint. reflexivity. }
    rewrite Hfire.
    split.
    + change (emitted (emit auto_rotate_started
                         (set_orbit (Some true)
                            (set_timers [] (next_timer c1) c1))))
        with ((emitted (scheduleAutoRotate t0 c0) ++ [interaction_end])
              ++ [auto_rotate_started]).
      rewrite Hem, <- app_assoc. reflexivity.
    + split; [reflexivity|]. split; [reflexivity|]. intros t'. reflexivity.
Qed.

End ControlsMoreFacts.

Section ControlsMoreExamples.
Import Controls.
Local Open Scope Q_scope.

(** With auto-rotation off, the toggle at 100 ms leaves it off and arms
    the timer for 3100 ms. *)
Lemma toggleAutoRotate_never_turns_it_on_witness :
  let c' := toggleAutoRotate 100 Controls.initial in
  orbitControls c' = Some false /\
  emitted c' = [auto_rotate false] /\
  timers c' = [(1%positive, 100 + 3000)].
Proof.
  intros c'.
  destruct (toggleAutoRotate_never_turns_it_on Controls.initial false 100
              (or_introl eq_refl) eq_refl)
    as (H1 & H2 & H3 & _).
  split; [exact H1|]. split; [exact H2|].
  exact (proj1 (H3 eq_refl)).
Defined.

(** A drag of 100 pixels released after 150 ms: the release carries
    [wasClick: true]. *)
Lemma wasClick_ignores_the_drag_witness :
  let c' := cycle 0 (mkVec2 0 0) [mkVec2 60 0; mkVec2 100 0] 150
              Controls.initial in
  last_wasClick c' = Some true /\ isDragging c' = false.
Proof.
  exact (wasClick_ignores_the_drag Controls.initial 0 150 (mkVec2 0 0)
           [mkVec2 60 0; mkVec2 100 0] eq_refl).
Defined.

(** An interaction that ends at 0 ms: nothing at 2000 ms, auto-rotation
    on at 5000 ms, and nothing more at 9000 ms. *)
Lemma idle_timer_fires_once_when_left_alone_witness :
  let c1 := on_end 0 Controls.initial in
  run_timers 2000 c1 = c1 /\
  orbitControls (run_timers 5000 c1) = Some true /\
  emitted (run_timers 5000 c1) = [interaction_end; auto_rotate_started] /\
  run_timers 9000 (run_timers 5000 c1) = run_timers 5000 c1.
Proof.
  intros c1.
  pose proof (idle_timer_fires_once_when_left_alone Controls.initial false
                0 2000 (or_introl eq_refl) eq_refl) as H1.
  pose proof (idle_timer_fires_once_when_left_alone Controls.initial false
                0 5000 (or_introl eq_refl) eq_refl) as H2.
  split; [apply (proj1 H1); reflexivity|].
  destruct (proj2 H2) as (E & O & _ & R); [discriminate|].
  split; [exact O|]. split; [exact E|]. exact (R 9000).
Defined.

End ControlsMoreExamples.

(** ** The globe: tweens, picking, arcs, styles and centres *)

Section GlobeTweenMoreFacts.
Import Globe.
Local Open Scope Q_scope.

(** A lone tween in the queue runs to its end and is gone. *)
Lemma lone_tween_runs (s : globe) (A : tween) (cam : camera_t)
  (before : list Q) (tf : Q) (after : list Q) :
  raf s = [A] -> camera s = Some cam -> 0 < duration A ->
  Forall (fun t => t < startTime A + duration A) before ->
  startTime A + duration A <= tf ->
  let s2 := frames (before ++ tf :: after) s in
  complete_count (frames before s) = complete_count s /\
  raf (frames before s) = [A] /\
  complete_count s2 = S (complete_count s) /\
  raf s2 = [] /\
  exists cam', camera s2 = Some cam' /\
               same_vec3 (position cam') (targetPosition A) /\
               lookingAt cam' = targetLookAt A.
Proof.
  intros Hraf Hcam Hd Hbefore Hend s2.
  assert (HA_before : finished before A = false)
    by (apply not_finished_before; assumption).
  assert (HA_end : done_at tf A = true) by (apply done_at_iff; assumption).
  assert (Hraf1 : raf (frames before s) = [A]).
  { rewrite frames_raf, Hraf. simpl. now rewrite HA_before. }
  split.
  { rewrite frames_count, Hraf. simpl. rewrite HA_before. simpl. lia. }
  split; [exact Hraf1|].
  destruct (frames_camera before s cam Hcam) as [cam1 Hcam1].
  assert (HfinA : finished (before ++ tf :: after) A = true).
  { unfold finished. rewrite existsb_app. simpl. rewrite HA_end.
    now rewrite orb_true_r. }
  split.
  { unfold s2. rewrite frames_count, Hraf. simpl. rewrite HfinA. simpl. lia. }
  split.
  { unfold s2. rewrite frames_raf, Hraf. simpl. now rewrite HfinA. }
  unfold s2. rewrite frames_app. simpl.
  assert (Hidle' : raf (frame tf (frames before s)) = []).
  { rewrite frame_raf, Hraf1. simpl. now rewrite HA_end. }
  rewrite (frames_idle after _ Hidle').
  rewrite (frame_camera_last tf (frames before s) [] A cam1 Hraf1 Hcam1).
  eexists. split; [reflexivity|].
  destruct (done_pose A tf HA_end) as [Hp Hl]. split; assumption.
Qed.

(** X18: a camera animation requested while none is running emits
    nothing and stays queued for as long as the frames come before its end;
    the first frame at or after the end completes it: one
    [camera:animation-complete], an empty queue, and the camera at the
    target, looking at the look-at point. *)
Theorem single_tween_completes_once_at_its_target
  (s0 : globe) (cam0 : camera_t) (t0 : Q) (pos look : vec3) (d : Q)
  (before : list Q) (tf : Q) (after : list Q) :
  raf s0 = [] -> camera s0 = Some cam0 -> 0 < d ->
  Forall (fun t => t < t0 + d) before -> t0 + d <= tf ->
  let s1 := animateCameraTo t0 pos look d s0 in
  let s2 := frames (before ++ tf :: after) s1 in
  complete_count (frames before s1) = complete_count s0 /\
  List.length (raf (frames before s1)) = 1%nat /\
  complete_count s2 = S (complete_count s0) /\
  raf s2 = [] /\
  exists cam, camera s2 = Some cam /\
              same_vec3 (position cam) pos /\ lookingAt cam = look.
Proof.
  intros Hidle Hcam Hd Hbefore Hend s1 s2.
  set (A := mkTween (position cam0) pos look t0 d).
  assert (Hs1 : s1 = set_raf [A] s0).
  { unfold s1, animateCameraTo. rewrite Hcam, Hidle. reflexivity. }
  destruct (lone_tween_runs s1 A cam0 before tf after)
    as (H1 & H2 & H3 & H4 & H5); try assumption.
  { now rewrite Hs1. }
  { now rewrite Hs1. }
  split; [rewrite H1, Hs1; reflexivity|].
  split; [now rewrite H2|].
  split; [unfold s2; rewrite H3, Hs1; reflexivity|].
  split; [exact H4 | exact H5].
Qed.

Lemma progress_monotone tw t1 t2 :
  0 < duration tw -> t1 <= t2 -> progress tw t1 <= progress tw t2.
Proof.
  intros Hd H. unfold progress. apply Q.min_le_compat_r.
  unfold Qdiv. apply Qmult_le_compat_r; [lra|].
  apply Qlt_le_weak, Qinv_lt_0_compat, Hd.
Qed.

Lemma progress_sign tw t :
  0 < duration tw ->
  (startTime tw <= t -> 0 <= progress tw t) /\
  (t < startTime tw -> progress tw t < 0).
Proof.
  intros Hd. unfold progress.
  set (x := (t - startTime tw) / duration tw).
  assert (Hx : x * duration tw == t - startTime tw).
  { unfold x. field. intros H0. rewrite H0 in Hd. now apply Qlt_irrefl in Hd. }
  split; intros H.
  - apply Q.min_glb; [|lra].
    destruct (Qlt_le_dec x 0) as [Hlt|Hge]; [exfalso; nra | exact Hge].
  - apply Qle_lt_trans with (y := x); [apply Q.le_min_l|].
    destruct (Qlt_le_dec x 0) as [Hlt|Hge]; [exact Hlt | exfalso; nra].
Qed.

Lemma cube_monotone p1 p2 :
  p1 <= p2 -> p2 <= 1 ->
  1 - (1 - p1) * (1 - p1) * (1 - p1) <= 1 - (1 - p2) * (1 - p2) * (1 - p2).
Proof.
  intros H12 H2.
  assert (Ha : 0 <= 1 - p2) by lra.
  assert (Hb : 1 - p2 <= 1 - p1) by lra.
  set (a := 1 - p2) in *. set (b := 1 - p1) in *.
  assert (H1 : a * a <= b * b) by nra.
  assert (H3 : 0 <= a * a) by nra.
  assert (H4 : a * a * a <= b * b * a) by nra.
  assert (H5 : b * b * a <= b * b * b) by nra.
  lra.
Qed.

(** X19: the eased progress of a tween never decreases with the frame
    time and never exceeds 1; it is at least 0 for a frame at or after the
    start, where every coordinate of the camera lies between its start and
    its target value, and negative for a frame stamped before the start. *)
Theorem ease_out_is_monotone_and_stays_on_the_segment
  (tw : tween) (t1 t2 : Q) :
  0 < duration tw -> t1 <= t2 ->
  eased tw t1 <= eased tw t2 /\ eased tw t2 <= 1 /\
  (startTime tw <= t1 -> 0 <= eased tw t1) /\
  (t1 < startTime tw -> eased tw t1 < 0) /\
  (startTime tw <= t2 ->
   let p := position (pose tw t2) in
   let a := startPosition tw in
   let b := targetPosition tw in
   (Qmin (vx a) (vx b) <= vx p <= Qmax (vx a) (vx b)) /\
   (Qmin (vy a) (vy b) <= vy p <= Qmax (vy a) (vy b)) /\
   (Qmin (vz a) (vz b) <= vz p <= Qmax (vz a) (vz b))).
Proof.
  intros Hd H12.
  assert (Hp1 : forall t, progress tw t <= 1)
    by (intros t; unfold progress; apply Q.le_min_r).
  assert (Hcube0 : forall p, 0 <= p -> p <= 1 ->
                             0 <= 1 - (1 - p) * (1 - p) * (1 - p)).
  { intros p H0 H1.
    apply Qle_trans with (1 - (1 - 0) * (1 - 0) * (1 - 0)); [lra|].
    apply cube_monotone; assumption. }
  assert (Hcube1 : forall p, p <= 1 ->
                             1 - (1 - p) * (1 - p) * (1 - p) <= 1).
  { intros p H1.
    apply Qle_trans with (1 - (1 - 1) * (1 - 1) * (1 - 1)); [|lra].
    apply cube_monotone; [exact H1 | lra]. }
  split.
  { unfold eased. apply cube_monotone; [now apply progress_monotone | apply Hp1]. }
  split; [unfold eased; apply Hcube1, Hp1|].
  split.
  { intros H. unfold eased. apply Hcube0; [|apply Hp1].
    now apply (progress_sign tw t1 Hd). }
  split.
  { intros H. unfold eased.
    pose proof (proj2 (progress_sign tw t1 Hd) H) as Hneg.
    set (p := progress tw t1) in *.
    assert (1 < 1 - p) by lra.
    assert (1 < (1 - p) * (1 - p)) by nra.
    assert (1 < (1 - p) * (1 - p) * (1 - p)) by nra.
    lra. }
  intros H p a b.
  assert (He0 : 0 <= eased tw t2).
  { unfold eased. apply Hcube0; [|apply Hp1].
    now apply (progress_sign tw t2 Hd). }
  assert (He1 : eased tw t2 <= 1) by (unfold eased; apply Hcube1, Hp1).
  unfold p, pose, lerpVectors. simpl. set (e := eased tw t2) in *.
  assert (Hseg : forall u v, Qmin u v <= u + (v - u) * e <= Qmax u v).
  { intros u v. destruct (Qlt_le_dec u v) as [Huv|Huv].
    - rewrite Q.min_l, Q.max_r by lra. split; nra.
    - rewrite Q.min_r, Q.max_l by lra. split; nra. }
  repeat split; apply Hseg.
Qed.

(** X20: [resetView] with no animation running clears hover and
    selection, emits [view:reset] (and no [country:hover-end]), and its
    tween, once a frame at 2000 ms or later has run, has emitted one
    [camera:animation-complete] and left the camera at (0, 50, 500) looking
    at the origin. *)
Theorem resetView_brings_the_camera_home
  (s0 : globe) (cam0 : camera_t) (now : Q)
  (before : list Q) (tf : Q) (after : list Q) :
  raf s0 = [] -> camera s0 = Some cam0 ->
  Forall (fun t => t < now + 2000) before -> now + 2000 <= tf ->
  let s1 := resetView now s0 in
  let s2 := frames (before ++ tf :: after) s1 in
  emitted s1 = emitted s0 ++ [view_reset] /\
  hoveredCountry s1 = None /\ selectedCountry s1 = None /\
  complete_count s2 = S (complete_count s0) /\
  exists cam, camera s2 = Some cam /\
              same_vec3 (position cam) (mkVec3 0 50 500) /\
              lookingAt cam = mkVec3 0 0 0.
Proof.
  intros Hidle Hcam Hbefore Hend s1 s2.
  set (A := mkTween (position cam0) (mkVec3 0 50 500) (mkVec3 0 0 0)
              now default_duration).
  assert (Hraf : raf s1 = [A]).
  { unfold s1, resetView, animateCameraTo. rewrite Hcam, Hidle. reflexivity. }
  assert (Hcam1 : camera s1 = Some cam0).
  { unfold s1, resetView, animateCameraTo. rewrite Hcam. exact Hcam. }
  assert (Hem : emitted s1 = emitted s0 ++ [view_reset]).
  { unfold s1, resetView, animateCameraTo. rewrite Hcam. reflexivity. }
  destruct (lone_tween_runs s1 A cam0 before tf after Hraf Hcam1)
    as (_ & _ & H3 & _ & H5); try assumption; try reflexivity.
  split; [exact Hem|]. split; [reflexivity|]. split; [reflexivity|].
  split; [|exact H5].
  unfold s2. rewrite H3. f_equal. unfold complete_count. rewrite Hem.
  rewrite List.filter_app. simpl. now rewrite app_nil_r.
Qed.

End GlobeTweenMoreFacts.

Section GlobePickingMoreFacts.
Import DataManager Globe.
Local Open Scope Q_scope.

Variable engagements : engagements_t.
Variable getCoords : Q -> Q -> Q -> vec3.

(** X21: the click listener starts no camera animation and touches
    neither camera nor hover; off the globe it clears the selection and
    emits [globe:deselected]; on the globe it emits one event,
    [country:clicked] with a new object that becomes the selection when the
    lookup finds an entry, [globe:clicked] with the selection unchanged when
    it does not; without coordinates, or when the lookup throws, nothing
    changes. *)
Theorem click_emits_one_event_and_starts_no_animation
  (p : pointer) (s : globe) :
  let s' := on_click engagements p s in
  raf s' = raf s /\ camera s' = camera s /\
  hoveredCountry s' = hoveredCountry s /\
  match p with
  | off_globe =>
      emitted s' = emitted s ++ [globe_deselected] /\
      selectedCountry s' = None
  | on_globe None => s' = s
  | on_globe (Some (lat, lng)) =>
      match getEngagementByCoords engagements lat lng default_tolerance with
      | Throws => s' = s
      | Returns None =>
          emitted s' = emitted s ++ [globe_clicked (lat, lng)] /\
          selectedCountry s' = selectedCountry s
      | Returns (Some d) =>
          emitted s' = emitted s ++ [country_clicked (mkObj (next_addr s) d)] /\
          selectedCountry s' = Some (mkObj (next_addr s) d)
      end
  end.
Proof.
  destruct p as [|[[lat lng]|]]; simpl.
  - auto.
  - destruct (getEngagementByCoords engagements lat lng default_tolerance)
      as [[d|]|]; simpl; auto.
  - auto.
Qed.

Lemma on_mousemove_allocated p s :
  hovered_allocated s -> hovered_allocated (on_mousemove engagements p s).
Proof.
  intros H. destruct p as [|[[lat lng]|]]; simpl.
  - destruct (hoveredCountry s) eqn:E; [|exact H].
    intros o' Ho. simpl in Ho. discriminate.
  - destruct (getEngagementByCoords engagements lat lng default_tolerance)
      as [[d|]|]; simpl; [| |exact H].
    + rewrite (not_same_fresh d s H). simpl.
      unfold handleCountryHover. simpl.
      assert (Hfresh : forall s1, hoveredCountry s1 = Some (mkObj (next_addr s) d) ->
                                  next_addr s1 = S (next_addr s) ->
                                  hovered_allocated s1).
      { intros s1 Hh Hn o Ho. rewrite Hh in Ho. inversion Ho; subst.
        rewrite Hn. simpl. lia. }
      destruct (properties d) as [[iso|]|];
        repeat match goal with
               | |- context [if ?b then _ else _] => destruct b
               | |- context [match ?x with Some _ => _ | None => _ end] =>
                   destruct x
               end; apply Hfresh; reflexivity.
    + destruct (hoveredCountry s) eqn:E; simpl; [|exact H].
      intros o' Ho. simpl in Ho. discriminate.
  - exact H.
Qed.

(** X22: over a point whose lookup gives [null], a move of the pointer
    ends the current hover with one [country:hover-end] carrying the object
    that was hovered, does nothing when nothing was hovered, and repeated
    has no further effect; a move without coordinates changes nothing. *)
Theorem hover_ends_once_where_there_is_no_data
  (lat lng : Q) (s : globe) :
  getEngagementByCoords engagements lat lng default_tolerance
    = Returns None ->
  let move := on_mousemove engagements (on_globe (Some (lat, lng))) in
  (forall o, hoveredCountry s = Some o ->
     emitted (move s) = emitted s ++ [country_hover_end (Some o)] /\
     hoveredCountry (move s) = None) /\
  (hoveredCountry s = None -> move s = s) /\
  move (move s) = move s /\
  on_mousemove engagements (on_globe None) s = s.
Proof.
  intros Hlk move.
  assert (Hmove : forall s1,
            move s1 = match hoveredCountry s1 with
                      | Some _ => handleCountryHover engagements None
                                    (hoveredCountry s1) s1
                      | None => s1
                      end).
  { intros s1. unfold move, on_mousemove, handleGlobeHover. rewrite Hlk.
    destruct (hoveredCountry s1); reflexivity. }
  split; [|split; [|split]].
  - intros o Ho. rewrite Hmove, Ho. split; reflexivity.
  - intros Ho. now rewrite Hmove, Ho.
  - rewrite (Hmove s). destruct (hoveredCountry s) as [o|] eqn:E.
    + rewrite Hmove. reflexivity.
    + now rewrite Hmove, E.
  - reflexivity.
Qed.

(** X23: [handleCountryClick] on a country with an entry (its code no
    name of [Object.prototype]) selects it and emits [country:clicked]
    first and then, when the code is one of [countryCenters],
    [country:focused]; for another code it emits [country:clicked] alone,
    a warning is printed and no animation starts. *)
Theorem handleCountryClick_reports_then_focuses
  (now : Q) (c : obj) (iso : string) (r : record) (s : globe) :
  properties (data c) = Some (Some iso) ->
  getEngagements engagements iso = Some r ->
  inherited iso = false ->
  exists s',
    handleCountryClick engagements getCoords now (Some c) s = Returns s' /\
    selectedCountry s' = Some c /\
    match assoc iso countryCenters with
    | Some _ =>
        emitted s' = emitted s ++ [country_clicked c; country_focused iso] /\
        console s' = console s
    | None =>
        emitted s' = emitted s ++ [country_clicked c] /\
        console s' = console s ++ [warn_no_coordinates iso] /\
        raf s' = raf s
    end.
Proof.
  intros Hp He _. unfold handleCountryClick. rewrite Hp.
  change (default "undefined" (Some iso)) with iso. rewrite He.
  eexists. split; [reflexivity|].
  unfold focusCountry.
  destruct (assoc iso countryCenters) as [[lat lng]|].
  - unfold animateCameraTo. cbn [camera emit set_selected].
    destruct (camera s); cbn; rewrite <- app_assoc; auto.
  - cbn. auto.
Qed.

End GlobePickingMoreFacts.

Section GlobeArcMoreFacts.
Import Globe.
Local Open Scope Q_scope.

Variable parseFloat_string : string -> jsnum.

Lemma loadProjectArcs_fields (l : list arc) (s : globe) :
  l <> [] ->
  let s' := loadProjectArcs parseFloat_string l s in
  arcsData s' = List.filter (isValid parseFloat_string) l /\
  console s'
  = (console s ++
     map warn_invalid_arc
       (List.filter (fun a => negb (isValid parseFloat_string a)) l))
    ++ [log_setting_arcs
          (List.length (List.filter (isValid parseFloat_string) l))
          (List.length l)] /\
  emitted s' = emitted s /\ raf s' = raf s /\ camera s' = camera s.
Proof.
  intros Hne s'. unfold s', loadProjectArcs.
  destruct l as [|a0 l0] eqn:El; [congruence|]. rewrite <- El.
  pose proof (filter_arcs_spec parseFloat_string l s) as [Hf Hs].
  destruct (filter_arcs parseFloat_string l s) as [valid s1].
  simpl in Hf, Hs. subst valid s1. simpl. auto.
Qed.

Lemma filter_valid_again (l : list arc) :
  List.filter (isValid parseFloat_string)
    (List.filter (isValid parseFloat_string) l)
  = List.filter (isValid parseFloat_string) l /\
  List.filter (fun a => negb (isValid parseFloat_string a))
    (List.filter (isValid parseFloat_string) l) = [].
Proof.
  induction l as [|a l [IH1 IH2]]; simpl; [auto|].
  destruct (isValid parseFloat_string a) eqn:E; simpl; [|auto].
  rewrite E, IH1. simpl. auto.
Qed.

(** X24: [loadProjectArcs] with an empty list prints a warning and
    leaves the rendered arcs as they were; with a non-empty list every arc
    is either rendered or warned about, and loading the rendered arcs again
    renders the same arcs with no new warning; it emits no event and touches
    neither camera nor animations. *)
Theorem loadProjectArcs_partitions_and_is_idempotent
  (legacyProjects : list arc) (s : globe) :
  let s' := loadProjectArcs parseFloat_string legacyProjects s in
  (legacyProjects = [] ->
   arcsData s' = arcsData s /\ console s' = console s ++ [warn_no_projects]) /\
  (legacyProjects <> [] ->
   (List.length (arcsData s')
    + List.length (List.filter is_invalid_warning (console s'))
    = List.length legacyProjects
      + List.length (List.filter is_invalid_warning (console s)))%nat /\
   (arcsData s' <> [] ->
    let s'' := loadProjectArcs parseFloat_string (arcsData s') s' in
    arcsData s'' = arcsData s' /\
    List.filter is_invalid_warning (console s'')
    = List.filter is_invalid_warning (console s'))) /\
  emitted s' = emitted s /\ raf s' = raf s /\ camera s' = camera s.
Proof.
  intros s'. split; [|split].
  - intros ->. split; reflexivity.
  - intros Hne.
    destruct (loadProjectArcs_fields legacyProjects s Hne) as (Ha & Hc & _).
    fold s' in Ha, Hc.
    assert (Hwarn : forall l : list arc,
               List.filter is_invalid_warning (map warn_invalid_arc l)
               = map warn_invalid_arc l).
    { induction l as [|x l IH]; simpl; [reflexivity | now rewrite IH]. }
    split.
    + rewrite Ha, Hc, !List.filter_app, Hwarn. simpl.
      rewrite !List.length_app, List.length_map. simpl.
      clear. induction legacyProjects as [|a l IH]; simpl; [lia|].
      destruct (isValid parseFloat_string a); simpl; lia.
    + intros Hne' s''.
      destruct (loadProjectArcs_fields (arcsData s') s' Hne') as (Hb & Hd & _).
      fold s'' in Hb, Hd.
      destruct (filter_valid_again legacyProjects) as [H1 H2].
      split.
      * rewrite Hb, Ha. exact H1.
      * rewrite Hd, Ha, H2. simpl.
        rewrite !List.filter_app. simpl. now rewrite !app_nil_r.
  - unfold s', loadProjectArcs. destruct legacyProjects as [|a l]; [auto|].
    pose proof (filter_arcs_spec parseFloat_string (a :: l) s) as [_ Hs].
    destruct (filter_arcs parseFloat_string (a :: l) s) as [valid s1].
    simpl in Hs. subst s1. auto.
Qed.

End GlobeArcMoreFacts.

Section GlobeStyleFacts.
Import Globe.
Local Open Scope Q_scope.

Variable parseFloat_string : string -> jsnum.
Variable config_arcAltitude : Q.

Lemma js_clamp_bounds lo hi n :
  lo <= hi -> n <> NaN ->
  exists q, js_clamp lo hi n = Fin q /\ lo <= q /\ q <= hi.
Proof.
  intros Hlh Hn. destruct n as [| | |q]; simpl.
  - congruence.
  - exists (Qmax lo hi). split; [reflexivity|]. split.
    + apply Q.le_max_l.
    + apply Q.max_lub; lra.
  - exists lo. split; [reflexivity|]. split; lra.
  - exists (Qmax lo (Qmin hi q)). split; [reflexivity|]. split.
    + apply Q.le_max_l.
    + apply Q.max_lub; [exact Hlh | apply Q.le_min_l].
Qed.

(** X25: [getEnhancedArcStroke] always gives a number between 0.1 and 3:
    a thickness that is unreadable or zero gives 1, and a thickness within
    the band gives itself. *)
Theorem arc_stroke_is_between_a_tenth_and_three (a : styled_arc) :
  (exists q, getEnhancedArcStroke parseFloat_string a = Fin q /\
             1 # 10 <= q /\ q <= 3) /\
  (parseFloat parseFloat_string (thickness a) = NaN ->
   getEnhancedArcStroke parseFloat_string a = Fin 1) /\
  (forall q, parseFloat parseFloat_string (thickness a) = Fin q -> q == 0 ->
   getEnhancedArcStroke parseFloat_string a = Fin 1) /\
  (forall q, parseFloat parseFloat_string (thickness a) = Fin q ->
   1 # 10 <= q -> q <= 3 ->
   exists q', getEnhancedArcStroke parseFloat_string a = Fin q' /\ q' == q).
Proof.
  unfold getEnhancedArcStroke. cbv zeta.
  split; [|split; [|split]].
  - assert (Hn : or_one (parseFloat parseFloat_string (thickness a)) <> NaN).
    { unfold or_one. destruct (parseFloat _ _) as [| | |q]; try discriminate.
      destruct (Qeq_bool q 0); discriminate. }
    destruct (or_one (parseFloat parseFloat_string (thickness a))) eqn:E;
      try congruence; cbn [isNaN].
    + apply js_clamp_bounds; [lra | discriminate].
    + apply js_clamp_bounds; [lra | discriminate].
    + apply js_clamp_bounds; [lra | discriminate].
  - intros ->. reflexivity.
  - intros q -> Hq. unfold or_one.
    apply Qeq_bool_iff in Hq. rewrite Hq. reflexivity.
  - intros q -> H1 H2. unfold or_one.
    destruct (Qeq_bool q 0) eqn:E.
    + apply Qeq_bool_iff in E. exfalso. lra.
    + cbn. eexists. split; [reflexivity|].
      rewrite Q.min_r by exact H2. now rewrite Q.max_r.
Qed.

(** X26: [getEnhancedArcAltitude] gives a number between 0.1 and 1,
    except for an arc whose [arcAlt] is present and unreadable, which gets
    the configured altitude as it is; with neither [arcAlt] nor category
    the configured altitude is clamped like any other. *)
Theorem arc_altitude_is_clamped_unless_unreadable (a : styled_arc) :
  let result :=
    getEnhancedArcAltitude parseFloat_string config_arcAltitude a in
  ((exists q, result = Fin q /\ 1 # 10 <= q /\ q <= 1) \/
   (sa_arcAlt a <> JUndefined /\
    parseFloat parseFloat_string (sa_arcAlt a) = NaN /\
    result = Fin config_arcAltitude)) /\
  (sa_arcAlt a = JUndefined -> category a = None ->
   result = Fin (Qmax (1 # 10) (Qmin 1 config_arcAltitude))).
Proof.
  intros result. unfold result, getEnhancedArcAltitude. cbv zeta. split.
  - destruct (sa_arcAlt a) as [n|str|] eqn:E.
    + cbn [parseFloat]. destruct n as [| | |q] eqn:En; cbn [isNaN].
      * right. split; [discriminate|]. auto.
      * left. apply js_clamp_bounds; [lra | discriminate].
      * left. apply js_clamp_bounds; [lra | discriminate].
      * left. apply js_clamp_bounds; [lra | discriminate].
    + cbn [parseFloat].
      destruct (parseFloat_string str) as [| | |q] eqn:En; cbn [isNaN].
      * right. split; [discriminate|]. auto.
      * left. apply js_clamp_bounds; [lra | discriminate].
      * left. apply js_clamp_bounds; [lra | discriminate].
      * left. apply js_clamp_bounds; [lra | discriminate].
    + left.
      destruct (category_is a "office-connection");
        [|destruct (category_is a "project");
          [|destruct (category_is a "talk");
            [|destruct (category_is a "contact")]]];
        cbn [isNaN]; apply js_clamp_bounds; try lra; discriminate.
  - intros -> Hc. unfold category_is. rewrite Hc. reflexivity.
Qed.

(** X27: [getEnhancedCountryAltitude] gives the home region 0.025, a
    region without data 0.005, and a region with data
    0.01 + 0.002 per engagement, with no upper bound: it is above the home
    region's exactly when the region has more than 7.5 engagements. *)
Theorem country_altitude_grows_with_engagements
  (m : gmap string countryData) (iso : string) (cd : countryData) :
  iso <> "IND" -> m !! iso = Some cd ->
  let alt := getEnhancedCountryAltitude (Some m) in
  alt "IND" == 25 # 1000 /\
  alt iso == (1 # 100) + totalEngagements cd * (2 # 1000) /\
  (0 <= totalEngagements cd -> 5 # 1000 < alt iso) /\
  (alt "IND" < alt iso <-> 15 # 2 < totalEngagements cd) /\
  (forall other, other <> "IND" -> m !! other = None ->
                 alt other == 5 # 1000).
Proof.
  intros Hne Hm alt.
  assert (Hiso : alt iso = (1 # 100) + totalEngagements cd * (2 # 1000)).
  { unfold alt, getEnhancedCountryAltitude. rewrite Hm.
    destruct (String.eqb_spec iso "IND"); [contradiction | reflexivity]. }
  assert (Hind : alt "IND" = 25 # 1000).
  { unfold alt, getEnhancedCountryAltitude. now rewrite String.eqb_refl. }
  rewrite Hiso, Hind.
  split; [reflexivity|]. split; [reflexivity|].
  split; [intros H; lra|]. split; [split; intros H; lra|].
  intros other Ho Hn. unfold alt, getEnhancedCountryAltitude. rewrite Hn.
  destruct (String.eqb_spec other "IND"); [contradiction | reflexivity].
Qed.

End GlobeStyleFacts.

Section GlobeCentreFacts.
Import Globe.
Local Open Scope Q_scope.

Lemma coords_rect (P : coords -> Prop) :
  (forall lng lat, P (Position lng lat)) ->
  (forall l, Forall P l -> P (Nested l)) ->
  forall c, P c.
Proof.
  intros HP HN. fix IH 1. intros [lng lat|l].
  - apply HP.
  - apply HN. induction l as [|c l IHl]; constructor; [apply IH | exact IHl].
Qed.

Lemma each_is_fold (l : list coords) (b : extent) :
  (fix each (l : list coords) (b : extent) : extent :=
     match l with
     | [] => b
     | c :: rest => each rest (processCoordinates c b)
     end) l b
  = fold_left (fun b c => processCoordinates c b) l b.
Proof. revert b. induction l as [|c l IH]; intros b; simpl; [reflexivity | apply IH]. Qed.

Lemma processCoordinates_Nested c l b :
  processCoordinates (Nested (c :: l)) b
  = fold_left (fun b c => processCoordinates c b) (c :: l) b.
Proof. simpl. now rewrite each_is_fold. Qed.

Lemma update_all_app ps qs b :
  update_all (ps ++ qs) b = update_all qs (update_all ps b).
Proof. unfold update_all. apply fold_left_app. Qed.

Lemma processCoordinates_positions c :
  no_empty_array c = true ->
  forall b, processCoordinates c b = update_all (positions c) b.
Proof.
  induction c as [lng lat|l IH] using coords_rect; intros Hne b.
  - reflexivity.
  - destruct l as [|c l]; [discriminate|].
    rewrite processCoordinates_Nested.
    change (no_empty_array (Nested (c :: l)))
      with (forallb no_empty_array (c :: l)) in Hne.
    change (positions (Nested (c :: l))) with (flat_map positions (c :: l)).
    revert b Hne IH. generalize (c :: l) as cs. clear c l.
    induction cs as [|c cs IHcs]; intros b Hne IH; [reflexivity|].
    simpl in Hne. apply andb_true_iff in Hne. destruct Hne as [Hc Hcs].
    inversion IH as [|? ? IHc IHrest]; subst.
    simpl. rewrite update_all_app, (IHc Hc). now apply IHcs.
Qed.

Lemma update_all_bounds ps : forall n0 s0 e0 w0,
  exists n s e w,
    update_all ps (mkExtent (Some n0) (Some s0) (Some e0) (Some w0))
    = mkExtent (Some n) (Some s) (Some e) (Some w) /\
    (n0 <= n /\ s <= s0 /\ e0 <= e /\ w <= w0) /\
    Forall (fun p => w <= fst p /\ fst p <= e /\ s <= snd p /\ snd p <= n) ps /\
    (n == n0 \/ Exists (fun p => snd p == n) ps) /\
    (s == s0 \/ Exists (fun p => snd p == s) ps) /\
    (e == e0 \/ Exists (fun p => fst p == e) ps) /\
    (w == w0 \/ Exists (fun p => fst p == w) ps).
Proof.
  induction ps as [|[lng lat] ps IH]; intros n0 s0 e0 w0.
  - exists n0, s0, e0, w0. split; [reflexivity|].
    split; [repeat split; lra|]. split; [constructor|].
    repeat split; left; reflexivity.
  - destruct (IH (Qmax n0 lat) (Qmin s0 lat) (Qmax e0 lng) (Qmin w0 lng))
      as (n & s & e & w & Heq & (Hn & Hs & He & Hw) & Hall & Hn' & Hs' & He' & Hw').
    exists n, s, e, w. split; [exact Heq|].
    pose proof (Q.le_max_l n0 lat). pose proof (Q.le_max_r n0 lat).
    pose proof (Q.le_min_l s0 lat). pose proof (Q.le_min_r s0 lat).
    pose proof (Q.le_max_l e0 lng). pose proof (Q.le_max_r e0 lng).
    pose proof (Q.le_min_l w0 lng). pose proof (Q.le_min_r w0 lng).
    split; [repeat split; lra|].
    split; [constructor; [simpl; repeat split; lra | exact Hall]|].
    split; [|split; [|split]].
    + destruct Hn' as [Hn'|Hn']; [|right; now constructor 2].
      destruct (Q.max_spec n0 lat) as [[_ Hm]|[_ Hm]].
      * right. constructor 1. simpl. rewrite Hn', Hm. reflexivity.
      * left. rewrite Hn', Hm. reflexivity.
    + destruct Hs' as [Hs'|Hs']; [|right; now constructor 2].
      destruct (Q.min_spec s0 lat) as [[_ Hm]|[_ Hm]].
      * left. rewrite Hs', Hm. reflexivity.
      * right. constructor 1. simpl. rewrite Hs', Hm. reflexivity.
    + destruct He' as [He'|He']; [|right; now constructor 2].
      destruct (Q.max_spec e0 lng) as [[_ Hm]|[_ Hm]].
      * right. constructor 1. simpl. rewrite He', Hm. reflexivity.
      * left. rewrite He', Hm. reflexivity.
    + destruct Hw' as [Hw'|Hw']; [|right; now constructor 2].
      destruct (Q.min_spec w0 lng) as [[_ Hm]|[_ Hm]].
      * left. rewrite Hw', Hm. reflexivity.
      * right. constructor 1. simpl. rewrite Hw', Hm. reflexivity.
Qed.

Lemma positions_nonempty c : no_empty_array c = true -> positions c <> [].
Proof.
  induction c as [lng lat|l IH] using coords_rect; intros Hne.
  - discriminate.
  - destruct l as [|c l]; [discriminate|].
    change (no_empty_array (Nested (c :: l)))
      with (forallb no_empty_array (c :: l)) in Hne.
    simpl in Hne. apply andb_true_iff in Hne. destruct Hne as [Hc _].
    inversion IH as [|? ? IHc _]; subst.
    change (positions (Nested (c :: l))) with (positions c ++ flat_map positions l).
    intros H. apply app_eq_nil in H. destruct H as [H _]. now apply IHc.
Qed.

Lemma getCountryCenter_bounding_box (c : coords) :
  no_empty_array c = true ->
  Forall (fun p => -180 <= fst p /\ fst p <= 180 /\
                   -90 <= snd p /\ snd p <= 90) (positions c) ->
  exists n s e w,
    getCountryCenter (Some c) = Some (Some ((n + s) / 2), Some ((e + w) / 2)) /\
    Forall (fun p => w <= fst p /\ fst p <= e /\ s <= snd p /\ snd p <= n)
      (positions c) /\
    Exists (fun p => snd p == n) (positions c) /\
    Exists (fun p => snd p == s) (positions c) /\
    Exists (fun p => fst p == e) (positions c) /\
    Exists (fun p => fst p == w) (positions c).
Proof.
  intros Hne Hvalid.
  destruct (update_all_bounds (positions c) (-90) 90 (-180) 180)
    as (n & s & e & w & Heq & (Hn & Hs & He & Hw) & Hall & Hn' & Hs' & He' & Hw').
  exists n, s, e, w. split.
  { unfold getCountryCenter. cbv zeta.
    rewrite (processCoordinates_positions c Hne), Heq. reflexivity. }
  split; [exact Hall|].
  pose proof (positions_nonempty c Hne) as Hpos.
  destruct (positions c) as [|[lng lat] ps] eqn:Eps; [congruence|].
  inversion Hvalid as [|? ? (H1 & H2 & H3 & H4) _]; subst.
  inversion Hall as [|? ? (G1 & G2 & G3 & G4) _]; subst.
  simpl in *.
  split; [|split; [|split]].
  - destruct Hn' as [Hn'|Hn']; [|exact Hn'].
    constructor 1. simpl. lra.
  - destruct Hs' as [Hs'|Hs']; [|exact Hs'].
    constructor 1. simpl. lra.
  - destruct He' as [He'|He']; [|exact He'].
    constructor 1. simpl. lra.
  - destruct Hw' as [Hw'|Hw']; [|exact Hw'].
    constructor 1. simpl. lra.
Qed.


Lemma processCoordinates_absorbs c :
  processCoordinates c (mkExtent None None None None)
  = mkExtent None None None None.
Proof.
  induction c as [lng lat|l IH] using coords_rect.
  - reflexivity.
  - destruct l as [|c l]; [reflexivity|].
    rewrite processCoordinates_Nested.
    generalize dependent (c :: l). clear c l.
    induction l as [|c cs IHcs]; intros IH; [reflexivity|].
    inversion IH as [|? ? IHc IHrest]; subst.
    simpl. rewrite IHc. now apply IHcs.
Qed.

Lemma fold_absorbs (l : list coords) :
  fold_left (fun b c => processCoordinates c b) l
    (mkExtent None None None None)
  = mkExtent None None None None.
Proof.
  induction l as [|c l IH]; simpl; [reflexivity|].
  now rewrite processCoordinates_absorbs.
Qed.

Lemma processCoordinates_empty_array c :
  no_empty_array c = false ->
  forall b, processCoordinates c b = mkExtent None None None None.
Proof.
  induction c as [lng lat|l IH] using coords_rect; intros Hne b.
  - discriminate.
  - destruct l as [|c l].
    + simpl. unfold updateBounds.
      destruct (north b), (south b), (east b), (west b); reflexivity.
    + rewrite processCoordinates_Nested.
      change (no_empty_array (Nested (c :: l)))
        with (forallb no_empty_array (c :: l)) in Hne.
      revert b Hne IH. generalize (c :: l) as cs. clear c l.
      induction cs as [|c cs IHcs]; intros b Hne IH; [discriminate|].
      inversion IH as [|? ? IHc IHrest]; subst.
      simpl in Hne. simpl.
      destruct (no_empty_array c) eqn:Ec.
      * simpl in Hne. now apply IHcs.
      * rewrite (IHc eq_refl). apply fold_absorbs.
Qed.

Lemma getCountryCenter_empty_array (c : coords) :
  no_empty_array c = false ->
  getCountryCenter (Some c) = Some (None, None).
Proof.
  intros Hne.
  unfold getCountryCenter. cbv zeta.
  now rewrite (processCoordinates_empty_array c Hne).
Qed.

(** X28: for coordinates without an empty array whose positions are
    valid latitudes and longitudes, [getCountryCenter] gives the middle of
    the bounding box of the positions, each side of the box being attained
    by a position; with an empty array anywhere both coordinates are [NaN];
    without coordinates the result is [null]. *)
Theorem getCountryCenter_is_the_middle_of_the_bounding_box (c : coords) :
  (no_empty_array c = true ->
   Forall (fun p => -180 <= fst p /\ fst p <= 180 /\
                    -90 <= snd p /\ snd p <= 90) (positions c) ->
   exists n s e w,
     getCountryCenter (Some c)
     = Some (Some ((n + s) / 2), Some ((e + w) / 2)) /\
     Forall (fun p => w <= fst p /\ fst p <= e /\ s <= snd p /\ snd p <= n)
       (positions c) /\
     Exists (fun p => snd p == n) (positions c) /\
     Exists (fun p => snd p == s) (positions c) /\
     Exists (fun p => fst p == e) (positions c) /\
     Exists (fun p => fst p == w) (positions c)) /\
  (no_empty_array c = false ->
   getCountryCenter (Some c) = Some (None, None)) /\
  getCountryCenter None = None.
Proof.
  split; [|split].
  - apply getCountryCenter_bounding_box.
  - apply getCountryCenter_empty_array.
  - reflexivity.
Qed.

End GlobeCentreFacts.

Section GlobeMoreExamples.
Import DataManager Globe.
Local Open Scope Q_scope.

(** One request at 0 ms for 2000 ms, with frames at 16, 1000, 2000 and
    2016 ms: one completion, and the camera at the target. *)
Lemma single_tween_completes_once_at_its_target_witness :
  let s1 := animateCameraTo 0 target_A origin 2000 Globe.initial in
  let s2 := frames ([16; 1000] ++ 2000 :: [2016]) s1 in
  complete_count (frames [16; 1000] s1) = 0%nat /\
  complete_count s2 = 1%nat /\
  raf s2 = [] /\
  exists cam, camera s2 = Some cam /\
              same_vec3 (position cam) target_A /\ lookingAt cam = origin.
Proof.
  intros s1 s2.
  assert (D : 0 < 2000) by reflexivity.
  assert (B : Forall (fun t => t < 0 + 2000) [16; 1000])
    by (repeat (constructor; try reflexivity)).
  assert (F : 0 + 2000 <= 2000) by discriminate.
  destruct (single_tween_completes_once_at_its_target Globe.initial
              (mkCamera (mkVec3 0 0 400) (mkVec3 0 0 0)) 0 target_A origin
              2000 [16; 1000] 2000 [2016] eq_refl eq_refl D B F)
    as (H1 & _ & H2 & H3 & H4).
  split; [exact H1|]. split; [exact H2|]. split; [exact H3 | exact H4].
Defined.

(** A tween from (0, 0, 400) to (300, 0, 0) over 2000 ms: the progress at
    1000 ms is at least that at 500 ms, and the camera is between the two
    ends on every axis. *)
Lemma ease_out_is_monotone_and_stays_on_the_segment_witness :
  let tw := mkTween (mkVec3 0 0 400) target_A origin 0 2000 in
  eased tw 500 <= eased tw 1000 /\ eased tw 1000 <= 1 /\
  0 <= vx (position (pose tw 1000)) <= 300 /\
  0 <= vz (position (pose tw 1000)) <= 400.
Proof.
  intros tw.
  assert (D : 0 < duration tw) by reflexivity.
  assert (L : 500 <= 1000) by discriminate.
  destruct (ease_out_is_monotone_and_stays_on_the_segment tw 500 1000 D L)
    as (H1 & H2 & _ & _ & H3).
  split; [exact H1|]. split; [exact H2|].
  assert (S : startTime tw <= 1000) by discriminate.
  destruct (H3 S) as (Hx & _ & Hz).
  split; [exact Hx | exact Hz].
Defined.

(** Over India with a table that has no entry for it, the hover on a
    feature ends with one event. *)
Lemma hover_ends_once_where_there_is_no_data_witness :
  let s := mkGlobe None (Some (feature "IND")) None [] [] [] 1 [] in
  let move := on_mousemove (Some ∅) (on_globe (Some (20, 78))) in
  emitted (move s) = [country_hover_end (Some (feature "IND"))] /\
  hoveredCountry (move s) = None /\
  move (move s) = move s.
Proof.
  intros s move.
  assert (N : getEngagementByCoords (Some ∅) 20 78 default_tolerance
              = Returns None) by reflexivity.
  destruct (hover_ends_once_where_there_is_no_data (Some ∅) 20 78 s N)
    as (H1 & _ & H2 & _).
  destruct (H1 (feature "IND") eq_refl) as (E & H).
  split; [exact E|]. split; [exact H | exact H2].
Defined.

(** A click handled for the feature of India, which has an entry and a
    centre: [country:clicked], then [country:focused]. *)
Lemma handleCountryClick_reports_then_focuses_witness :
  exists s',
    handleCountryClick
      (Some {[ "IND" := mkRecord None None "india" ]})
      (fun lat lng alt => mkVec3 lat lng alt) 0
      (Some (feature "IND")) Globe.initial = Returns s' /\
    selectedCountry s' = Some (feature "IND") /\
    emitted s' = [country_clicked (feature "IND"); country_focused "IND"].
Proof.
  assert (E : getEngagements
                (Some {[ "IND" := mkRecord None None "india" ]}) "IND"
              = Some (mkRecord None None "india")) by reflexivity.
  destruct (handleCountryClick_reports_then_focuses
              (Some {[ "IND" := mkRecord None None "india" ]})
              (fun lat lng alt => mkVec3 lat lng alt) 0
              (feature "IND") "IND" (mkRecord None None "india")
              Globe.initial eq_refl E eq_refl)
    as (s' & H1 & H2 & H3).
  exists s'. split; [exact H1|]. split; [exact H2|]. exact (proj1 H3).
Defined.

(** Reset at 0 ms with frames at 16 and 2000 ms: one completion, and the
    camera at (0, 50, 500). *)
Lemma resetView_brings_the_camera_home_witness :
  let s2 := frames ([16] ++ 2000 :: []) (resetView 0 Globe.initial) in
  emitted (resetView 0 Globe.initial) = [view_reset] /\
  complete_count s2 = 1%nat /\
  exists cam, camera s2 = Some cam /\
              same_vec3 (position cam) (mkVec3 0 50 500) /\
              lookingAt cam = mkVec3 0 0 0.
Proof.
  intros s2.
  assert (B : Forall (fun t => t < 0 + 2000) [16])
    by (repeat (constructor; try reflexivity)).
  assert (F : 0 + 2000 <= 2000) by discriminate.
  destruct (resetView_brings_the_camera_home Globe.initial
              (mkCamera (mkVec3 0 0 400) (mkVec3 0 0 0)) 0 [16] 2000 []
              eq_refl eq_refl B F)
    as (H1 & _ & _ & H2 & H3).
  split; [exact H1|]. split; [exact H2 | exact H3].
Defined.

(** Two arcs, the second with a latitude of 95: one is rendered, one is
    warned about, and loading the rendered arc again changes nothing. *)
Lemma loadProjectArcs_partitions_and_is_idempotent_witness :
  let s' := loadProjectArcs (fun _ => NaN)
              [arc_of 10 20 30 40; arc_of 95 0 0 0] Globe.initial in
  (List.length (arcsData s')
   + List.length (List.filter is_invalid_warning (console s')) = 2)%nat /\
  arcsData (loadProjectArcs (fun _ => NaN) (arcsData s') s') = arcsData s'.
Proof.
  intros s'.
  destruct (proj1 (proj2 (loadProjectArcs_partitions_and_is_idempotent
                            (fun _ => NaN)
                            [arc_of 10 20 30 40; arc_of 95 0 0 0]
                            Globe.initial)))
    as (H1 & H2); [discriminate|].
  split; [exact H1|].
  apply H2. discriminate.
Defined.

(** A thickness of 2 is kept, and one that cannot be read gives 1. *)
Lemma arc_stroke_is_between_a_tenth_and_three_witness :
  (exists q, getEnhancedArcStroke (fun _ => NaN)
               (mkStyledArc None JUndefined None (JNum (Fin 2))) = Fin q /\
             q == 2) /\
  getEnhancedArcStroke (fun _ => NaN)
    (mkStyledArc None JUndefined None (JStr "wide")) = Fin 1.
Proof.
  split.
  - apply (proj2 (proj2 (proj2
             (arc_stroke_is_between_a_tenth_and_three (fun _ => NaN)
                (mkStyledArc None JUndefined None (JNum (Fin 2))))))
             2 eq_refl); discriminate.
  - apply (proj1 (proj2
             (arc_stroke_is_between_a_tenth_and_three (fun _ => NaN)
                (mkStyledArc None JUndefined None (JStr "wide"))))).
    reflexivity.
Defined.

(** With neither [arcAlt] nor category, a configured altitude of 5 is
    clamped to 1. *)
Lemma arc_altitude_is_clamped_unless_unreadable_witness :
  getEnhancedArcAltitude (fun _ => NaN) 5
    (mkStyledArc None JUndefined None JUndefined)
  = Fin (Qmax (1 # 10) (Qmin 1 5)).
Proof.
  apply (proj2 (arc_altitude_is_clamped_unless_unreadable (fun _ => NaN) 5
                  (mkStyledArc None JUndefined None JUndefined)));
    reflexivity.
Defined.

(** Singapore with 10 engagements stands at 0.03, above the home region
    at 0.025. *)
Lemma country_altitude_grows_with_engagements_witness :
  let alt :=
    getEnhancedCountryAltitude (Some {[ "SGP" := mkCountryData 4 10 ]}) in
  alt "SGP" == (1 # 100) + 10 * (2 # 1000) /\ alt "IND" < alt "SGP".
Proof.
  intros alt.
  assert (N : "SGP" <> "IND") by discriminate.
  assert (E : ({[ "SGP" := mkCountryData 4 10 ]} : gmap string countryData)
              !! "SGP" = Some (mkCountryData 4 10)) by reflexivity.
  destruct (country_altitude_grows_with_engagements
              {[ "SGP" := mkCountryData 4 10 ]} "SGP" (mkCountryData 4 10)
              N E)
    as (_ & H1 & _ & H2 & _).
  split; [exact H1|]. apply (proj2 H2). reflexivity.
Defined.

(** The triangle (100, 0), (104, 6), (102, 2) has its centre at latitude
    3 and longitude 102; with an empty ring beside it, both are [NaN]. *)
Lemma getCountryCenter_is_the_middle_of_the_bounding_box_witness :
  (exists n s e w,
     getCountryCenter (Some triangle)
     = Some (Some ((n + s) / 2), Some ((e + w) / 2)) /\
     Exists (fun p => snd p == n) (positions triangle) /\
     Exists (fun p => fst p == w) (positions triangle)) /\
  getCountryCenter (Some (Nested [triangle; Nested []]))
  = Some (None, None).
Proof.
  split.
  - assert (V : Forall (fun p => -180 <= fst p /\ fst p <= 180 /\
                                 -90 <= snd p /\ snd p <= 90)
                  (positions triangle))
      by (repeat (constructor; try (repeat split; discriminate))).
    destruct (proj1 (getCountryCenter_is_the_middle_of_the_bounding_box
                       triangle) eq_refl V)
      as (n & s & e & w & H1 & _ & H2 & _ & _ & H3).
    exists n, s, e, w. split; [exact H1|]. split; [exact H2 | exact H3].
  - apply (proj1 (proj2 (getCountryCenter_is_the_middle_of_the_bounding_box
                           (Nested [triangle; Nested []])))).
    reflexivity.
Defined.

End GlobeMoreExamples.

(** ** Search *)

Section SearchUtilsFacts.
Import SearchUtils.

Variable normalizeText : string -> string.
Variable MIN_QUERY_LENGTH : nat.

Lemma includes_empty s : includes s "" = true.
Proof. destruct s; reflexivity. Qed.

(** X29: [filterResults] returns at most [limit] items, all of them
    items that match; nothing for an empty query or one shorter than the
    minimum; every match when there are no more than [limit]; and a query
    that normalises to the empty string matches every item with a
    searchable string field. *)
Theorem filterResults_is_a_bounded_part_of_the_matches
  (items : list (gmap string field)) (query : string) (limit : nat) :
  let found := filterResults normalizeText MIN_QUERY_LENGTH items query limit in
  let matches :=
    List.filter (fun item => searchInObject normalizeText item query) items in
  (List.length found <= limit)%nat /\
  (forall item, In item found ->
     In item items /\ searchInObject normalizeText item query = true) /\
  (query = "" \/ (String.length query < MIN_QUERY_LENGTH)%nat -> found = []) /\
  (query <> "" -> (MIN_QUERY_LENGTH <= String.length query)%nat ->
   (List.length matches <= limit)%nat -> found = matches) /\
  (normalizeText query = "" ->
   forall item name v, In name searchableFields ->
     item !! name = Some (FString v) ->
     searchInObject normalizeText item query = true).
Proof.
  cbv zeta.
  assert (Hblank : normalizeText query = "" ->
            forall (item : gmap string field) name v,
              In name searchableFields ->
              item !! name = Some (FString v) ->
              searchInObject normalizeText item query = true).
  { intros Hn item name v Hin Hit. unfold searchInObject.
    apply existsb_exists. exists name. split; [exact Hin|].
    rewrite Hit, Hn. apply includes_empty. }
  unfold filterResults.
  destruct (String.eqb_spec query "") as [Heq|Hq]; simpl.
  - split; [lia|]. split; [intros item []|]. split; [reflexivity|].
    split; [congruence | exact Hblank].
  - destruct (Nat.ltb_spec (String.length query) MIN_QUERY_LENGTH) as [Hlt|Hge].
    + split; [simpl; lia|]. split; [intros item []|]. split; [reflexivity|].
      split; [intros _ H; lia | exact Hblank].
    + split; [apply List.firstn_le_length|].
      split.
      { intros item Hin.
        assert (Hin' : In item
                  (List.filter
                     (fun item => searchInObject normalizeText item query)
                     items)).
        { rewrite <- (List.firstn_skipn limit). apply in_or_app. now left. }
        apply List.filter_In in Hin'. exact Hin'. }
      split; [intros [H|H]; [congruence | lia]|].
      split; [intros _ _ H; now apply List.firstn_all2 | exact Hblank].
Qed.

End SearchUtilsFacts.

Section SearchUtilsExamples.
Import SearchUtils.

(** Two items named in lower case, the query [ind], a minimum length of 2
    and a limit of 5: the one match is returned; the query [i] is too
    short. *)
Lemma filterResults_is_a_bounded_part_of_the_matches_witness :
  filterResults (fun s => s) 2
    [{[ "name" := FString "india" ]}; {[ "name" := FString "japan" ]}]
    "ind" 5
  = [{[ "name" := FString "india" ]}] /\
  filterResults (fun s => s) 2
    [{[ "name" := FString "india" ]}; {[ "name" := FString "japan" ]}]
    "i" 5
  = [].
Proof.
  split.
  - etransitivity.
    + apply (proj1 (proj2 (proj2 (proj2
               (filterResults_is_a_bounded_part_of_the_matches (fun s => s) 2
                  [{[ "name" := FString "india" ]};
                   {[ "name" := FString "japan" ]}] "ind" 5))))).
      * discriminate.
      * repeat constructor.
      * vm_compute. repeat constructor.
    + reflexivity.
  - apply (proj1 (proj2 (proj2
             (filterResults_is_a_bounded_part_of_the_matches (fun s => s) 2
                [{[ "name" := FString "india" ]};
                 {[ "name" := FString "japan" ]}] "i" 5)))).
    right. repeat constructor.
Defined.

End SearchUtilsExamples.
